(** * The peer registry of package tchannel: PeerList and Peer

    A shallow embedding of [PeerList] and [Peer]: the two structs live in a
    store addressed by position (Go pointers become indices, so pointer
    identity is index equality), every method is a computation in a
    state-and-failure monad over that store, and the collaborators that the
    file only consumes (the channel, connections, the peer selector, the
    random source) are the operations of a type class. *)

From stdpp Require Import gmap strings list fin_maps.

(** ** References, errors, connection states *)

(** A pointer to an object of the given kind: its position in the store. *)
Abbreviation ChanRef := nat (only parsing).
Abbreviation ConnRef := nat (only parsing).
Abbreviation PeerRef := nat (only parsing).
Abbreviation ListRef := nat (only parsing).
Abbreviation SelRef := nat (only parsing).

(** The two error values the file declares, and the errors that come from
    the channel or from a connection. *)
Inductive error : Type :=
  | ErrInvalidConnectionState
  | ErrNoPeers
  | ErrExternal (msg : string).

(** Modelled from the spec: the enumeration of connection states is declared
    with the connection, outside this file. The file names [connectionActive]
    and [connectionStartClose]; the spec adds closed and leaves the rest
    open, which [connectionOtherState] stands for. *)
Inductive connectionState : Type :=
  | connectionActive
  | connectionStartClose
  | connectionClosed
  | connectionOtherState (code : nat).

(** ** sync.RWMutex, as seen by one thread

    A lock operation that would block for ever in a single thread (taking
    the write lock of a mutex that is held, reading a mutex that is held
    for writing) or that the runtime refuses (unlocking a mutex that is not
    held) has no result. *)
Record RWMutex : Type := mkRWMutex { writer : bool; readers : nat }.

Definition idle : RWMutex := mkRWMutex false 0.

Definition RLock (m : RWMutex) : option RWMutex :=
  if writer m then None else Some (mkRWMutex false (S (readers m))).

Definition RUnlock (m : RWMutex) : option RWMutex :=
  match readers m with
  | 0 => None
  | S n => Some (mkRWMutex (writer m) n)
  end.

Definition Lock (m : RWMutex) : option RWMutex :=
  if writer m || (0 <? readers m) then None else Some (mkRWMutex true 0).

Definition Unlock (m : RWMutex) : option RWMutex :=
  if writer m then Some (mkRWMutex false (readers m)) else None.

Definition is_idle (m : RWMutex) : bool :=
  negb (writer m) && (readers m =? 0).

(** ** The structs *)

Record Peer : Type := mkPeer {
  Peer_channel : ChanRef;
  hostPort : string;
  Peer_mut : RWMutex;
  inboundConnections : list ConnRef;
  outboundConnections : list ConnRef
}.

Record PeerList : Type := mkPeerList {
  PeerList_channel : ChanRef;
  parent : option ListRef;
  PeerList_mut : RWMutex;
  peersByHostPort : gmap string PeerRef;
  peers : list PeerRef;
  peerSelector : SelRef
}.

Definition Peer_set_mut (p : Peer) (m : RWMutex) : Peer :=
  mkPeer (Peer_channel p) (hostPort p) m
         (inboundConnections p) (outboundConnections p).

Definition PeerList_set_mut (l : PeerList) (m : RWMutex) : PeerList :=
  mkPeerList (PeerList_channel l) (parent l) m
             (peersByHostPort l) (peers l) (peerSelector l).

(** ** The trace

    What a run calls across component boundaries, in order. Every entry is
    stamped with the PeerList mutexes that are held at the moment of the
    call. *)
Inductive Event : Type :=
  | EvListAdd (l : ListRef) (hp : string)
  | EvPeerClose (p : PeerRef)
  | EvPeerGetConnection (p : PeerRef)
  | EvPeerConnect (p : PeerRef)
  | EvChannelConnect (ch : ChanRef) (hp : string)
  | EvConnBeginCall (c : ConnRef) (service operation : string)
  | EvConnClose (c : ConnRef)
  | EvChoosePeer (sel : SelRef) (candidates : list PeerRef).

Global Instance Event_eq_dec : EqDecision Event.
Proof. solve_decision. Defined.

Record Entry : Type := mkEntry {
  ev : Event;
  held : list (ListRef * RWMutex)
}.

(** ** The collaborators

    [Connectable] is the interface of the file; the connection, the peer
    selector, the random source [peerRng] and [defaultCallOptions] are
    declared elsewhere in the package. Their objects live in [Env], which
    every operation may read and change. *)
Class Collaborators : Type := {
  Ctx : Type;
  ConnectionOptions : Type;
  CallOptions : Type;
  OutboundCall : Type;
  Env : Type;
  (* Connectable *)
  chan_Connect :
    ChanRef -> Ctx -> string -> ConnectionOptions -> Env -> (error + ConnRef) * Env;
  chan_ConnectionOptions : ChanRef -> Env -> ConnectionOptions;
  (* Connection *)
  readState : ConnRef -> Env -> connectionState;
  IsActive : ConnRef -> Env -> bool;
  beginCall :
    ConnRef -> Ctx -> string -> CallOptions -> string -> Env ->
    (error + OutboundCall) * Env;
  conn_Close : ConnRef -> Env -> Env;
  defaultCallOptions : CallOptions;
  (* peerSelector *)
  newPeerSelector : Env -> SelRef * Env;
  choosePeer : SelRef -> list PeerRef -> Env -> PeerRef * Env;
  (* peerRng *)
  Intn : nat -> Env -> nat * Env
}.

(** ** The store and the monad *)

Section Store.
Context `{Collaborators}.

Record World : Type := mkWorld {
  lists : list PeerList;
  peerHeap : list Peer;
  env : Env;
  trace : list Entry
}.

Definition M (A : Type) : Type := World -> option (A * World).

Definition ret {A} (a : A) : M A := fun σ => Some (a, σ).

Definition bind {A B} (m : M A) (k : A -> M B) : M B :=
  fun σ => match m σ with
           | Some (a, σ') => k a σ'
           | None => None
           end.

(** A panic, a deadlock, a dangling reference. *)
Definition stuck {A} : M A := fun _ => None.

Definition lockedLists (ls : list PeerList) : list (ListRef * RWMutex) :=
  filter (fun e => is_idle e.2 = false)
         (imap (fun i l => (i, PeerList_mut l)) ls).

Definition logEv (e : Event) : M unit :=
  fun σ => Some (tt, mkWorld (lists σ) (peerHeap σ) (env σ)
                             (trace σ ++ [mkEntry e (lockedLists (lists σ))])).

Definition readList (l : ListRef) : M PeerList :=
  fun σ => match lists σ !! l with
           | Some pl => Some (pl, σ)
           | None => None
           end.

Definition writeList (l : ListRef) (pl : PeerList) : M unit :=
  fun σ => Some (tt, mkWorld (<[l := pl]> (lists σ)) (peerHeap σ) (env σ) (trace σ)).

Definition readPeer (p : PeerRef) : M Peer :=
  fun σ => match peerHeap σ !! p with
           | Some pr => Some (pr, σ)
           | None => None
           end.

Definition writePeer (p : PeerRef) (pr : Peer) : M unit :=
  fun σ => Some (tt, mkWorld (lists σ) (<[p := pr]> (peerHeap σ)) (env σ) (trace σ)).

Definition askEnv {A} (f : Env -> A) : M A :=
  fun σ => Some (f (env σ), σ).

Definition callEnv {A} (f : Env -> A * Env) : M A :=
  fun σ => let '(a, e) := f (env σ) in
           Some (a, mkWorld (lists σ) (peerHeap σ) e (trace σ)).

Definition runEnv (f : Env -> Env) : M unit :=
  fun σ => Some (tt, mkWorld (lists σ) (peerHeap σ) (f (env σ)) (trace σ)).

Definition liftOpt {A} (o : option A) : M A :=
  fun σ => match o with Some a => Some (a, σ) | None => None end.
End Store.

Notation "'let!' x ':=' m 'in' k" := (bind m (fun x => k))
  (at level 10, x name, m at level 100, k at level 200).
Notation "m ';;;' k" := (bind m (fun _ => k))
  (at level 100, k at level 200, right associativity).

(** ** Peer *)

Module Peer.
Section Peer.
Context `{Collaborators}.

Definition RLock (p : PeerRef) : M unit :=
  let! pr := readPeer p in
  let! m := liftOpt (RLock (Peer_mut pr)) in
  writePeer p (Peer_set_mut pr m).

Definition RUnlock (p : PeerRef) : M unit :=
  let! pr := readPeer p in
  let! m := liftOpt (RUnlock (Peer_mut pr)) in
  writePeer p (Peer_set_mut pr m).

Definition Lock (p : PeerRef) : M unit :=
  let! pr := readPeer p in
  let! m := liftOpt (Lock (Peer_mut pr)) in
  writePeer p (Peer_set_mut pr m).

Definition Unlock (p : PeerRef) : M unit :=
  let! pr := readPeer p in
  let! m := liftOpt (Unlock (Peer_mut pr)) in
  writePeer p (Peer_set_mut pr m).

(** [&Peer{channel: channel, hostPort: hostPort}]: a fresh object at the
    end of the store, with a zero mutex and nil slices. *)
Definition newPeer (channel : ChanRef) (hp : string) : M PeerRef :=
  fun σ => Some (length (peerHeap σ),
                 mkWorld (lists σ)
                         (peerHeap σ ++ [mkPeer channel hp idle [] []])
                         (env σ) (trace σ)).

Definition HostPort (p : PeerRef) : M string :=
  let! pr := readPeer p in ret (hostPort pr).

(** The callback of the source closes over a local variable; here it
    threads that variable as an accumulator. *)
Fixpoint each {S : Type} (f : ConnRef -> S -> M S) (cs : list ConnRef) (s : S) : M S :=
  match cs with
  | [] => ret s
  | c :: cs' => let! s' := f c s in each f cs' s'
  end.

Definition runWithConnections {S : Type} (p : PeerRef)
    (f : ConnRef -> S -> M S) (s : S) : M S :=
  let! pr := readPeer p in
  let! s1 := each f (inboundConnections pr) s in
  let! pr := readPeer p in
  each f (outboundConnections pr) s1.

Definition getActive (p : PeerRef) : M (list ConnRef) :=
  RLock p ;;;
  let! active :=
    runWithConnections p
      (fun c active =>
         let! a := askEnv (IsActive c) in
         if a then ret (active ++ [c]) else ret active)
      [] in
  RUnlock p ;;;
  ret active.

Definition randConn (conns : list ConnRef) : M ConnRef :=
  let! i := callEnv (Intn (length conns)) in
  liftOpt (conns !! i).

Definition AddInboundConnection (p : PeerRef) (c : ConnRef) : M (option error) :=
  let! st := askEnv (readState c) in
  match st with
  | connectionActive | connectionStartClose =>
      Lock p ;;;
      let! pr := readPeer p in
      writePeer p (mkPeer (Peer_channel pr) (hostPort pr) (Peer_mut pr)
                          (inboundConnections pr ++ [c])
                          (outboundConnections pr)) ;;;
      Unlock p ;;;
      ret None
  | _ => ret (Some ErrInvalidConnectionState)
  end.

Definition AddOutboundConnection (p : PeerRef) (c : ConnRef) : M (option error) :=
  let! st := askEnv (readState c) in
  match st with
  | connectionActive | connectionStartClose =>
      Lock p ;;;
      let! pr := readPeer p in
      writePeer p (mkPeer (Peer_channel pr) (hostPort pr) (Peer_mut pr)
                          (inboundConnections pr)
                          (outboundConnections pr ++ [c])) ;;;
      Unlock p ;;;
      ret None
  | _ => ret (Some ErrInvalidConnectionState)
  end.

Definition Connect (p : PeerRef) (ctx : Ctx) : M (error + ConnRef) :=
  logEv (EvPeerConnect p) ;;;
  let! pr := readPeer p in
  let! opts := askEnv (chan_ConnectionOptions (Peer_channel pr)) in
  logEv (EvChannelConnect (Peer_channel pr) (hostPort pr)) ;;;
  let! r := callEnv (chan_Connect (Peer_channel pr) ctx (hostPort pr) opts) in
  match r with
  | inl err => ret (inl err)
  | inr c =>
      let! e := AddOutboundConnection p c in
      match e with
      | Some err => ret (inl err)
      | None => ret (inr c)
      end
  end.

Definition GetConnection (p : PeerRef) (ctx : Ctx) : M (error + ConnRef) :=
  logEv (EvPeerGetConnection p) ;;;
  let! activeConns := getActive p in
  if 0 <? length activeConns then
    let! c := randConn activeConns in ret (inr c)
  else
    let! r := Connect p ctx in
    match r with
    | inl err => ret (inl err)
    | inr c => ret (inr c)
    end.

Definition BeginCall (p : PeerRef) (ctx : Ctx) (serviceName operationName : string)
    (callOptions : option CallOptions) : M (error + OutboundCall) :=
  let! r := GetConnection p ctx in
  match r with
  | inl err => ret (inl err)
  | inr conn =>
      let callOptions :=
        match callOptions with
        | None => defaultCallOptions
        | Some o => o
        end in
      logEv (EvConnBeginCall conn serviceName operationName) ;;;
      let! r := callEnv (beginCall conn ctx serviceName callOptions operationName) in
      match r with
      | inl err => ret (inl err)
      | inr call => ret (inr call)
      end
  end.

Definition Close (p : PeerRef) : M unit :=
  logEv (EvPeerClose p) ;;;
  RLock p ;;;
  runWithConnections p
    (fun c (_ : unit) => logEv (EvConnClose c) ;;; runEnv (conn_Close c))
    tt ;;;
  RUnlock p.
End Peer.
End Peer.

(** ** PeerList *)

Module PeerList.
Section PeerList.
Context `{Collaborators}.

Definition RLock (l : ListRef) : M unit :=
  let! pl := readList l in
  let! m := liftOpt (RLock (PeerList_mut pl)) in
  writeList l (PeerList_set_mut pl m).

Definition RUnlock (l : ListRef) : M unit :=
  let! pl := readList l in
  let! m := liftOpt (RUnlock (PeerList_mut pl)) in
  writeList l (PeerList_set_mut pl m).

Definition Lock (l : ListRef) : M unit :=
  let! pl := readList l in
  let! m := liftOpt (Lock (PeerList_mut pl)) in
  writeList l (PeerList_set_mut pl m).

Definition Unlock (l : ListRef) : M unit :=
  let! pl := readList l in
  let! m := liftOpt (Unlock (PeerList_mut pl)) in
  writeList l (PeerList_set_mut pl m).

(** A fresh list object at the end of the store. *)
Definition allocList (pl : PeerList) : M ListRef :=
  fun σ => Some (length (lists σ),
                 mkWorld (lists σ ++ [pl]) (peerHeap σ) (env σ) (trace σ)).

Definition newPeerList (channel : ChanRef) : M ListRef :=
  let! sel := callEnv newPeerSelector in
  allocList (mkPeerList channel None idle ∅ [] sel).

Definition isRoot (pl : PeerList) : bool :=
  match parent pl with
  | None => true
  | Some _ => false
  end.

Definition newSibling (l : ListRef) : M ListRef :=
  let! pl := readList l in
  let! sib := newPeerList (PeerList_channel pl) in
  let! pl := readList l in
  let! s := readList sib in
  writeList sib (mkPeerList (PeerList_channel s) (parent pl) (PeerList_mut s)
                            (peersByHostPort s) (peers s) (peerSelector s)) ;;;
  ret sib.

Definition newChild (l : ListRef) : M ListRef :=
  let! pl := readList l in
  let! child := newPeerList (PeerList_channel pl) in
  let! c := readList child in
  writeList child (mkPeerList (PeerList_channel c) (Some l) (PeerList_mut c)
                              (peersByHostPort c) (peers c) (peerSelector c)) ;;;
  ret child.

(** [Add] follows the parent pointers; [fuel] bounds the number of lists
    it may visit. *)
Fixpoint AddN (fuel : nat) (l : ListRef) (hp : string) : M PeerRef :=
  match fuel with
  | 0 => stuck
  | S fuel =>
      logEv (EvListAdd l hp) ;;;
      RLock l ;;;
      let! pl := readList l in
      match peersByHostPort pl !! hp with
      | Some p => RUnlock l ;;; ret p
      | None =>
          RUnlock l ;;;
          Lock l ;;;
          let! pl := readList l in
          match peersByHostPort pl !! hp with
          | Some p => Unlock l ;;; ret p
          | None =>
              let! p :=
                (if isRoot pl then Peer.newPeer (PeerList_channel pl) hp
                 else
                   let! q := liftOpt (parent pl) in
                   AddN fuel q hp) in
              let! pl := readList l in
              writeList l (mkPeerList (PeerList_channel pl) (parent pl)
                                      (PeerList_mut pl)
                                      (<[hp := p]> (peersByHostPort pl))
                                      (peers pl ++ [p])
                                      (peerSelector pl)) ;;;
              Unlock l ;;;
              ret p
          end
      end
  end.

(** A chain of parents never visits more lists than the store holds. *)
Definition Add (l : ListRef) (hp : string) : M PeerRef :=
  fun σ => AddN (length (lists σ)) l hp σ.

Definition Get (l : ListRef) : M (error + PeerRef) :=
  RLock l ;;;
  let! pl := readList l in
  if length (peers pl) =? 0 then
    RUnlock l ;;;
    ret (inl ErrNoPeers)
  else
    logEv (EvChoosePeer (peerSelector pl) (peers pl)) ;;;
    let! peer := callEnv (choosePeer (peerSelector pl) (peers pl)) in
    RUnlock l ;;;
    ret (inr peer).

Definition GetOrAdd (l : ListRef) (hp : string) : M PeerRef :=
  RLock l ;;;
  let! pl := readList l in
  match peersByHostPort pl !! hp with
  | Some p => RUnlock l ;;; ret p
  | None => RUnlock l ;;; Add l hp
  end.

Definition Copy (l : ListRef) : M (gmap string PeerRef) :=
  RLock l ;;;
  let! pl := readList l in
  let listCopy := map_fold (fun k v acc => <[k := v]> acc) ∅ (peersByHostPort pl) in
  RUnlock l ;;;
  ret listCopy.

Fixpoint closeEach (ps : list PeerRef) : M unit :=
  match ps with
  | [] => ret tt
  | p :: ps' => Peer.Close p ;;; closeEach ps'
  end.

Definition Close (l : ListRef) : M unit :=
  RLock l ;;;
  let! pl := readList l in
  closeEach (peers pl) ;;;
  RUnlock l.
End PeerList.
End PeerList.

(** ** Programs over the registry

    One call of the exported interface of either struct (the two derivation
    operations of lists included), or a change of the environment that
    happens outside the registry (a connection dies, the clock moves). *)

Section Programs.
Context `{Collaborators}.

Inductive Call : Type :=
  | CallNewPeerList (channel : ChanRef)
  | CallNewSibling (l : ListRef)
  | CallNewChild (l : ListRef)
  | CallAdd (l : ListRef) (hp : string)
  | CallGet (l : ListRef)
  | CallGetOrAdd (l : ListRef) (hp : string)
  | CallCopy (l : ListRef)
  | CallListClose (l : ListRef)
  | CallHostPort (p : PeerRef)
  | CallGetConnection (p : PeerRef) (ctx : Ctx)
  | CallConnect (p : PeerRef) (ctx : Ctx)
  | CallAddInboundConnection (p : PeerRef) (c : ConnRef)
  | CallAddOutboundConnection (p : PeerRef) (c : ConnRef)
  | CallBeginCall (p : PeerRef) (ctx : Ctx) (serviceName operationName : string)
      (callOptions : option CallOptions)
  | CallPeerClose (p : PeerRef)
  | Outside (f : Env -> Env).

Definition after {A} (m : M A) (σ : World) : option World :=
  match m σ with
  | Some (_, σ') => Some σ'
  | None => None
  end.

Definition exec (c : Call) : World -> option World :=
  match c with
  | CallNewPeerList ch => after (PeerList.newPeerList ch)
  | CallNewSibling l => after (PeerList.newSibling l)
  | CallNewChild l => after (PeerList.newChild l)
  | CallAdd l hp => after (PeerList.Add l hp)
  | CallGet l => after (PeerList.Get l)
  | CallGetOrAdd l hp => after (PeerList.GetOrAdd l hp)
  | CallCopy l => after (PeerList.Copy l)
  | CallListClose l => after (PeerList.Close l)
  | CallHostPort p => after (Peer.HostPort p)
  | CallGetConnection p ctx => after (Peer.GetConnection p ctx)
  | CallConnect p ctx => after (Peer.Connect p ctx)
  | CallAddInboundConnection p c => after (Peer.AddInboundConnection p c)
  | CallAddOutboundConnection p c => after (Peer.AddOutboundConnection p c)
  | CallBeginCall p ctx s o opts => after (Peer.BeginCall p ctx s o opts)
  | CallPeerClose p => after (Peer.Close p)
  | Outside f => after (runEnv f)
  end.

Fixpoint run (cs : list Call) (σ : World) : option World :=
  match cs with
  | [] => Some σ
  | c :: cs' =>
      match exec c σ with
      | Some σ' => run cs' σ'
      | None => None
      end
  end.

(** The store before anything is created. *)
Definition boot (e : Env) : World := mkWorld [] [] e [].

Definition reachable (σ : World) : Prop :=
  exists e cs, run cs (boot e) = Some σ.

(** The entries that a run from [σ] to [σ'] has added. *)
Definition newEntries (σ σ' : World) : list Entry :=
  drop (length (trace σ)) (trace σ').

Definition newEvents (σ σ' : World) : list Event :=
  ev <$> newEntries σ σ'.

(** *** The invariant of the two stores *)

Definition list_ok (ls : list PeerList) (ph : list Peer)
    (l : ListRef) (pl : PeerList) : Prop :=
  (forall q, parent pl = Some q ->
     q < l /\ exists ql, ls !! q = Some ql /\
               peersByHostPort pl ⊆ peersByHostPort ql) /\
  (forall hp p, peersByHostPort pl !! hp = Some p ->
     exists pr, ph !! p = Some pr /\ hostPort pr = hp) /\
  NoDup (peers pl) /\
  (forall p, p ∈ peers pl <-> exists hp, peersByHostPort pl !! hp = Some p) /\
  length (peers pl) = size (peersByHostPort pl).

Definition inv (ls : list PeerList) (ph : list Peer) : Prop :=
  forall l pl, ls !! l = Some pl -> list_ok ls ph l pl.

Definition quiescent (σ : World) : Prop :=
  (forall l pl, lists σ !! l = Some pl -> PeerList_mut pl = idle) /\
  (forall p pr, peerHeap σ !! p = Some pr -> Peer_mut pr = idle).

Definition wf (σ : World) : Prop :=
  inv (lists σ) (peerHeap σ) /\ quiescent σ.
End Programs.

(** ** A small instance of the collaborators

    Connections are a table of states; the channel refuses the empty
    address and otherwise dials a connection that is active; the selector
    takes the first candidate; the random source counts. *)

Module Demo.
Record env : Type := mkEnv {
  connections : list connectionState;
  seed : nat;
  selectors : nat
}.

Definition state_of (c : ConnRef) (e : env) : connectionState :=
  default connectionClosed (connections e !! c).

Definition active (c : ConnRef) (e : env) : bool :=
  match state_of c e with
  | connectionActive => true
  | _ => false
  end.

Definition dial (ch : ChanRef) (ctx : unit) (hp : string) (opts : unit) (e : env)
    : (error + ConnRef) * env :=
  if String.eqb hp "" then (inl (ErrExternal "connection refused"), e)
  else (inr (length (connections e)),
        mkEnv (connections e ++ [connectionActive]) (seed e) (selectors e)).

Definition begin (c : ConnRef) (ctx : unit) (service : string) (opts : nat)
    (operation : string) (e : env) : (error + nat) * env :=
  if active c e then (inr c, e) else (inl (ErrExternal "connection closed"), e).

Definition close (c : ConnRef) (e : env) : env :=
  mkEnv (<[c := connectionClosed]> (connections e)) (seed e) (selectors e).

Definition selector (e : env) : SelRef * env :=
  (selectors e, mkEnv (connections e) (seed e) (S (selectors e))).

Definition choose (sel : SelRef) (ps : list PeerRef) (e : env) : PeerRef * env :=
  (default 0 (head ps), e).

Definition intn (n : nat) (e : env) : nat * env :=
  (seed e `mod` n, mkEnv (connections e) (S (seed e)) (selectors e)).

#[export] Instance collaborators : Collaborators := {|
  Ctx := unit;
  ConnectionOptions := unit;
  CallOptions := nat;
  OutboundCall := nat;
  Env := env;
  chan_Connect := dial;
  chan_ConnectionOptions := fun _ _ => tt;
  readState := state_of;
  IsActive := active;
  beginCall := begin;
  conn_Close := close;
  defaultCallOptions := 0;
  newPeerSelector := selector;
  choosePeer := choose;
  Intn := intn
|}.

Definition env0 : env := mkEnv [] 0 0.

(** A root with a child and a sibling of the child, two addresses, one
    outbound connection. *)
Definition script : list Call :=
  [ CallNewPeerList 7; CallNewChild 0; CallNewSibling 1;
    CallAdd 1 "10.0.0.1:4040"; CallAdd 2 "10.0.0.1:4040";
    CallGetOrAdd 1 "10.0.0.2:4040"; CallConnect 0 tt ].

Definition world1 : World :=
  default (boot env0) (run script (boot env0)).

Definition noPeer : Peer := mkPeer 0 "" idle [] [].
Definition noList : PeerList := mkPeerList 0 None idle ∅ [] 0.

(** The objects of [world1] that the examples look at. *)
Definition peer0 : Peer := default noPeer (peerHeap world1 !! 0).
Definition root0 : PeerList := default noList (lists world1 !! 0).
Definition child1 : PeerList := default noList (lists world1 !! 1).
Definition sibling2 : PeerList := default noList (lists world1 !! 2).

(** A second child of the root, and an address added through it. *)
Definition world2 : World :=
  default world1 (after (PeerList.newChild 0) world1).

Definition later : list Call := [ CallAdd 3 "10.0.0.3:4040"; CallGet 3 ].

Definition world3 : World := default world2 (run later world2).
End Demo.

(** ** Vocabulary of the statements *)

Section Vocabulary.
Context `{Collaborators}.

Definition registrable (st : connectionState) : bool :=
  match st with
  | connectionActive | connectionStartClose => true
  | _ => false
  end.

Definition withInbound (pr : Peer) (c : ConnRef) : Peer :=
  mkPeer (Peer_channel pr) (hostPort pr) (Peer_mut pr)
         (inboundConnections pr ++ [c]) (outboundConnections pr).

Definition withOutbound (pr : Peer) (c : ConnRef) : Peer :=
  mkPeer (Peer_channel pr) (hostPort pr) (Peer_mut pr)
         (inboundConnections pr) (outboundConnections pr ++ [c]).

Definition setPeer (σ : World) (p : PeerRef) (pr : Peer) : World :=
  mkWorld (lists σ) (<[p := pr]> (peerHeap σ)) (env σ) (trace σ).

(** The connections of a peer that report active, inbound first. *)
Definition activeConns (e : Env) (pr : Peer) : list ConnRef :=
  List.filter (fun c => IsActive c e)
              (inboundConnections pr ++ outboundConnections pr).

Definition isPeerConnect (e : Event) : bool :=
  match e with
  | EvPeerConnect _ => true
  | _ => false
  end.

Definition connectCalls (evs : list Event) : nat :=
  length (List.filter isPeerConnect evs).

Definition isError {A} (r : error + A) : bool :=
  match r with
  | inl _ => true
  | inr _ => false
  end.

(** What [Peer.Close] on [pr] at [p] asks of its collaborators. *)
Definition closeEvents (p : PeerRef) (pr : Peer) : list Event :=
  EvPeerClose p ::
  (EvConnClose <$> (inboundConnections pr ++ outboundConnections pr)).

(** The entry that a call leaves in the trace of a store with lists [ls]. *)
Definition stamp (ls : list PeerList) (e : Event) : Entry :=
  mkEntry e (lockedLists ls).

Definition logged (σ : World) (e : Event) : World :=
  mkWorld (lists σ) (peerHeap σ) (env σ) (trace σ ++ [stamp (lists σ) e]).

Definition peerCloseEvents (ph : list Peer) (p : PeerRef) : list Event :=
  match ph !! p with
  | Some pr => closeEvents p pr
  | None => []
  end.

(** The list object [pl] with one more reader on its mutex. *)
Definition readLocked (pl : PeerList) : PeerList :=
  PeerList_set_mut pl (mkRWMutex false (S (readers (PeerList_mut pl)))).

Definition writeLocked (pl : PeerList) : PeerList :=
  PeerList_set_mut pl (mkRWMutex true 0).

(** The list object [pl] once it indexes [p] under [hp]. *)
Definition indexed (pl : PeerList) (hp : string) (p : PeerRef) : PeerList :=
  mkPeerList (PeerList_channel pl) (parent pl) (PeerList_mut pl)
             (<[hp := p]> (peersByHostPort pl)) (peers pl ++ [p])
             (peerSelector pl).

(** [pl'] is [pl] with a larger index. *)
Definition sameShape (pl pl' : PeerList) : Prop :=
  PeerList_channel pl' = PeerList_channel pl /\
  parent pl' = parent pl /\
  PeerList_mut pl' = PeerList_mut pl /\
  peerSelector pl' = peerSelector pl /\
  peersByHostPort pl ⊆ peersByHostPort pl'.

(** What [Add] on list [l] may change: the indexes of [l] and of the
    lists before it, the end of the peer store, the end of the trace. *)
Definition grows (l : ListRef) (σ σ' : World) : Prop :=
  env σ' = env σ /\
  (exists ext, peerHeap σ' = peerHeap σ ++ ext /\
               Forall (fun pr => Peer_mut pr = idle) ext) /\
  length (lists σ') = length (lists σ) /\
  (forall l' pl', lists σ !! l' = Some pl' ->
     exists pl'', lists σ' !! l' = Some pl'' /\ sameShape pl' pl'' /\
                  (l < l' -> pl'' = pl')) /\
  trace σ `prefix_of` trace σ'.

(** What any call may change. *)
Definition evolves (σ σ' : World) : Prop :=
  (forall l pl, lists σ !! l = Some pl ->
     exists pl', lists σ' !! l = Some pl' /\ parent pl' = parent pl /\
                 peersByHostPort pl ⊆ peersByHostPort pl') /\
  (forall p pr, peerHeap σ !! p = Some pr ->
     exists pr', peerHeap σ' !! p = Some pr' /\ hostPort pr' = hostPort pr).

(** What a call on peer [p] may change: the object at [p], except its
    address and its (idle) mutex. *)
Definition touches (p : PeerRef) (σ σ' : World) : Prop :=
  lists σ' = lists σ /\
  exists pr pr', peerHeap σ !! p = Some pr /\
                 peerHeap σ' = <[p := pr']> (peerHeap σ) /\
                 hostPort pr' = hostPort pr /\ Peer_mut pr' = idle.

(** List [l] hangs, through its parent pointers, under the root [r]. *)
Inductive rootedAt (ls : list PeerList) : ListRef -> ListRef -> Prop :=
  | rooted_root r pl :
      ls !! r = Some pl -> parent pl = None -> rootedAt ls r r
  | rooted_child l pl q r :
      ls !! l = Some pl -> parent pl = Some q -> rootedAt ls q r ->
      rootedAt ls l r.

(** A list, a sibling made from it, and one address added through both. *)
Definition addThroughSibling (ch : ChanRef) (a : string) : M (PeerRef * PeerRef) :=
  let! R := PeerList.newPeerList ch in
  let! S := PeerList.newSibling R in
  let! p1 := PeerList.Add R a in
  let! p2 := PeerList.Add S a in
  ret (p1, p2).

(** The calls from a list to another list or to a peer. *)
Definition crossCall (e : Event) : bool :=
  match e with
  | EvListAdd _ _ | EvPeerClose _ => true
  | _ => false
  end.

(** No list mutex is held when such a call is made. *)
Definition callsOutsideLocks (tr : list Entry) : Prop :=
  forall en, en ∈ tr -> crossCall (ev en) = true -> held en = [].

Definition closeConns (cs : list ConnRef) (e : Env) : Env :=
  foldl (fun e c => conn_Close c e) e cs.
End Vocabulary.

(** ** Vocabulary of the frame properties *)

Section Frames.
Context `{Collaborators}.

(** List [l'] is [l] or one of the lists that the parent pointers lead to
    from [l]. *)
Inductive onChain (ls : list PeerList) : ListRef -> ListRef -> Prop :=
  | chain_self l : onChain ls l l
  | chain_parent l pl q l' :
      ls !! l = Some pl -> parent pl = Some q -> onChain ls q l' ->
      onChain ls l l'.

(** The calls of [Add] that a call of [Add] on [l] for [hp] makes, itself
    included, in the order in which they are made, each with the list
    mutexes held at that moment: [held] at the call on [l]; a list that
    lacks the address and has a parent calls the parent with its own write
    lock taken as well. *)
Fixpoint delegations (ls : list PeerList) (fuel : nat) (l : ListRef)
    (hp : string) (held : list (ListRef * RWMutex)) : list Entry :=
  match fuel with
  | 0 => []
  | S fuel =>
      mkEntry (EvListAdd l hp) held ::
      match ls !! l with
      | Some pl =>
          match peersByHostPort pl !! hp, parent pl with
          | None, Some q =>
              delegations ls fuel q hp ((l, mkRWMutex true 0) :: held)
          | _, _ => []
          end
      | None => []
      end
  end.

(** The environment after [Close] on the peers [ps], in order: every
    inbound and then every outbound connection of each is closed. *)
Definition closePeers (ph : list Peer) (ps : list PeerRef) (e : Env) : Env :=
  foldl (fun e p =>
           match ph !! p with
           | Some pr =>
               closeConns (inboundConnections pr ++ outboundConnections pr) e
           | None => e
           end) e ps.

(** The peer that a call is made on. *)
Definition peerOf (c : Call) : option PeerRef :=
  match c with
  | CallHostPort p | CallGetConnection p _ | CallConnect p _
  | CallAddInboundConnection p _ | CallAddOutboundConnection p _
  | CallBeginCall p _ _ _ _ | CallPeerClose p => Some p
  | _ => None
  end.

(** Peer object [pr'] is [pr] with connections added at the ends of its
    lists. *)
Definition grownPeer (pr pr' : Peer) : Prop :=
  hostPort pr' = hostPort pr /\
  Peer_channel pr' = Peer_channel pr /\
  inboundConnections pr `prefix_of` inboundConnections pr' /\
  outboundConnections pr `prefix_of` outboundConnections pr'.

(** A call on peer [p] that changes the peer store at all registers one
    connection with [p]. *)
Definition registers (p : PeerRef) (σ σ' : World) : Prop :=
  lists σ' = lists σ /\
  (peerHeap σ' = peerHeap σ \/
   exists pr c, peerHeap σ !! p = Some pr /\
     (peerHeap σ' = <[p := withInbound pr c]> (peerHeap σ) \/
      peerHeap σ' = <[p := withOutbound pr c]> (peerHeap σ))).

(** The peer that [newPeer] makes. *)
Definition freshPeer (channel : ChanRef) (hp : string) : Peer :=
  mkPeer channel hp idle [] [].
End Frames.

(** ** The key-value client (package main)

    The command loop of the example client. What it prints and logs is
    collected in order; the channel, the Hyperbahn client and the Thrift
    client are collaborators, with their objects in [Net]. *)

(** [strings.Split(s, sep)] for a separator of one byte: the pieces of [s]
    between the occurrences of [sep], one more than there are
    occurrences. *)
Fixpoint Split (s : string) (sep : Ascii.ascii) : list string :=
  match s with
  | EmptyString => [EmptyString]
  | String c s' =>
      if Ascii.eqb c sep then EmptyString :: Split s' sep
      else match Split s' sep with
           | [] => [String c EmptyString]
           | w :: ws => String c w :: ws
           end
  end.

(** The byte 32. *)
Definition space : Ascii.ascii :=
  Ascii.Ascii false false false false false true false false.

(** The bytes 10 and 13. *)
Definition newline : Ascii.ascii := Ascii.ascii_of_nat 10.
Definition carriageReturn : Ascii.ascii := Ascii.ascii_of_nat 13.

(** ** bufio.Scanner, as [main] uses it

    A scanner made by [NewScanner], with the split function [ScanLines] and
    the token limit [MaxScanTokenSize]. The reader is the sequence of bytes
    that standard input gives before it ends (or fails, which the scanner
    treats as the end). [Scan] gives the next line without its newline and
    without one trailing carriage return; the last line need not end in a
    newline. When the bytes before the next newline (or, in the last line,
    before the end) fill the buffer, which never grows beyond the limit,
    [Scan] gives up with [ErrTooLong]: it returns false and reads no
    more. *)
Module bufio.
Definition MaxScanTokenSize : nat := 64 * 1024.

Record Scanner : Type := mkScanner {
  reader : string;
  maxTokenSize : nat;
  token : string
}.

Definition NewScanner (r : string) : Scanner :=
  mkScanner r MaxScanTokenSize EmptyString.

Fixpoint dropCR (data : string) : string :=
  match data with
  | EmptyString => EmptyString
  | String c data' =>
      match data' with
      | EmptyString =>
          if Ascii.eqb c carriageReturn then EmptyString
          else String c EmptyString
      | String _ _ => String c (dropCR data')
      end
  end.

(** The bytes before the first newline and, when there is a newline, the
    bytes after it. *)
Fixpoint cutLine (data : string) : string * option string :=
  match data with
  | EmptyString => (EmptyString, None)
  | String c data' =>
      if Ascii.eqb c newline then (EmptyString, Some data')
      else
        let '(line, rest) := cutLine data' in
        (String c line, rest)
  end.

Definition Scan (s : Scanner) : bool * Scanner :=
  let '(line, rest) := cutLine (reader s) in
  let stop := (false, mkScanner (reader s) (maxTokenSize s) EmptyString) in
  if maxTokenSize s <=? String.length line then stop
  else
    match rest with
    | Some rest => (true, mkScanner rest (maxTokenSize s) (dropCR line))
    | None =>
        if String.eqb line EmptyString then stop
        else (true, mkScanner EmptyString (maxTokenSize s) (dropCR line))
    end.

Definition Text (s : Scanner) : string := token s.
End bufio.

Class Service : Type := {
  Net : Type;
  Failure : Type;
  (* tchannel.NewChannel(serviceName, nil) *)
  NewChannel : string -> Net -> (Failure + ChanRef) * Net;
  (* hyperbahn.NewClient(ch, Configuration{InitialNodes: nodes}, nil) *)
  hyperbahn_NewClient : ChanRef -> list string -> Net -> Net;
  (* context.WithTimeout(context.Background(), seconds) *)
  WithTimeout : nat -> Net -> nat * Net;
  NewRootContext : nat -> Net -> nat * Net;
  (* thrift.NewTChanOutbound(ch, {Context, HyperbahnService, ThriftService}) *)
  NewTChanOutbound : ChanRef -> nat -> string -> string -> Net -> nat * Net;
  NewKeyValueClientProtocol : nat -> nat -> Net -> nat * Net;
  client_Get : nat -> string -> Net -> (Failure + string) * Net;
  client_Set : nat -> string -> string -> Net -> option Failure * Net
}.

Module Client.
Section Client.
Context `{Service}.

Inductive Arg : Type :=
  | ArgStr (s : string)
  | ArgErr (f : Failure).

Inductive Out : Type :=
  | Printf (format : string)
  | Print (s : string)
  | LogPrintf (format : string) (args : list Arg)
  | LogFatalf (format : string) (args : list Arg).

Record Console : Type := mkConsole { net : Net; out : list Out }.

Definition emit (o : Out) (con : Console) : Console :=
  mkConsole (net con) (out con ++ [o]).

Definition call {A} (f : Net -> A * Net) (con : Console) : A * Console :=
  let '(a, n) := f (net con) in (a, mkConsole n (out con)).

Definition nl : string := String (Ascii.ascii_of_nat 10) EmptyString.

Definition usage : string :=
  "Usage:" +:+ nl +:+ " get [key]" +:+ nl +:+ " set [key] [value]" +:+ nl.

Definition printHelp (con : Console) : Console :=
  emit (Printf usage) con.

Definition getClient (ch : ChanRef) (con : Console) : nat * Console :=
  let '(ctx, con) := call (WithTimeout 10) con in
  let '(ctx, con) := call (NewRootContext ctx) con in
  let '(protocol, con) := call (NewTChanOutbound ch ctx "keyvalue" "KeyValue") con in
  call (NewKeyValueClientProtocol protocol protocol) con.

Definition get (ch : ChanRef) (key : string) (con : Console) : Console :=
  let '(client, con) := getClient ch con in
  let '(r, con) := call (client_Get client key) con in
  match r with
  | inl err => emit (LogPrintf "Get %v got err: %v" [ArgStr key; ArgErr err]) con
  | inr val => emit (LogPrintf "Get %v: %v" [ArgStr key; ArgStr val]) con
  end.

Definition set (ch : ChanRef) (key value : string) (con : Console) : Console :=
  let '(client, con) := getClient ch con in
  let '(r, con) := call (client_Set client key value) con in
  let con :=
    match r with
    | Some err =>
        emit (LogPrintf "Set %v:%v got err: %v" [ArgStr key; ArgStr value; ArgErr err]) con
    | None => con
    end in
  emit (LogPrintf "Set %v:%v succeeded" [ArgStr key; ArgStr value]) con.

(** The body of the scanner loop, for one line of input. Indexing a slice
    past its end has no result. *)
Definition handleLine (ch : ChanRef) (text : string) (con : Console) : option Console :=
  let parts := Split text space in
  match parts !! 0 with
  | None => None
  | Some cmd =>
      if String.eqb cmd "" then Some con
      else
        let con :=
          if String.eqb cmd "help" then Some (printHelp con)
          else if String.eqb cmd "get" then
            if length parts <? 2 then Some (printHelp con)
            else match parts !! 1 with
                 | Some key => Some (get ch key con)
                 | None => None
                 end
          else if String.eqb cmd "set" then
            if length parts <? 3 then Some (printHelp con)
            else match parts !! 1, parts !! 2 with
                 | Some key, Some value => Some (set ch key value con)
                 | _, _ => None
                 end
          else Some (emit (LogPrintf ("Unsupported command %q" +:+ nl) [ArgStr cmd]) con) in
        match con with
        | Some con => Some (emit (Print "> ") con)
        | None => None
        end
  end.

(** The loop [for scanner.Scan() { ... }]. Every turn that enters the
    body takes at least one byte from the reader; [fuel] bounds the number
    of turns. *)
Fixpoint scan (fuel : nat) (ch : ChanRef) (scanner : bufio.Scanner)
    (con : Console) : option Console :=
  match fuel with
  | 0 => None
  | S fuel =>
      let '(more, scanner) := bufio.Scan scanner in
      if more then
        match handleLine ch (bufio.Text scanner) con with
        | Some con' => scan fuel ch scanner con'
        | None => None
        end
      else Some con
  end.

Inductive Status : Type := Returned | Exited.

(** [main] on the arguments [args] of the process ([os.Args], the program
    name first) and the bytes [stdin] that standard input will give. *)
Definition main (args : list string) (stdin : string) (n : Net)
    : option (Status * Console) :=
  let con := mkConsole n [] in
  let '(r, con) := call (NewChannel "keyvalue-client") con in
  match r with
  | inl err =>
      Some (Exited, emit (LogFatalf "Failed to create tchannel: %v" [ArgErr err]) con)
  | inr ch =>
      match args with
      | [] => None
      | _ :: InitialNodes =>
          if length InitialNodes =? 0 then
            Some (Exited, emit (LogFatalf "No Autobahn nodes to connect to given" []) con)
          else
            let con := mkConsole (hyperbahn_NewClient ch InitialNodes (net con)) (out con) in
            let scanner := bufio.NewScanner stdin in
            let con := printHelp con in
            let con := emit (Printf "> ") con in
            match scan (S (String.length stdin)) ch scanner con with
            | Some con => Some (Returned, con)
            | None => None
            end
      end
  end.

(** The texts that the calls of [Scan] give to the loop, in order. *)
Fixpoint scanned (fuel : nat) (scanner : bufio.Scanner) : list string :=
  match fuel with
  | 0 => []
  | S fuel =>
      let '(more, scanner) := bufio.Scan scanner in
      if more then bufio.Text scanner :: scanned fuel scanner else []
  end.

Definition delivered (stdin : string) : list string :=
  scanned (S (String.length stdin)) (bufio.NewScanner stdin).

(** A line: no newline in it. *)
Fixpoint newlineless (w : string) : bool :=
  match w with
  | EmptyString => true
  | String c w' => negb (Ascii.eqb c newline) && newlineless w'
  end.

(** The prompts among what was written. *)
Definition isPrompt (o : Out) : bool :=
  match o with
  | Printf f => String.eqb f "> "
  | Print s => String.eqb s "> "
  | _ => false
  end.

Definition prompts (os : list Out) : nat := length (List.filter isPrompt os).

(** The lines that the loop does not skip. *)
Definition hasCommand (text : string) : bool :=
  match text with
  | EmptyString => false
  | String c _ => negb (Ascii.eqb c space)
  end.

(** A word: no space in it. *)
Fixpoint spaceless (w : string) : bool :=
  match w with
  | EmptyString => true
  | String c w' => negb (Ascii.eqb c space) && spaceless w'
  end.
End Client.
End Client.

(** A small service: keys are stored nowhere, the key "missing" is not
    found, and the empty key cannot be set. *)
Module DemoService.
#[export] Instance service : Service := {|
  Net := nat;
  Failure := string;
  NewChannel := fun _ n => (inr 1, n);
  hyperbahn_NewClient := fun _ _ n => S n;
  WithTimeout := fun t n => (t, n);
  NewRootContext := fun ctx n => (ctx, n);
  NewTChanOutbound := fun _ ctx _ _ n => (ctx, n);
  NewKeyValueClientProtocol := fun p _ n => (p, n);
  client_Get := fun _ key n =>
    if String.eqb key "missing" then (inl "not found", n) else (inr "value", n);
  client_Set := fun _ key _ n =>
    if String.eqb key "" then (Some "empty key", n) else (None, S n)
|}.

Definition console0 : Client.Console := Client.mkConsole 0 [].

(** Five lines that end in a newline, one of them with a carriage return
    before it, and a last line that does not. *)
Definition stdin0 : string :=
  "help" +:+ String newline
  (String newline
  ("get a" +:+ String carriageReturn (String newline
  (" set" +:+ String newline
  ("set k v" +:+ String newline
  "help"))))).
End DemoService.

(** More stores of the small instance: [world1] after peer 1 got a
    connection, and after some further calls. *)
Module DemoMore.
Import Demo.

Definition peer1 : Peer := default noPeer (peerHeap world1 !! 1).

Definition world4 : World :=
  default world1 (after (Peer.GetConnection 1 tt) world1).

Definition more : list Call :=
  [ CallConnect 1 tt; CallPeerClose 0; CallAdd 0 "10.0.0.4:4040";
    CallAddInboundConnection 0 1 ].

Definition world5 : World := default world1 (run more world1).

(** A chain of three lists: a child of the child of the root. *)
Definition deeper : list Call := [ CallNewChild 1 ].

Definition world6 : World := default world1 (run deeper world1).

Definition grandchild3 : PeerList := default noList (lists world6 !! 3).
End DemoMore.

(** * Properties *)

Ltac munfold :=
  unfold Peer.AddInboundConnection, Peer.AddOutboundConnection,
    Peer.Lock, Peer.Unlock, Peer.RLock, Peer.RUnlock, Peer.newPeer,
    PeerList.Lock, PeerList.Unlock, PeerList.RLock, PeerList.RUnlock,
    PeerList.allocList,
    bind, ret, stuck, logEv, readList, writeList, readPeer, writePeer,
    askEnv, callEnv, runEnv, liftOpt.

Ltac heap_len :=
  rewrite ?length_insert, ?length_app; cbn; eauto using lookup_lt_Some; lia.

Ltac heap_step :=
  first
    [ progress cbn
    | rewrite list_insert_insert_eq
    | rewrite list_lookup_insert_eq by heap_len
    | match goal with
      | H : ?ls !! ?l = Some _ |- context [?ls !! ?l] => rewrite H
      end ].

Ltac heap_simpl := repeat heap_step.

Section PeerFacts.
Context `{Collaborators}.

Lemma registrable_spec st :
  registrable st = false <->
  st <> connectionActive /\ st <> connectionStartClose.
Proof. destruct st; cbn; split; try tauto; try (intros [? ?]; congruence); intros; split; congruence. Qed.

Lemma AddInboundConnection_eq p c σ pr :
  peerHeap σ !! p = Some pr ->
  Peer_mut pr = idle ->
  Peer.AddInboundConnection p c σ =
    if registrable (readState c (env σ))
    then Some (None, setPeer σ p (withInbound pr c))
    else Some (Some ErrInvalidConnectionState, σ).
Proof.
  intros Hp Hm. destruct σ as [ls ph e tr], pr as [ch hp m ib ob].
  cbn in *. subst m. munfold. unfold setPeer, withInbound. cbn.
  destruct (readState c e); heap_simpl; reflexivity.
Qed.

Lemma AddOutboundConnection_eq p c σ pr :
  peerHeap σ !! p = Some pr ->
  Peer_mut pr = idle ->
  Peer.AddOutboundConnection p c σ =
    if registrable (readState c (env σ))
    then Some (None, setPeer σ p (withOutbound pr c))
    else Some (Some ErrInvalidConnectionState, σ).
Proof.
  intros Hp Hm. destruct σ as [ls ph e tr], pr as [ch hp m ib ob].
  cbn in *. subst m. munfold. unfold setPeer, withOutbound. cbn.
  destruct (readState c e); heap_simpl; reflexivity.
Qed.
End PeerFacts.

Section PeerConnections.
Context `{Collaborators}.

Lemma newEvents_app σ σ' (xs : list Entry) :
  trace σ' = trace σ ++ xs -> newEvents σ σ' = ev <$> xs.
Proof.
  intros E. unfold newEvents, newEntries. by rewrite E, drop_app_length.
Qed.

Lemma each_collect (f : ConnRef -> list ConnRef -> M (list ConnRef)) :
  (forall c acc σ,
     f c acc σ = Some (if IsActive c (env σ) then acc ++ [c] else acc, σ)) ->
  forall cs acc σ,
    Peer.each f cs acc σ
    = Some (acc ++ List.filter (fun c => IsActive c (env σ)) cs, σ).
Proof.
  intros Hf cs. induction cs as [|c cs IH]; intros acc σ; cbn.
  - unfold ret. by rewrite app_nil_r.
  - unfold bind. rewrite Hf, IH.
    destruct (IsActive c (env σ)); [by rewrite <- app_assoc | done].
Qed.

Lemma getActive_eq p σ pr :
  peerHeap σ !! p = Some pr ->
  writer (Peer_mut pr) = false ->
  Peer.getActive p σ = Some (activeConns (env σ) pr, σ).
Proof.
  intros Hp Hw. destruct σ as [ls ph e tr], pr as [ch hp [w n] ib ob].
  cbn in *. subst w.
  assert (Hf : forall c acc σ,
    (fun c active =>
       let! a := askEnv (IsActive c) in
       if a then ret (active ++ [c]) else ret active) c acc σ
    = Some (if IsActive c (env σ) then acc ++ [c] else acc, σ)).
  { intros c acc σ. munfold. by destruct (IsActive c (env σ)). }
  unfold Peer.getActive, Peer.runWithConnections, activeConns.
  unfold bind at 1. unfold Peer.RLock at 1. munfold. heap_simpl.
  rewrite (each_collect _ Hf). heap_simpl.
  rewrite (each_collect _ Hf). heap_simpl.
  rewrite List.filter_app. rewrite list_insert_id by done. reflexivity.
Qed.

Lemma Connect_eq p ctx σ pr :
  peerHeap σ !! p = Some pr ->
  Peer_mut pr = idle ->
  let ch := Peer_channel pr in
  let tr1 := trace σ ++ [mkEntry (EvPeerConnect p) (lockedLists (lists σ));
                         mkEntry (EvChannelConnect ch (hostPort pr))
                                 (lockedLists (lists σ))] in
  let res := chan_Connect ch ctx (hostPort pr)
               (chan_ConnectionOptions ch (env σ)) (env σ) in
  Peer.Connect p ctx σ =
    Some match res.1 with
         | inl err => (inl err, mkWorld (lists σ) (peerHeap σ) res.2 tr1)
         | inr c =>
             if registrable (readState c res.2)
             then (inr c, mkWorld (lists σ) (<[p := withOutbound pr c]> (peerHeap σ))
                                  res.2 tr1)
             else (inl ErrInvalidConnectionState,
                   mkWorld (lists σ) (peerHeap σ) res.2 tr1)
         end.
Proof.
  intros Hp Hm. destruct σ as [ls ph e tr], pr as [ch hp m ib ob].
  cbn in *. subst m. unfold Peer.Connect. munfold. heap_simpl.
  destruct (chan_Connect ch ctx hp (chan_ConnectionOptions ch e) e) as [[err|c] e'];
    heap_simpl; rewrite <- ?app_assoc; cbn; [done|].
  unfold withOutbound.
  destruct (readState c e'); heap_simpl; reflexivity.
Qed.

Lemma Connect_trace p ctx σ pr r σ' :
  peerHeap σ !! p = Some pr ->
  Peer_mut pr = idle ->
  Peer.Connect p ctx σ = Some (r, σ') ->
  trace σ' = trace σ ++ [stamp (lists σ) (EvPeerConnect p);
                         stamp (lists σ)
                               (EvChannelConnect (Peer_channel pr) (hostPort pr))].
Proof.
  intros Hp Hm E. rewrite (Connect_eq _ _ _ _ Hp Hm) in E. cbn zeta in E.
  destruct (chan_Connect _ _ _ _ _) as [[err|c] e']; cbn in E.
  - by inversion E.
  - destruct (registrable _); by inversion E.
Qed.

Lemma Connect_total p ctx σ pr :
  peerHeap σ !! p = Some pr ->
  Peer_mut pr = idle ->
  exists r σ', Peer.Connect p ctx σ = Some (r, σ').
Proof.
  intros Hp Hm. rewrite (Connect_eq _ _ _ _ Hp Hm). cbn zeta.
  destruct (_.1) as [err|c]; [eauto|]. destruct (registrable _); eauto.
Qed.

Lemma randConn_eq (conns : list ConnRef) σ c :
  conns !! (Intn (length conns) (env σ)).1 = Some c ->
  Peer.randConn conns σ =
    Some (c, mkWorld (lists σ) (peerHeap σ) (Intn (length conns) (env σ)).2 (trace σ)).
Proof.
  intros Hc. unfold Peer.randConn. munfold.
  destruct (Intn (length conns) (env σ)) as [i e']. cbn in *. by rewrite Hc.
Qed.

(** The two ways [GetConnection] goes. *)
Lemma GetConnection_active p ctx σ pr c :
  peerHeap σ !! p = Some pr ->
  writer (Peer_mut pr) = false ->
  let act := activeConns (env σ) pr in
  act !! (Intn (length act) (env σ)).1 = Some c ->
  Peer.GetConnection p ctx σ =
    Some (inr c, mkWorld (lists σ) (peerHeap σ) (Intn (length act) (env σ)).2
                         (trace σ ++ [mkEntry (EvPeerGetConnection p)
                                              (lockedLists (lists σ))])).
Proof.
  intros Hp Hw act Hc. unfold Peer.GetConnection.
  unfold bind at 1. unfold logEv at 1. unfold bind at 1.
  rewrite (getActive_eq p _ pr) by done. cbn [env].
  fold act. assert (0 < length act) as Hlen.
  { apply lookup_lt_Some in Hc. lia. }
  apply Nat.ltb_lt in Hlen. rewrite Hlen.
  unfold bind at 1. rewrite (randConn_eq _ _ c) by done. reflexivity.
Qed.

Lemma GetConnection_dial p ctx σ pr :
  peerHeap σ !! p = Some pr ->
  writer (Peer_mut pr) = false ->
  activeConns (env σ) pr = [] ->
  Peer.GetConnection p ctx σ = Peer.Connect p ctx (logged σ (EvPeerGetConnection p)).
Proof.
  intros Hp Hw Hact. unfold Peer.GetConnection.
  unfold bind at 1. unfold logEv at 1. unfold bind at 1. fold (logged σ (EvPeerGetConnection p)).
  rewrite (getActive_eq p _ pr) by done. cbn [env logged]. rewrite Hact.
  change (0 <? length (@nil nat)) with false. cbv beta iota.
  unfold bind, ret. destruct (Peer.Connect _ _ _) as [[[?|?] ?]|]; reflexivity.
Qed.


Lemma each_close (f : ConnRef -> unit -> M unit) :
  (forall c u σ,
     f c u σ = Some (tt, mkWorld (lists σ) (peerHeap σ) (conn_Close c (env σ))
                                 (trace σ ++ [stamp (lists σ) (EvConnClose c)]))) ->
  forall cs σ,
    Peer.each f cs tt σ
    = Some (tt, mkWorld (lists σ) (peerHeap σ) (closeConns cs (env σ))
                        (trace σ ++ (stamp (lists σ) <$> (EvConnClose <$> cs)))).
Proof.
  intros Hf cs. induction cs as [|c cs IH]; intros σ; cbn.
  - unfold ret. rewrite app_nil_r. by destruct σ.
  - unfold bind. rewrite Hf, IH. cbn. by rewrite <- app_assoc.
Qed.

Lemma PeerClose_eq p σ pr :
  peerHeap σ !! p = Some pr ->
  writer (Peer_mut pr) = false ->
  Peer.Close p σ =
    Some (tt, mkWorld (lists σ) (peerHeap σ)
                (closeConns (inboundConnections pr ++ outboundConnections pr) (env σ))
                (trace σ ++ (stamp (lists σ) <$> closeEvents p pr))).
Proof.
  intros Hp Hw. destruct σ as [ls ph e tr], pr as [ch hp [w n] ib ob].
  cbn in *. subst w.
  assert (Hf : forall c u σ,
    (fun c (_ : unit) => logEv (EvConnClose c) ;;; runEnv (conn_Close c)) c u σ
    = Some (tt, mkWorld (lists σ) (peerHeap σ) (conn_Close c (env σ))
                        (trace σ ++ [stamp (lists σ) (EvConnClose c)]))).
  { intros c u σ. by munfold. }
  unfold Peer.Close, Peer.runWithConnections.
  unfold bind at 1. unfold logEv at 1. cbn [lists peerHeap env trace].
  unfold bind at 1. unfold Peer.RLock at 1. munfold. heap_simpl.
  rewrite (each_close _ Hf). heap_simpl.
  rewrite (each_close _ Hf). heap_simpl.
  rewrite list_insert_id by done. unfold closeConns, closeEvents, stamp.
  rewrite foldl_app, !fmap_app, <- !app_assoc. reflexivity.
Qed.

End PeerConnections.

Section ListFacts.
Context `{Collaborators}.

Lemma Get_eq l σ pl :
  lists σ !! l = Some pl ->
  writer (PeerList_mut pl) = false ->
  PeerList.Get l σ =
    if length (peers pl) =? 0 then Some (inl ErrNoPeers, σ)
    else
      let res := choosePeer (peerSelector pl) (peers pl) (env σ) in
      Some (inr res.1,
            mkWorld (lists σ) (peerHeap σ) res.2
              (trace σ ++ [stamp (<[l := readLocked pl]> (lists σ))
                                 (EvChoosePeer (peerSelector pl) (peers pl))])).
Proof.
  intros Hl Hw. destruct σ as [ls ph e tr], pl as [ch par [w n] mp ps sel].
  cbn in *. subst w. unfold PeerList.Get. munfold. heap_simpl.
  destruct (length ps =? 0); heap_simpl.
  - by rewrite list_insert_id.
  - destruct (choosePeer sel ps e) as [q e']. heap_simpl.
    by rewrite list_insert_id.
Qed.

Lemma closeEach_spec (ps : list PeerRef) σ :
  (forall p, p ∈ ps ->
     exists pr, peerHeap σ !! p = Some pr /\ writer (Peer_mut pr) = false) ->
  exists σ', PeerList.closeEach ps σ = Some (tt, σ') /\
    lists σ' = lists σ /\ peerHeap σ' = peerHeap σ /\
    trace σ' = trace σ ++
               (stamp (lists σ) <$> flat_map (peerCloseEvents (peerHeap σ)) ps).
Proof.
  revert σ. induction ps as [|p ps IH]; intros σ Hps; cbn.
  - exists σ. unfold ret. by rewrite app_nil_r.
  - destruct (Hps p) as (pr & Hp & Hw); [left|].
    unfold bind. rewrite (PeerClose_eq _ _ _ Hp Hw).
    match goal with |- context [PeerList.closeEach ps ?s] => set (σ1 := s) end.
    destruct (IH σ1) as (σ' & E & L & P & T).
    { intros q Hq. apply Hps. by right. }
    exists σ'. rewrite E. subst σ1. cbn in *.
    repeat split; try done.
    rewrite T. unfold peerCloseEvents at 2. rewrite Hp.
    rewrite <- app_assoc. f_equal.
    by rewrite (fmap_app _ (closeEvents p pr)).
Qed.

Lemma ListClose_spec l σ pl :
  lists σ !! l = Some pl ->
  writer (PeerList_mut pl) = false ->
  (forall p, p ∈ peers pl ->
     exists pr, peerHeap σ !! p = Some pr /\ writer (Peer_mut pr) = false) ->
  exists σ', PeerList.Close l σ = Some (tt, σ') /\
    lists σ' = lists σ /\ peerHeap σ' = peerHeap σ /\
    newEntries σ σ' =
      (stamp (<[l := readLocked pl]> (lists σ)) <$>
         flat_map (peerCloseEvents (peerHeap σ)) (peers pl)).
Proof.
  intros Hl Hw Hps. destruct σ as [ls ph e tr], pl as [ch par [w n] mp ps sel].
  cbn in *. subst w. unfold PeerList.Close.
  unfold bind at 1. unfold PeerList.RLock at 1. munfold. heap_simpl.
  match goal with |- context [PeerList.closeEach ps ?s] => set (σ1 := s) end.
  destruct (closeEach_spec ps σ1) as (σ' & E & L & P & T); [done|].
  rewrite E. destruct σ' as [ls' ph' e' tr']. subst σ1. cbn in *. subst ls' ph'.
  heap_simpl. rewrite list_insert_id by done.
  eexists. split; [reflexivity|]. cbn. repeat split.
  unfold newEntries. cbn. by rewrite T, drop_app_length.
Qed.
End ListFacts.

Section Invariant.
Context `{Collaborators}.

Lemma sameShape_refl pl : sameShape pl pl.
Proof. by repeat split. Qed.

Lemma inv_heap (ls : list PeerList) (ph ph' : list Peer) :
  (forall p pr, ph !! p = Some pr ->
     exists pr', ph' !! p = Some pr' /\ hostPort pr' = hostPort pr) ->
  inv ls ph -> inv ls ph'.
Proof.
  intros Hph Hinv l pl Hl. destruct (Hinv l pl Hl) as (Hpar & Hval & Hrest).
  split; [done|]. split; [|done].
  intros hp p Hp. destruct (Hval hp p Hp) as (pr & Hpr & Hhp).
  destruct (Hph p pr Hpr) as (pr' & Hpr' & Hhp'). exists pr'. split; congruence.
Qed.

Lemma inv_prefix (ls : list PeerList) (ph ph' : list Peer) :
  ph `prefix_of` ph' -> inv ls ph -> inv ls ph'.
Proof.
  intros [k ->]. apply inv_heap. intros p pr Hp. exists pr. split; [|done].
  by apply lookup_app_l_Some.
Qed.

(** Replacing a list object by one with the same parent, index and
    sequence keeps the invariant (locking and unlocking do just that). *)
Lemma inv_replace (ls : list PeerList) (ph : list Peer) l pl pl' :
  inv ls ph -> ls !! l = Some pl ->
  parent pl' = parent pl ->
  peersByHostPort pl' = peersByHostPort pl ->
  peers pl' = peers pl ->
  inv (<[l := pl']> ls) ph.
Proof.
  intros Hinv Hl Epar Emap Eps l' x Hl'.
  assert (l < length ls) as Hlt by eauto using lookup_lt_Some.
  assert (Hget : forall q ql, ls !! q = Some ql ->
            exists ql', <[l := pl']> ls !! q = Some ql' /\
                        peersByHostPort ql' = peersByHostPort ql).
  { intros q ql Hq. destruct (decide (q = l)) as [->|Hne].
    - exists pl'. rewrite list_lookup_insert_eq by done. split; congruence.
    - exists ql. by rewrite list_lookup_insert_ne. }
  assert (exists y, ls !! l' = Some y /\ parent x = parent y /\
                    peersByHostPort x = peersByHostPort y /\ peers x = peers y)
    as (y & Hy & Ey1 & Ey2 & Ey3).
  { destruct (decide (l' = l)) as [->|Hne].
    - rewrite list_lookup_insert_eq in Hl' by done. inversion Hl'; subst x. eauto.
    - rewrite list_lookup_insert_ne in Hl' by done. eauto. }
  destruct (Hinv l' y Hy) as (Hpar & Hval & Hnd & Hmem & Hsz).
  unfold list_ok. rewrite Ey1, Ey2, Ey3. repeat split; try done.
  - by apply Hpar.
  - destruct (Hpar q) as (_ & ql & Hq & Hsub); [done|].
    destruct (Hget q ql Hq) as (ql' & Hq' & E). exists ql'. by rewrite E.
  - by apply Hmem.
  - by apply Hmem.
Qed.

(** Indexing a peer that the parent (if any) already has under the same
    address, and that the list does not hold yet. *)
Lemma inv_index (ls : list PeerList) (ph : list Peer) l pl hp p pr m :
  inv ls ph -> ls !! l = Some pl ->
  peersByHostPort pl !! hp = None ->
  ph !! p = Some pr -> hostPort pr = hp ->
  (forall q, parent pl = Some q ->
     exists ql, ls !! q = Some ql /\ peersByHostPort ql !! hp = Some p) ->
  p ∉ peers pl ->
  inv (<[l := PeerList_set_mut (indexed pl hp p) m]> ls) ph.
Proof.
  intros Hinv Hl Hnone Hp Hhp Hq Hfresh l' x Hl'.
  assert (l < length ls) as Hlt by eauto using lookup_lt_Some.
  destruct (Hinv l pl Hl) as (Hpar & Hval & Hnd & Hmem & Hsz).
  destruct (decide (l' = l)) as [->|Hne].
  - rewrite list_lookup_insert_eq in Hl' by done. inversion Hl'; subst x.
    unfold list_ok; cbn. repeat split.
    + by apply Hpar.
    + destruct (Hpar q) as (Hlt' & ql & Hql & Hsub); [done|].
      destruct (Hq q) as (ql' & Hql' & Hhas); [done|].
      exists ql. rewrite list_lookup_insert_ne by lia. split; [done|].
      assert (ql' = ql) by congruence. subst ql'.
      by apply insert_subseteq_l.
    + intros k v Hk. destruct (decide (hp = k)) as [->|Hk'].
      * rewrite lookup_insert_eq in Hk. inversion Hk; subst v. eauto.
      * rewrite lookup_insert_ne in Hk by done. eauto.
    + apply NoDup_app. split; [done|]. split; [|apply NoDup_singleton].
      intros v Hv Hv'. apply list_elem_of_singleton in Hv'. by subst v.
    + intros Hin. apply elem_of_app in Hin as [Hin|Hin].
      * apply Hmem in Hin as (k & Hk). exists k.
        rewrite lookup_insert_ne; [done|]. intros ->. congruence.
      * apply list_elem_of_singleton in Hin. subst p0. exists hp.
        by rewrite lookup_insert_eq.
    + intros (k & Hk). apply elem_of_app.
      destruct (decide (hp = k)) as [->|Hk'].
      * rewrite lookup_insert_eq in Hk. inversion Hk. right. by left.
      * rewrite lookup_insert_ne in Hk by done. left. apply Hmem. eauto.
    + rewrite length_app, map_size_insert_None by done. cbn. lia.
  - rewrite list_lookup_insert_ne in Hl' by done.
    destruct (Hinv l' x Hl') as (Hpar' & Hrest).
    split; [|done]. intros q Hqx. destruct (Hpar' q Hqx) as (Hlt' & ql & Hql & Hsub).
    split; [done|]. destruct (decide (q = l)) as [->|Hql'].
    + eexists. rewrite list_lookup_insert_eq by done. split; [done|]. cbn.
      assert (ql = pl) by congruence. subst ql.
      etrans; [done|]. by apply insert_subseteq.
    + exists ql. by rewrite list_lookup_insert_ne.
Qed.

Lemma AddN_spec fuel : forall l hp σ pl,
  inv (lists σ) (peerHeap σ) ->
  lists σ !! l = Some pl ->
  l < fuel ->
  (forall l' pl', l' <= l -> lists σ !! l' = Some pl' -> PeerList_mut pl' = idle) ->
  exists p σ',
    PeerList.AddN fuel l hp σ = Some (p, σ') /\
    inv (lists σ') (peerHeap σ') /\
    grows l σ σ' /\
    (exists pl', lists σ' !! l = Some pl' /\ peersByHostPort pl' !! hp = Some p) /\
    (exists rest,
       trace σ' = trace σ ++ stamp (lists σ) (EvListAdd l hp) :: rest /\
       (peersByHostPort pl !! hp = None ->
        forall q, parent pl = Some q ->
          exists rest',
            rest = stamp (<[l := writeLocked pl]> (lists σ)) (EvListAdd q hp) :: rest')) /\
    (forall p0, peersByHostPort pl !! hp = Some p0 ->
       p = p0 /\ lists σ' = lists σ /\ peerHeap σ' = peerHeap σ /\
       trace σ' = trace σ ++ [stamp (lists σ) (EvListAdd l hp)]).
Proof.
  induction fuel as [|fuel IH]; intros l hp σ pl Hinv Hl Hfuel Hidle; [lia|].
  pose proof (Hidle l pl (le_n _) Hl) as Hm.
  pose proof (lookup_lt_Some _ _ _ Hl) as Hlt.
  destruct (Hinv l pl Hl) as (Hpar & Hval & Hnd & Hmem & Hsz).
  destruct σ as [ls ph e tr], pl as [ch par m mp ps sel]. cbn in *. subst m.
  munfold. heap_simpl.
  destruct (mp !! hp) as [p0|] eqn:Hhp; heap_simpl.
  - rewrite list_insert_id by done. eexists _, _. split; [reflexivity|]. cbn.
    split; [done|]. split.
    { unfold grows; cbn. split; [done|].
      split; [exists []; by rewrite app_nil_r|]. split; [done|].
      split; [|by apply prefix_app_r].
      intros l' pl' Hl'. exists pl'. split; [done|]. split; [apply sameShape_refl|done]. }
    split; [eauto|]. split; [exists []; split; [done|]; intros; discriminate|].
    intros ? [= <-]. done.
  - rewrite Hhp. destruct par as [q|]; heap_simpl.
    + destruct (Hpar q eq_refl) as (Hql & ql & Hq & Hsub).
      match goal with
      | |- context [PeerList.AddN fuel q hp ?s] => set (σ1 := s)
      end.
      destruct (IH q hp σ1 ql) as
        (p & σ2 & E & Hinv2 & Hgrow & (ql' & Hq' & Hhas) & (rest & Htr & _) & _).
      { subst σ1. cbn. by eapply inv_replace. }
      { subst σ1. cbn. rewrite list_lookup_insert_ne by lia. done. }
      { lia. }
      { subst σ1. cbn. intros l' pl' Hle Hl'.
        rewrite list_lookup_insert_ne in Hl' by lia. eapply Hidle; [|done]. lia. }
      rewrite E. clear E.
      destruct Hgrow as (Eenv & Hpre & Hlen & Hkeep & Htpre).
      destruct (Hkeep l (writeLocked (mkPeerList ch (Some q) idle mp ps sel)))
        as (plw & Hlw & _ & Hsame).
      { subst σ1. cbn. by rewrite list_lookup_insert_eq. }
      rewrite (Hsame Hql) in Hlw. clear Hsame plw.
      destruct σ2 as [ls2 ph2 e2 tr2]. subst σ1. cbn in *.
      rewrite length_insert in Hlen.
      rewrite Hlw. heap_simpl.
      destruct (Hinv2 q ql' Hq') as (_ & Hval2 & _).
      destruct (Hval2 hp p Hhas) as (pr & Hpr & Hprhp).
      assert (p ∉ ps) as Hfresh.
      { intros Hin. apply Hmem in Hin as (k & Hk).
        destruct (Hval k p Hk) as (pr0 & Hpr0 & Hk0).
        destruct Hpre as (ext & -> & _).
        rewrite (lookup_app_l_Some _ _ _ _ Hpr0) in Hpr.
        assert (k = hp) by congruence. subst k. congruence. }
      eexists _, _. split; [reflexivity|]. cbn. split.
      { apply (inv_index ls2 ph2 l
                   (writeLocked (mkPeerList ch (Some q) idle mp ps sel))
                   hp p pr (mkRWMutex false 0));
          [done|exact Hlw|done|done|done| |done].
        cbn. intros ? [= <-]. eauto. }
      split.
      { unfold grows; cbn.
        split; [done|]. split; [done|]. split; [rewrite length_insert; lia|].
        split; [|etrans; [|exact Htpre]; by apply prefix_app_r].
        intros l' pl' Hl'. destruct (decide (l' = l)) as [->|Hne].
        + rewrite Hl in Hl'. inversion Hl'; subst pl'.
          eexists. rewrite list_lookup_insert_eq by lia. split; [done|].
          split; [|lia]. repeat split; cbn; try done.
          by apply insert_subseteq.
        + destruct (Hkeep l' pl') as (pl'' & Hl'' & Hshape & Hsame).
          { by rewrite list_lookup_insert_ne. }
          exists pl''. rewrite list_lookup_insert_ne by done.
          split; [done|]. split; [done|]. intros Hgt. apply Hsame. lia. }
      split.
      { eexists. rewrite list_lookup_insert_eq by lia. split; [done|].
        cbn. by rewrite lookup_insert_eq. }
      split; [|intros; discriminate].
      eexists. rewrite Htr, <- app_assoc. split; [reflexivity|].
      intros _ ? [= <-]. eexists. reflexivity.
    + assert (length ph ∉ ps) as Hfresh.
      { intros Hin. apply Hmem in Hin as (k & Hk).
        destruct (Hval k _ Hk) as (pr0 & Hpr0 & _).
        apply lookup_lt_Some in Hpr0. lia. }
      eexists _, _. split; [reflexivity|]. cbn. split.
      { apply (inv_index ls _ l (mkPeerList ch None idle mp ps sel)
                 hp (length ph) (mkPeer ch hp idle [] []) (mkRWMutex false 0)).
        - eapply inv_prefix; [|exact Hinv]. by apply prefix_app_r.
        - exact Hl.
        - done.
        - by rewrite list_lookup_middle.
        - done.
        - intros; discriminate.
        - done. }
      split.
      { unfold grows; cbn.
        split; [done|].
        split; [eexists; split; [done|]; by repeat constructor|].
        split; [rewrite length_insert; lia|].
        split; [|by apply prefix_app_r].
        intros l' pl' Hl'. destruct (decide (l' = l)) as [->|Hne].
        + rewrite Hl in Hl'. inversion Hl'; subst pl'.
          eexists. rewrite list_lookup_insert_eq by lia. split; [done|].
          split; [|lia]. repeat split; cbn; try done.
          by apply insert_subseteq.
        + exists pl'. rewrite list_lookup_insert_ne by done.
          split; [done|]. split; [apply sameShape_refl|done]. }
      split.
      { eexists. rewrite list_lookup_insert_eq by lia. split; [done|].
        cbn. by rewrite lookup_insert_eq. }
      split; [|intros; discriminate].
      exists []. split; [done|]. intros; discriminate.
Qed.
End Invariant.

Section Preservation.
Context `{Collaborators}.

Lemma evolves_refl σ : evolves σ σ.
Proof. split; eauto. Qed.

Lemma evolves_trans σ1 σ2 σ3 : evolves σ1 σ2 -> evolves σ2 σ3 -> evolves σ1 σ3.
Proof.
  intros [L1 P1] [L2 P2]. split.
  - intros l pl Hl. destruct (L1 l pl Hl) as (pl' & Hl' & E1 & S1).
    destruct (L2 l pl' Hl') as (pl'' & Hl'' & E2 & S2).
    exists pl''. split; [done|]. split; [congruence|]. by etrans.
  - intros p pr Hp. destruct (P1 p pr Hp) as (pr' & Hp' & E1).
    destruct (P2 p pr' Hp') as (pr'' & Hp'' & E2).
    exists pr''. split; [done|]. congruence.
Qed.

Lemma wf_same σ σ' :
  wf σ -> lists σ' = lists σ -> peerHeap σ' = peerHeap σ ->
  wf σ' /\ evolves σ σ'.
Proof.
  intros [Hinv [Hql Hqp]] El Ep. split; [split; [|split]|split].
  - by rewrite El, Ep.
  - by rewrite El.
  - by rewrite Ep.
  - rewrite El. eauto.
  - rewrite Ep. eauto.
Qed.

Lemma wf_touch σ σ' p pr pr' :
  wf σ -> peerHeap σ !! p = Some pr ->
  lists σ' = lists σ ->
  peerHeap σ' = <[p := pr']> (peerHeap σ) ->
  hostPort pr' = hostPort pr -> Peer_mut pr' = idle ->
  wf σ' /\ evolves σ σ'.
Proof.
  intros [Hinv [Hql Hqp]] Hp El Ep Ehp Em.
  pose proof (lookup_lt_Some _ _ _ Hp) as Hlt.
  assert (Hph : forall q qr, peerHeap σ !! q = Some qr ->
            exists qr', peerHeap σ' !! q = Some qr' /\ hostPort qr' = hostPort qr).
  { intros q qr Hq. rewrite Ep. destruct (decide (q = p)) as [->|Hne].
    - exists pr'. rewrite list_lookup_insert_eq by done. split; congruence.
    - exists qr. by rewrite list_lookup_insert_ne. }
  split; [split; [|split]|split].
  - rewrite El. by eapply inv_heap.
  - by rewrite El.
  - rewrite Ep. intros q qr Hq. destruct (decide (q = p)) as [->|Hne].
    + rewrite list_lookup_insert_eq in Hq by done. congruence.
    + rewrite list_lookup_insert_ne in Hq by done. eauto.
  - rewrite El. eauto.
  - done.
Qed.

Lemma grows_evolves l σ σ' : grows l σ σ' -> evolves σ σ'.
Proof.
  intros (_ & (ext & Eph & _) & _ & Hkeep & _). split.
  - intros l' pl' Hl'. destruct (Hkeep l' pl' Hl') as (pl'' & ? & (_ & ? & _ & _ & ?) & _).
    eauto.
  - intros p pr Hp. exists pr. rewrite Eph. split; [|done].
    by apply lookup_app_l_Some.
Qed.

Lemma grows_quiescent l σ σ' : quiescent σ -> grows l σ σ' -> quiescent σ'.
Proof.
  intros [Hql Hqp] (_ & (ext & Eph & Hext) & Hlen & Hkeep & _). split.
  - intros l' pl' Hl'.
    assert (l' < length (lists σ)) as Hlt.
    { rewrite <- Hlen. eauto using lookup_lt_Some. }
    apply lookup_lt_is_Some in Hlt as [pl0 Hl0].
    destruct (Hkeep l' pl0 Hl0) as (pl'' & Hl'' & (_ & _ & Em & _) & _).
    assert (pl'' = pl') by congruence. subst pl''. rewrite Em. eauto.
  - rewrite Eph. intros p pr Hp.
    apply lookup_app_Some in Hp as [Hp|[_ Hp]]; [eauto|].
    rewrite Forall_forall in Hext. apply Hext.
    apply list_elem_of_lookup. eauto.
Qed.

Lemma Add_spec l hp σ pl :
  wf σ -> lists σ !! l = Some pl ->
  exists p σ',
    PeerList.Add l hp σ = Some (p, σ') /\
    wf σ' /\
    grows l σ σ' /\
    (exists pl', lists σ' !! l = Some pl' /\ peersByHostPort pl' !! hp = Some p) /\
    (exists rest,
       trace σ' = trace σ ++ stamp (lists σ) (EvListAdd l hp) :: rest /\
       (peersByHostPort pl !! hp = None ->
        forall q, parent pl = Some q ->
          exists rest',
            rest = stamp (<[l := writeLocked pl]> (lists σ)) (EvListAdd q hp) :: rest')) /\
    (forall p0, peersByHostPort pl !! hp = Some p0 ->
       p = p0 /\ lists σ' = lists σ /\ peerHeap σ' = peerHeap σ /\
       trace σ' = trace σ ++ [stamp (lists σ) (EvListAdd l hp)]).
Proof.
  intros [Hinv Hq] Hl. unfold PeerList.Add.
  destruct (AddN_spec (length (lists σ)) l hp σ pl) as (p & σ' & E & Hinv' & Hg & Hrest);
    [done|done|eauto using lookup_lt_Some|intros; by eapply Hq|].
  exists p, σ'. split; [done|]. split; [|by split].
  split; [done|]. by eapply grows_quiescent.
Qed.

Lemma AddN_dangling fuel l hp σ :
  lists σ !! l = None -> PeerList.AddN fuel l hp σ = None.
Proof.
  intros Hl. destruct fuel; [done|]. destruct σ. cbn in *. munfold. cbn.
  by rewrite Hl.
Qed.

Lemma copy_fold (m : gmap string PeerRef) :
  map_fold (fun k v acc => <[k := v]> acc) ∅ m = m.
Proof.
  apply (map_fold_weak_ind (fun r m => r = m)); [done|].
  intros i x m' r _ ->. done.
Qed.

Lemma Copy_eq l σ pl :
  lists σ !! l = Some pl ->
  writer (PeerList_mut pl) = false ->
  PeerList.Copy l σ = Some (peersByHostPort pl, σ).
Proof.
  intros Hl Hw. destruct σ as [ls ph e tr], pl as [ch par [w n] mp ps sel].
  cbn in *. subst w. unfold PeerList.Copy. munfold. heap_simpl.
  rewrite list_insert_id by done. by rewrite copy_fold.
Qed.

Lemma GetOrAdd_eq l hp σ pl :
  lists σ !! l = Some pl ->
  writer (PeerList_mut pl) = false ->
  PeerList.GetOrAdd l hp σ =
    match peersByHostPort pl !! hp with
    | Some p => Some (p, σ)
    | None => PeerList.Add l hp σ
    end.
Proof.
  intros Hl Hw. destruct σ as [ls ph e tr], pl as [ch par [w n] mp ps sel].
  cbn in *. subst w. unfold PeerList.GetOrAdd.
  unfold bind at 1. unfold PeerList.RLock at 1. munfold. heap_simpl.
  destruct (mp !! hp); heap_simpl; by rewrite list_insert_id.
Qed.

Lemma newPeerList_eq ch σ :
  PeerList.newPeerList ch σ =
    Some (length (lists σ),
          mkWorld (lists σ ++ [mkPeerList ch None idle ∅ [] (newPeerSelector (env σ)).1])
                  (peerHeap σ) (newPeerSelector (env σ)).2 (trace σ)).
Proof.
  unfold PeerList.newPeerList. munfold. by destruct (newPeerSelector (env σ)).
Qed.

Lemma newSibling_eq l σ pl :
  lists σ !! l = Some pl ->
  PeerList.newSibling l σ =
    Some (length (lists σ),
          mkWorld (lists σ ++ [mkPeerList (PeerList_channel pl) (parent pl) idle ∅ []
                                          (newPeerSelector (env σ)).1])
                  (peerHeap σ) (newPeerSelector (env σ)).2 (trace σ)).
Proof.
  intros Hl. unfold PeerList.newSibling.
  unfold bind at 1. unfold readList at 1. rewrite Hl.
  unfold bind at 1. rewrite newPeerList_eq. munfold. cbn.
  rewrite lookup_app_l by eauto using lookup_lt_Some. rewrite Hl. cbn.
  rewrite list_lookup_middle by done. cbn.
  by rewrite insert_app_r_alt, Nat.sub_diag by done.
Qed.

Lemma newChild_eq l σ pl :
  lists σ !! l = Some pl ->
  PeerList.newChild l σ =
    Some (length (lists σ),
          mkWorld (lists σ ++ [mkPeerList (PeerList_channel pl) (Some l) idle ∅ []
                                          (newPeerSelector (env σ)).1])
                  (peerHeap σ) (newPeerSelector (env σ)).2 (trace σ)).
Proof.
  intros Hl. unfold PeerList.newChild.
  unfold bind at 1. unfold readList at 1. rewrite Hl.
  unfold bind at 1. rewrite newPeerList_eq. munfold. cbn.
  rewrite list_lookup_middle by done. cbn.
  by rewrite insert_app_r_alt, Nat.sub_diag by done.
Qed.

Lemma wf_alloc σ σ' ch par sel :
  wf σ ->
  (forall q, par = Some q -> q < length (lists σ)) ->
  lists σ' = lists σ ++ [mkPeerList ch par idle ∅ [] sel] ->
  peerHeap σ' = peerHeap σ ->
  wf σ' /\ evolves σ σ'.
Proof.
  intros [Hinv [Hql Hqp]] Hpar El Ep. split; [split; [|split]|split].
  - rewrite El, Ep. intros l pl Hl.
    apply lookup_app_Some in Hl as [Hl|[Hge Hl]].
    + destruct (Hinv l pl Hl) as (Hp & Hrest). split; [|done].
      intros q Hq. destruct (Hp q Hq) as (Hlt & ql & Hql' & Hsub).
      split; [done|]. exists ql. split; [|done]. by apply lookup_app_l_Some.
    + apply list_lookup_singleton_Some in Hl as [Hz <-].
      unfold list_ok; cbn. repeat split.
      * apply Hpar in H0. lia.
      * apply Hpar in H0. apply lookup_lt_is_Some in H0 as [ql Hql'].
        exists ql. split; [by apply lookup_app_l_Some|]. apply map_empty_subseteq.
      * intros hp p Hhp. by rewrite lookup_empty in Hhp.
      * constructor.
      * intros Hin. by apply elem_of_nil in Hin.
      * intros (hp & Hhp). by rewrite lookup_empty in Hhp.
  - rewrite El. intros l pl Hl.
    apply lookup_app_Some in Hl as [Hl|[Hge Hl]]; [eauto|].
    by apply list_lookup_singleton_Some in Hl as [Hz <-].
  - by rewrite Ep.
  - rewrite El. intros l pl Hl. exists pl. split; [by apply lookup_app_l_Some|done].
  - rewrite Ep. eauto.
Qed.

Lemma wf_touches p σ σ' : wf σ -> touches p σ σ' -> wf σ' /\ evolves σ σ'.
Proof.
  intros Hwf (El & pr & pr' & Hp & Ep & Ehp & Em). by eapply wf_touch.
Qed.

Lemma touches_id p σ σ' pr :
  peerHeap σ !! p = Some pr -> Peer_mut pr = idle ->
  lists σ' = lists σ -> peerHeap σ' = peerHeap σ -> touches p σ σ'.
Proof.
  intros Hp Hm El Ep. split; [done|]. exists pr, pr.
  by rewrite list_insert_id.
Qed.

Lemma AddInboundConnection_effect p c σ r σ' :
  quiescent σ ->
  Peer.AddInboundConnection p c σ = Some (r, σ') -> σ' = σ \/ touches p σ σ'.
Proof.
  intros [_ Hq] E. destruct (peerHeap σ !! p) as [pr|] eqn:Hp.
  - rewrite (AddInboundConnection_eq _ _ _ pr) in E by eauto.
    destruct (registrable _); inversion E; subst; [right|by left].
    split; [done|]. exists pr, (withInbound pr c). cbn. eauto.
  - revert E. munfold. cbn.
    destruct (readState c (env σ)); cbn; rewrite ?Hp;
      intros E; inversion E; by left.
Qed.

Lemma AddOutboundConnection_effect p c σ r σ' :
  quiescent σ ->
  Peer.AddOutboundConnection p c σ = Some (r, σ') -> σ' = σ \/ touches p σ σ'.
Proof.
  intros [_ Hq] E. destruct (peerHeap σ !! p) as [pr|] eqn:Hp.
  - rewrite (AddOutboundConnection_eq _ _ _ pr) in E by eauto.
    destruct (registrable _); inversion E; subst; [right|by left].
    split; [done|]. exists pr, (withOutbound pr c). cbn. eauto.
  - revert E. munfold. cbn.
    destruct (readState c (env σ)); cbn; rewrite ?Hp;
      intros E; inversion E; by left.
Qed.

Lemma Connect_effect p ctx σ r σ' :
  quiescent σ ->
  Peer.Connect p ctx σ = Some (r, σ') -> touches p σ σ'.
Proof.
  intros [_ Hq] E. destruct (peerHeap σ !! p) as [pr|] eqn:Hp.
  - rewrite (Connect_eq _ _ _ pr) in E by eauto. cbn zeta in E.
    destruct (chan_Connect _ _ _ _ _) as [[err|c] e']; cbn in E.
    + inversion E; subst. eapply touches_id; eauto.
    + destruct (registrable _); inversion E; subst.
      * split; [done|]. exists pr, (withOutbound pr c). cbn. eauto.
      * eapply touches_id; eauto.
  - revert E. unfold Peer.Connect. munfold. cbn. by rewrite Hp.
Qed.

Lemma GetConnection_effect p ctx σ r σ' :
  quiescent σ ->
  Peer.GetConnection p ctx σ = Some (r, σ') -> touches p σ σ'.
Proof.
  intros Hq E. pose proof Hq as [_ Hqp].
  destruct (peerHeap σ !! p) as [pr|] eqn:Hp.
  - assert (writer (Peer_mut pr) = false) as Hw by (by rewrite (Hqp p pr)).
    destruct (activeConns (env σ) pr) as [|c0 act] eqn:Hact.
    + rewrite (GetConnection_dial _ _ _ pr) in E by done.
      apply Connect_effect in E; [|done].
      destruct E as (El & x & x' & Hx & Ex & Ehp & Em). cbn in *.
      split; [done|]. eauto 10.
    + revert E. unfold Peer.GetConnection.
      unfold bind at 1. unfold logEv at 1. unfold bind at 1.
      rewrite (getActive_eq p _ pr) by done. cbn [env]. rewrite Hact.
      change (0 <? length (c0 :: act)) with true. cbv iota.
      unfold Peer.randConn. munfold. cbn.
      destruct (Intn _ _) as [i e']. cbn.
      destruct ((c0 :: act) !! i); [|done].
      intros E; inversion E; subst. eapply touches_id; eauto.
  - revert E. unfold Peer.GetConnection, Peer.getActive. munfold. cbn.
    by rewrite Hp.
Qed.

Lemma BeginCall_effect p ctx s o opts σ r σ' :
  quiescent σ ->
  Peer.BeginCall p ctx s o opts σ = Some (r, σ') -> touches p σ σ'.
Proof.
  intros Hq E. revert E. unfold Peer.BeginCall. unfold bind at 1.
  destruct (Peer.GetConnection p ctx σ) as [[r1 σ1]|] eqn:E1; [|done].
  apply GetConnection_effect in E1; [|done].
  destruct E1 as (El & x & x' & Hx & Ex & Ehp & Em).
  destruct r1 as [err|conn].
  - unfold ret. intros E; inversion E; subst. split; [done|]. eauto 10.
  - munfold. cbn. destruct (beginCall _ _ _ _ _ _) as [[err|call] e']; cbn;
      intros E; inversion E; subst; (split; [done|]); cbn; eauto 10.
Qed.

Lemma indexed_peers_valid σ l pl :
  wf σ -> lists σ !! l = Some pl ->
  forall p, p ∈ peers pl ->
    exists pr, peerHeap σ !! p = Some pr /\ writer (Peer_mut pr) = false.
Proof.
  intros [Hinv [_ Hqp]] Hl p Hin.
  destruct (Hinv l pl Hl) as (_ & Hval & _ & Hmem & _).
  apply Hmem in Hin as (hp & Hhp). destruct (Hval hp p Hhp) as (pr & Hpr & _).
  exists pr. split; [done|]. by rewrite (Hqp p pr).
Qed.

Lemma exec_wf c σ σ' : wf σ -> exec c σ = Some σ' -> wf σ' /\ evolves σ σ'.
Proof.
  intros Hwf. pose proof Hwf as [Hinv [Hql Hqp]].
  destruct c; cbn; unfold after.
  - rewrite newPeerList_eq. intros [= <-].
    eapply wf_alloc; [done| |reflexivity|reflexivity]. intros; discriminate.
  - destruct (lists σ !! l) as [pl|] eqn:Hl.
    + rewrite (newSibling_eq _ _ pl) by done. intros [= <-].
      eapply wf_alloc; [done| |reflexivity|reflexivity].
      intros q Hq. destruct (Hinv l pl Hl) as (Hpar & _).
      destruct (Hpar q Hq) as (? & _). apply lookup_lt_Some in Hl. lia.
    + unfold PeerList.newSibling. munfold. by rewrite Hl.
  - destruct (lists σ !! l) as [pl|] eqn:Hl.
    + rewrite (newChild_eq _ _ pl) by done. intros [= <-].
      eapply wf_alloc; [done| |reflexivity|reflexivity].
      intros q [= <-]. by apply lookup_lt_Some in Hl.
    + unfold PeerList.newChild. munfold. by rewrite Hl.
  - destruct (lists σ !! l) as [pl|] eqn:Hl.
    + destruct (Add_spec l hp σ pl) as (p & σ1 & E & Hwf1 & Hg & _); [done..|].
      rewrite E. intros [= <-]. split; [done|]. by eapply grows_evolves.
    + unfold PeerList.Add. by rewrite AddN_dangling.
  - destruct (lists σ !! l) as [pl|] eqn:Hl.
    + rewrite (Get_eq _ _ pl) by (by rewrite ?(Hql l pl)).
      destruct (_ =? 0); cbn; intros [= <-]; by apply wf_same.
    + unfold PeerList.Get. munfold. by rewrite Hl.
  - destruct (lists σ !! l) as [pl|] eqn:Hl.
    + rewrite (GetOrAdd_eq _ _ _ pl) by (by rewrite ?(Hql l pl)).
      destruct (peersByHostPort pl !! hp).
      * intros [= <-]. by apply wf_same.
      * destruct (Add_spec l hp σ pl) as (p & σ1 & E & Hwf1 & Hg & _); [done..|].
        rewrite E. intros [= <-]. split; [done|]. by eapply grows_evolves.
    + unfold PeerList.GetOrAdd. munfold. by rewrite Hl.
  - destruct (lists σ !! l) as [pl|] eqn:Hl.
    + rewrite (Copy_eq _ _ pl) by (by rewrite ?(Hql l pl)).
      intros [= <-]. by apply wf_same.
    + unfold PeerList.Copy. munfold. by rewrite Hl.
  - destruct (lists σ !! l) as [pl|] eqn:Hl.
    + destruct (ListClose_spec l σ pl) as (σ1 & E & El & Ep & _);
        [done|by rewrite (Hql l pl)|by eapply indexed_peers_valid|].
      rewrite E. intros [= <-]. by apply wf_same.
    + unfold PeerList.Close. munfold. by rewrite Hl.
  - unfold Peer.HostPort. munfold. destruct (peerHeap σ !! p); [|done].
    intros [= <-]. by apply wf_same.
  - destruct (Peer.GetConnection p ctx σ) as [[r σ1]|] eqn:E; [|done].
    intros [= <-]. eapply wf_touches; [done|]. by eapply GetConnection_effect.
  - destruct (Peer.Connect p ctx σ) as [[r σ1]|] eqn:E; [|done].
    intros [= <-]. eapply wf_touches; [done|]. by eapply Connect_effect.
  - destruct (Peer.AddInboundConnection p c σ) as [[r σ1]|] eqn:E; [|done].
    intros [= <-]. apply AddInboundConnection_effect in E as [->|E]; [| |done].
    + by apply wf_same.
    + by eapply wf_touches.
  - destruct (Peer.AddOutboundConnection p c σ) as [[r σ1]|] eqn:E; [|done].
    intros [= <-]. apply AddOutboundConnection_effect in E as [->|E]; [| |done].
    + by apply wf_same.
    + by eapply wf_touches.
  - destruct (Peer.BeginCall _ _ _ _ _ σ) as [[r σ1]|] eqn:E; [|done].
    intros [= <-]. eapply wf_touches; [done|]. by eapply BeginCall_effect.
  - destruct (peerHeap σ !! p) as [pr|] eqn:Hp.
    + rewrite (PeerClose_eq _ _ pr) by (by rewrite ?(Hqp p pr)).
      intros [= <-]. by apply wf_same.
    + unfold Peer.Close, Peer.RLock. munfold. cbn. by rewrite Hp.
  - unfold runEnv. intros [= <-]. by apply wf_same.
Qed.

Lemma run_wf cs : forall σ σ',
  wf σ -> run cs σ = Some σ' -> wf σ' /\ evolves σ σ'.
Proof.
  induction cs as [|c cs IH]; intros σ σ' Hwf; cbn.
  - intros [= <-]. split; [done|apply evolves_refl].
  - destruct (exec c σ) as [σ1|] eqn:E; [|done]. intros Hrun.
    destruct (exec_wf _ _ _ Hwf E) as [Hwf1 Hev1].
    destruct (IH _ _ Hwf1 Hrun) as [Hwf' Hev']. split; [done|].
    by eapply evolves_trans.
Qed.

Lemma boot_wf e : wf (boot e).
Proof.
  split; [|split]; cbn; intros ? ? Hl; by rewrite lookup_nil in Hl.
Qed.

Lemma reachable_wf σ : reachable σ -> wf σ.
Proof.
  intros (e & cs & Hrun). by destruct (run_wf cs _ _ (boot_wf e) Hrun).
Qed.

Lemma reachable_run cs σ σ' : reachable σ -> run cs σ = Some σ' -> reachable σ'.
Proof.
  intros (e & cs0 & Hrun) Hrun'. exists e, (cs0 ++ cs).
  revert Hrun. generalize (boot e). induction cs0 as [|c cs0 IH]; intros σ0; cbn.
  - by intros [= ->].
  - destruct (exec c σ0); [apply IH|done].
Qed.
End Preservation.

(** ** The contract of [Peer] *)

Section PeerContract.
Context `{Collaborators}.

Lemma ev_stamp (ls : list PeerList) (evs : list Event) :
  ev <$> (stamp ls <$> evs) = evs.
Proof. induction evs as [|e evs IH]; cbn; [done|]. by rewrite IH. Qed.

Lemma activeConns_spec e pr c :
  c ∈ activeConns e pr <->
  c ∈ inboundConnections pr ++ outboundConnections pr /\ IsActive c e = true.
Proof.
  unfold activeConns. rewrite !list_elem_of_In, List.filter_In. done.
Qed.

(** C4: AddInboundConnection and AddOutboundConnection return the
    invalid-connection-state error exactly when the state of the
    connection, read at registration, is neither active nor start-close.
    On that error nothing changes (so neither connection list does); on
    success the connection is appended to the inbound, respectively the
    outbound, list of the peer and nothing else changes. *)
Theorem add_connection_checks_state p c σ pr :
  peerHeap σ !! p = Some pr ->
  Peer_mut pr = idle ->
  let st := readState c (env σ) in
  let valid := st = connectionActive \/ st = connectionStartClose in
  (exists r σ',
     Peer.AddInboundConnection p c σ = Some (r, σ') /\
     (r = Some ErrInvalidConnectionState <-> ~ valid) /\
     (~ valid -> σ' = σ) /\
     (valid -> r = None /\ σ' = setPeer σ p (withInbound pr c))) /\
  (exists r σ',
     Peer.AddOutboundConnection p c σ = Some (r, σ') /\
     (r = Some ErrInvalidConnectionState <-> ~ valid) /\
     (~ valid -> σ' = σ) /\
     (valid -> r = None /\ σ' = setPeer σ p (withOutbound pr c))).
Proof.
  intros Hp Hm st valid.
  rewrite (AddInboundConnection_eq _ _ _ _ Hp Hm),
          (AddOutboundConnection_eq _ _ _ _ Hp Hm).
  fold st. subst valid.
  destruct st; cbn; split; eexists _, _; (split; [reflexivity|]);
    repeat split; intros; try done; try tauto;
    try (exfalso; intuition congruence); intuition congruence.
Qed.

(** C2: when at least one inbound or outbound connection of the peer
    reports active, GetConnection returns one of them, the one at the
    index that the random source draws in the list of active connections,
    and Connect is not called; when none reports active, GetConnection
    is one call of Connect, whose result (connection or error) it
    returns. *)
Theorem GetConnection_reuses_or_connects p ctx σ pr :
  peerHeap σ !! p = Some pr ->
  Peer_mut pr = idle ->
  (forall n e, 0 < n -> (Intn n e).1 < n) ->
  let conns := inboundConnections pr ++ outboundConnections pr in
  let act := activeConns (env σ) pr in
  exists r σ',
    Peer.GetConnection p ctx σ = Some (r, σ') /\
    ((exists c, c ∈ conns /\ IsActive c (env σ) = true) ->
       exists c, r = inr c /\ c ∈ conns /\ IsActive c (env σ) = true /\
                 act !! (Intn (length act) (env σ)).1 = Some c /\
                 connectCalls (newEvents σ σ') = 0 /\
                 peerHeap σ' = peerHeap σ) /\
    ((forall c, c ∈ conns -> IsActive c (env σ) = false) ->
       Peer.Connect p ctx (logged σ (EvPeerGetConnection p)) = Some (r, σ') /\
       connectCalls (newEvents σ σ') = 1).
Proof.
  intros Hp Hm Hrng conns act.
  assert (writer (Peer_mut pr) = false) as Hw by (by rewrite Hm).
  destruct act as [|c0 rest] eqn:Hact.
  - rewrite (GetConnection_dial _ _ _ pr) by done.
    destruct (Connect_total p ctx (logged σ (EvPeerGetConnection p)) pr)
      as (r & σ' & E); [done..|].
    exists r, σ'. split; [done|]. split.
    + intros (c & Hc & Ha). exfalso.
      assert (c ∈ activeConns (env σ) pr) as Hin by (by apply activeConns_spec).
      fold act in Hin. rewrite Hact in Hin. by apply elem_of_nil in Hin.
    + intros _. split; [done|].
      pose proof (Connect_trace _ _ (logged σ (EvPeerGetConnection p)) pr _ _ Hp Hm E)
        as Htr.
      cbn in Htr. rewrite <- app_assoc in Htr.
      by rewrite (newEvents_app _ _ _ Htr).
  - assert (exists c, act !! (Intn (length act) (env σ)).1 = Some c) as (c & Hc).
    { apply lookup_lt_is_Some. apply Hrng. subst act. rewrite Hact. cbn. lia. }
    rewrite (GetConnection_active _ _ _ pr c) by done.
    eexists _, _. split; [reflexivity|]. split.
    + intros _. exists c.
      assert (c ∈ act) as Hin by (apply list_elem_of_lookup; eauto).
      apply activeConns_spec in Hin as [Hin Ha].
      repeat split; try done.
      * by rewrite <- Hact.
      * by erewrite newEvents_app by (cbn; reflexivity).
    + intros Hnone. exfalso.
      assert (c0 ∈ act) as Hin by (subst act; rewrite Hact; by left).
      apply activeConns_spec in Hin as [Hin Ha]. rewrite (Hnone c0 Hin) in Ha. done.
Qed.

Lemma GetConnection_total p ctx σ pr :
  peerHeap σ !! p = Some pr ->
  Peer_mut pr = idle ->
  (forall n e, 0 < n -> (Intn n e).1 < n) ->
  exists r σ', Peer.GetConnection p ctx σ = Some (r, σ').
Proof.
  intros Hp Hm Hrng.
  assert (writer (Peer_mut pr) = false) as Hw by (by rewrite Hm).
  destruct (activeConns (env σ) pr) as [|c0 rest] eqn:Hact.
  - rewrite (GetConnection_dial _ _ _ pr) by done. by eapply Connect_total.
  - assert (exists c, activeConns (env σ) pr
                        !! (Intn (length (activeConns (env σ) pr)) (env σ)).1 = Some c)
      as (c & Hc).
    { apply lookup_lt_is_Some. apply Hrng. rewrite Hact. cbn. lia. }
    rewrite (GetConnection_active _ _ _ pr c) by done. eauto.
Qed.

(** C8: BeginCall first resolves a connection with GetConnection. When
    that fails, BeginCall returns its error and does nothing more. When it
    gives a connection, BeginCall calls beginCall on that connection with
    the given call options, or the default ones when none are given, and
    returns what beginCall returns. So BeginCall returns an error exactly
    when GetConnection or beginCall does. *)
Theorem BeginCall_resolves_then_forwards p ctx serviceName operationName callOptions σ pr :
  peerHeap σ !! p = Some pr ->
  Peer_mut pr = idle ->
  (forall n e, 0 < n -> (Intn n e).1 < n) ->
  exists r1 σ1 r σ',
    Peer.GetConnection p ctx σ = Some (r1, σ1) /\
    Peer.BeginCall p ctx serviceName operationName callOptions σ = Some (r, σ') /\
    match r1 with
    | inl err => r = inl err /\ σ' = σ1
    | inr conn =>
        let opts := default defaultCallOptions callOptions in
        let res := beginCall conn ctx serviceName opts operationName (env σ1) in
        r = res.1 /\
        σ' = mkWorld (lists σ1) (peerHeap σ1) res.2
                     (trace σ1 ++ [stamp (lists σ1)
                                     (EvConnBeginCall conn serviceName operationName)])
    end /\
    (isError r = true <->
     isError r1 = true \/
     exists conn, r1 = inr conn /\
       isError (beginCall conn ctx serviceName
                  (default defaultCallOptions callOptions) operationName (env σ1)).1
       = true).
Proof.
  intros Hp Hm Hrng.
  destruct (GetConnection_total p ctx σ pr Hp Hm Hrng) as (r1 & σ1 & E1).
  exists r1, σ1. unfold Peer.BeginCall. unfold bind at 1. rewrite E1.
  destruct r1 as [err|conn].
  - eexists _, _. split; [done|]. split; [reflexivity|]. split; [done|].
    cbn. split; [by left|done].
  - munfold. cbn.
    change (match callOptions with Some o => o | None => defaultCallOptions end)
      with (default defaultCallOptions callOptions).
    destruct (beginCall conn ctx serviceName (default defaultCallOptions callOptions)
                operationName (env σ1)) as [[err|call] e'] eqn:Eb; cbn;
      eexists _, _; (split; [done|]); (split; [reflexivity|]); (split; [done|]); split.
    + intros _. right. exists conn. split; [done|]. by rewrite Eb.
    + done.
    + done.
    + intros [?|(c' & [= <-] & Hx)]; [done|]. by rewrite Eb in Hx.
Qed.

(** What [Close] on one peer does. *)
Lemma PeerClose_spec p σ pr :
  peerHeap σ !! p = Some pr ->
  writer (Peer_mut pr) = false ->
  exists σ',
    Peer.Close p σ = Some (tt, σ') /\
    lists σ' = lists σ /\ peerHeap σ' = peerHeap σ /\
    env σ' = closeConns (inboundConnections pr ++ outboundConnections pr) (env σ) /\
    newEvents σ σ' =
      EvPeerClose p :: (EvConnClose <$> inboundConnections pr)
                    ++ (EvConnClose <$> outboundConnections pr).
Proof.
  intros Hp Hw. rewrite (PeerClose_eq _ _ _ Hp Hw). eexists. split; [done|].
  cbn [lists peerHeap env]. repeat split.
  rewrite (newEvents_app σ _ (stamp (lists σ) <$> closeEvents p pr)) by done.
  rewrite ev_stamp. unfold closeEvents. by rewrite fmap_app.
Qed.
End PeerContract.

(** ** One level of [Add] *)

Section AddSteps.
Context `{Collaborators}.

(** The three ways one level of [Add] goes. *)
Lemma AddN_hit fuel l hp σ pl p :
  lists σ !! l = Some pl ->
  writer (PeerList_mut pl) = false ->
  peersByHostPort pl !! hp = Some p ->
  PeerList.AddN (S fuel) l hp σ = Some (p, logged σ (EvListAdd l hp)).
Proof.
  intros Hl Hw Hp. destruct σ as [ls ph e tr], pl as [ch par [w n] mp ps sel].
  cbn in *. subst w. munfold. heap_simpl. rewrite ?Hp. heap_simpl.
  by rewrite list_insert_id.
Qed.

Lemma AddN_root_miss fuel l hp σ pl :
  lists σ !! l = Some pl ->
  PeerList_mut pl = idle ->
  parent pl = None ->
  peersByHostPort pl !! hp = None ->
  PeerList.AddN (S fuel) l hp σ =
    Some (length (peerHeap σ),
          mkWorld (<[l := indexed pl hp (length (peerHeap σ))]> (lists σ))
                  (peerHeap σ ++ [freshPeer (PeerList_channel pl) hp])
                  (env σ)
                  (trace σ ++ [stamp (lists σ) (EvListAdd l hp)])).
Proof.
  intros Hl Hm Hpar Ha.
  destruct σ as [ls ph e tr], pl as [ch par m mp ps sel]. cbn in *. subst m par.
  munfold. heap_simpl. rewrite Ha. heap_simpl. rewrite Ha. heap_simpl.
  reflexivity.
Qed.

Lemma AddN_child_miss fuel l hp σ pl q :
  lists σ !! l = Some pl ->
  PeerList_mut pl = idle ->
  parent pl = Some q ->
  peersByHostPort pl !! hp = None ->
  PeerList.AddN (S fuel) l hp σ =
    match PeerList.AddN fuel q hp
            (mkWorld (<[l := writeLocked pl]> (lists σ)) (peerHeap σ) (env σ)
                     (trace σ ++ [stamp (lists σ) (EvListAdd l hp)])) with
    | Some (p, σ2) =>
        match lists σ2 !! l with
        | Some pl2 =>
            match Unlock (PeerList_mut pl2) with
            | Some m =>
                Some (p, mkWorld (<[l := PeerList_set_mut (indexed pl2 hp p) m]> (lists σ2))
                                 (peerHeap σ2) (env σ2) (trace σ2))
            | None => None
            end
        | None => None
        end
    | None => None
    end.
Proof.
  intros Hl Hm Hpar Ha.
  destruct σ as [ls ph e tr], pl as [ch par m mp ps sel]. cbn in *. subst m par.
  munfold. heap_simpl. rewrite Ha. heap_simpl. rewrite Ha. heap_simpl.
  destruct (PeerList.AddN fuel q hp _) as [[p σ2]|]; [|done].
  destruct (lists σ2 !! l) as [pl2|] eqn:Hl2; [|done]. heap_simpl.
  assert (l < length (lists σ2)) by eauto using lookup_lt_Some.
  rewrite ?list_lookup_insert_eq by done. cbn.
  destruct (Unlock (PeerList_mut pl2)); [|done]. cbn.
  by rewrite ?list_insert_insert_eq.
Qed.
End AddSteps.

(** ** The contract of [PeerList] *)

Section ListContract.
Context `{Collaborators}.

(** C3: Get returns the no-peers error, and no peer, exactly when the
    peer sequence of the list is empty, and then leaves the whole store,
    the environment and the trace as they were; on a non-empty sequence
    it returns, without error, the peer that the selector of the list
    chooses among the sequence in its order, and changes neither store. *)
Theorem Get_no_peers_iff_empty l σ pl :
  lists σ !! l = Some pl ->
  writer (PeerList_mut pl) = false ->
  exists r σ',
    PeerList.Get l σ = Some (r, σ') /\
    (r = inl ErrNoPeers <-> peers pl = []) /\
    (peers pl = [] -> σ' = σ) /\
    (peers pl <> [] ->
       r = inr (choosePeer (peerSelector pl) (peers pl) (env σ)).1 /\
       lists σ' = lists σ /\ peerHeap σ' = peerHeap σ /\
       env σ' = (choosePeer (peerSelector pl) (peers pl) (env σ)).2 /\
       newEvents σ σ' = [EvChoosePeer (peerSelector pl) (peers pl)]).
Proof.
  intros Hl Hw. rewrite (Get_eq _ _ _ Hl Hw).
  destruct (peers pl) as [|p ps] eqn:Hps; cbn.
  - eexists _, _. split; [reflexivity|]. by repeat split.
  - eexists _, _. split; [reflexivity|]. repeat split; try done.
    by erewrite newEvents_app by (cbn; reflexivity).
Qed.

Lemma closeEach_env (ps : list PeerRef) σ :
  (forall p, p ∈ ps ->
     exists pr, peerHeap σ !! p = Some pr /\ writer (Peer_mut pr) = false) ->
  exists σ', PeerList.closeEach ps σ = Some (tt, σ') /\
    lists σ' = lists σ /\ peerHeap σ' = peerHeap σ /\
    env σ' = closePeers (peerHeap σ) ps (env σ).
Proof.
  revert σ. induction ps as [|p ps IH]; intros σ Hps; cbn.
  - exists σ. by unfold ret.
  - destruct (Hps p) as (pr & Hp & Hw); [left|].
    unfold bind. rewrite (PeerClose_eq _ _ _ Hp Hw).
    match goal with |- context [PeerList.closeEach ps ?s] => set (σ1 := s) end.
    destruct (IH σ1) as (σ' & E & L & P & Ee).
    { intros q Hq. apply Hps. by right. }
    exists σ'. rewrite E. subst σ1. cbn in *.
    split; [done|]. split; [done|]. split; [done|].
    rewrite Ee. by rewrite Hp.
Qed.

Lemma ListClose_env l σ pl :
  lists σ !! l = Some pl ->
  writer (PeerList_mut pl) = false ->
  (forall p, p ∈ peers pl ->
     exists pr, peerHeap σ !! p = Some pr /\ writer (Peer_mut pr) = false) ->
  exists σ', PeerList.Close l σ = Some (tt, σ') /\
    env σ' = closePeers (peerHeap σ) (peers pl) (env σ).
Proof.
  intros Hl Hw Hps. destruct σ as [ls ph e tr], pl as [ch par [w n] mp ps sel].
  cbn in *. subst w. unfold PeerList.Close.
  unfold bind at 1. unfold PeerList.RLock at 1. munfold. heap_simpl.
  match goal with |- context [PeerList.closeEach ps ?s] => set (σ1 := s) end.
  destruct (closeEach_env ps σ1) as (σ' & E & L & P & Ee); [done|].
  rewrite E. destruct σ' as [ls' ph' e' tr']. subst σ1. cbn in *. subst ls' ph' e'.
  heap_simpl. eexists. split; [reflexivity|]. reflexivity.
Qed.

(** C7: in a reachable store, Close on a list calls Close on the peers
    of its sequence, in order, which are all the peers that its map
    holds: it closes every inbound and then every outbound connection of
    each of them, and leaves every list object (map and sequence) and every
    peer object (connection lists) as it was; Close on a peer calls Close
    on its inbound connections and then on its outbound connections, and
    removes none. *)
Theorem Close_closes_all_and_keeps_index l σ pl :
  reachable σ ->
  lists σ !! l = Some pl ->
  (exists σ',
     PeerList.Close l σ = Some (tt, σ') /\
     lists σ' = lists σ /\ peerHeap σ' = peerHeap σ /\
     env σ' = closePeers (peerHeap σ) (peers pl) (env σ) /\
     newEvents σ σ' = flat_map (peerCloseEvents (peerHeap σ)) (peers pl) /\
     (forall hp p, peersByHostPort pl !! hp = Some p ->
        EvPeerClose p ∈ newEvents σ σ')) /\
  (forall p pr, peerHeap σ !! p = Some pr ->
     exists σ',
       Peer.Close p σ = Some (tt, σ') /\
       lists σ' = lists σ /\ peerHeap σ' = peerHeap σ /\
       env σ' = closeConns (inboundConnections pr ++ outboundConnections pr) (env σ) /\
       newEvents σ σ' =
         EvPeerClose p :: (EvConnClose <$> inboundConnections pr)
                       ++ (EvConnClose <$> outboundConnections pr)).
Proof.
  intros Hreach Hl. pose proof (reachable_wf _ Hreach) as Hwf.
  pose proof Hwf as [Hinv [Hql Hqp]]. split.
  - destruct (ListClose_spec l σ pl) as (σ' & E & El & Ep & Hev);
      [done|by rewrite (Hql l pl)|by eapply indexed_peers_valid|].
    exists σ'. split; [done|]. split; [done|]. split; [done|].
    split.
    { destruct (ListClose_env l σ pl) as (σ2 & E2 & Ee);
        [done|by rewrite (Hql l pl)|by eapply indexed_peers_valid|].
      rewrite E in E2. injection E2 as <-. exact Ee. }
    assert (newEvents σ σ' = flat_map (peerCloseEvents (peerHeap σ)) (peers pl)) as Hnew.
    { unfold newEvents. by rewrite Hev, ev_stamp. }
    split; [done|]. intros hp p Hhp. rewrite Hnew.
    destruct (Hinv l pl Hl) as (_ & Hval & _ & Hmem & _).
    destruct (Hval hp p Hhp) as (pr & Hpr & _).
    apply list_elem_of_In, in_flat_map. exists p. split.
    + apply list_elem_of_In, Hmem. eauto.
    + unfold peerCloseEvents. rewrite Hpr. by left.
  - intros p pr Hp. apply PeerClose_spec; [done|]. by rewrite (Hqp p pr).
Qed.

(** C10: in every reachable store and for every list in it, the peers
    of the sequence are exactly the values of the map, the sequence has
    no duplicates, every peer of the map is stored under the address it
    was created with, and the sequence is as long as the map is large. *)
Theorem index_matches_sequence l σ pl :
  reachable σ ->
  lists σ !! l = Some pl ->
  (forall p, p ∈ peers pl <-> exists hp, peersByHostPort pl !! hp = Some p) /\
  NoDup (peers pl) /\
  (forall hp p, peersByHostPort pl !! hp = Some p ->
     exists pr, peerHeap σ !! p = Some pr /\ hostPort pr = hp) /\
  length (peers pl) = size (peersByHostPort pl).
Proof.
  intros Hreach Hl. destruct (reachable_wf _ Hreach) as [Hinv _].
  destruct (Hinv l pl Hl) as (_ & Hval & Hnd & Hmem & Hsz). done.
Qed.

Lemma parent_superset σ c cl P :
  wf σ -> lists σ !! c = Some cl -> parent cl = Some P ->
  exists pl, lists σ !! P = Some pl /\
    forall a p, peersByHostPort cl !! a = Some p -> peersByHostPort pl !! a = Some p.
Proof.
  intros [Hinv _] Hc Hpar. destruct (Hinv c cl Hc) as (Hp & _).
  destruct (Hp P Hpar) as (_ & pl & HP & Hsub). exists pl. split; [done|].
  intros a p Ha. by eapply lookup_weaken.
Qed.

(** C6: in a reachable store, Add on an address that the list already
    indexes returns the indexed peer and changes no list object, no peer
    object and nothing of the environment; Add always returns, and a
    second Add of the same address returns the same peer and creates
    nothing; GetOrAdd returns the indexed peer when there is one, leaving
    everything as it was, and otherwise is Add. *)
Theorem Add_idempotent_GetOrAdd_as_Add l a σ pl :
  reachable σ ->
  lists σ !! l = Some pl ->
  (forall p, peersByHostPort pl !! a = Some p ->
     exists σ', PeerList.Add l a σ = Some (p, σ') /\
                lists σ' = lists σ /\ peerHeap σ' = peerHeap σ /\ env σ' = env σ) /\
  (exists p σ1 σ2,
     PeerList.Add l a σ = Some (p, σ1) /\
     PeerList.Add l a σ1 = Some (p, σ2) /\
     lists σ2 = lists σ1 /\ peerHeap σ2 = peerHeap σ1 /\ env σ2 = env σ1) /\
  (forall p, peersByHostPort pl !! a = Some p ->
     PeerList.GetOrAdd l a σ = Some (p, σ)) /\
  (peersByHostPort pl !! a = None ->
     PeerList.GetOrAdd l a σ = PeerList.Add l a σ).
Proof.
  intros Hreach Hl. pose proof (reachable_wf _ Hreach) as Hwf.
  pose proof Hwf as [_ [Hql _]].
  assert (writer (PeerList_mut pl) = false) as Hw by (by rewrite (Hql l pl)).
  destruct (Add_spec l a σ pl Hwf Hl)
    as (p & σ1 & E & Hwf1 & Hg & (pl1 & Hl1 & Ha1) & _ & Hhit).
  split; [|split; [|split]].
  - intros p0 Hp0. destruct (Hhit p0 Hp0) as (-> & El & Ep & _).
    exists σ1. destruct Hg as (Ee & _). done.
  - destruct (Add_spec l a σ1 pl1 Hwf1 Hl1)
      as (p' & σ2 & E' & _ & Hg' & _ & _ & Hhit').
    destruct (Hhit' p Ha1) as (-> & El & Ep & _).
    exists p, σ1, σ2. destruct Hg' as (Ee & _). done.
  - intros p0 Hp0. by rewrite (GetOrAdd_eq _ _ _ pl), Hp0.
  - intros Hnone. by rewrite (GetOrAdd_eq _ _ _ pl), Hnone.
Qed.

(** C5: let C be the list that newChild makes from P in a reachable
    store. After any further sequence of calls, C still has P as its
    parent and every address that C indexes is indexed by P with the same
    peer; and an address added through C is then indexed by P with the
    peer that Add returned, which P.GetOrAdd returns as well. *)
Theorem child_index_within_parent P σ C σ1 cs σ2 :
  reachable σ ->
  PeerList.newChild P σ = Some (C, σ1) ->
  run cs σ1 = Some σ2 ->
  (exists cl pl,
     lists σ2 !! C = Some cl /\ lists σ2 !! P = Some pl /\
     parent cl = Some P /\
     forall a p, peersByHostPort cl !! a = Some p ->
                 peersByHostPort pl !! a = Some p) /\
  (forall a, exists p σ3 pl3,
     PeerList.Add C a σ2 = Some (p, σ3) /\
     lists σ3 !! P = Some pl3 /\
     peersByHostPort pl3 !! a = Some p /\
     PeerList.GetOrAdd P a σ3 = Some (p, σ3)).
Proof.
  intros Hreach Hnew Hrun.
  assert (reachable σ1) as Hreach1.
  { apply (reachable_run [CallNewChild P] σ); [done|]. cbn. unfold after.
    by rewrite Hnew. }
  pose proof (reachable_wf _ Hreach1) as Hwf1.
  destruct (run_wf cs σ1 σ2 Hwf1 Hrun) as [Hwf2 [Hev _]].
  assert (exists cl1, lists σ1 !! C = Some cl1 /\ parent cl1 = Some P) as (cl1 & Hc1 & Hpar1).
  { destruct (lists σ !! P) as [pl0|] eqn:HP.
    - rewrite (newChild_eq _ _ pl0 HP) in Hnew. inversion Hnew; subst. cbn.
      eexists. by rewrite list_lookup_middle.
    - revert Hnew. unfold PeerList.newChild. munfold. by rewrite HP. }
  destruct (Hev C cl1 Hc1) as (cl & Hc & Hpar & _). rewrite Hpar1 in Hpar.
  split.
  - destruct (parent_superset σ2 C cl P Hwf2 Hc Hpar) as (pl & HP & Hsub).
    exists cl, pl. done.
  - intros a.
    destruct (Add_spec C a σ2 cl Hwf2 Hc)
      as (p & σ3 & E & Hwf3 & Hg & (cl3 & Hc3 & Ha3) & _).
    destruct (grows_evolves _ _ _ Hg) as [Hev3 _].
    destruct (Hev3 C cl Hc) as (cl3' & Hc3' & Hpar3 & _).
    assert (cl3' = cl3) by congruence. subst cl3'. rewrite Hpar in Hpar3.
    destruct (parent_superset σ3 C cl3 P Hwf3 Hc3 Hpar3) as (pl3 & HP3 & Hsub3).
    exists p, σ3, pl3. split; [done|]. split; [done|].
    split; [by apply Hsub3|].
    destruct Hwf3 as [_ [Hql3 _]].
    rewrite (GetOrAdd_eq _ _ _ pl3) by (by rewrite ?(Hql3 P pl3)).
    by rewrite (Hsub3 a p Ha3).
Qed.

(** *** Lists under one root *)

Lemma rootedAt_evolves σ σ' l r :
  evolves σ σ' -> rootedAt (lists σ) l r -> rootedAt (lists σ') l r.
Proof.
  intros [Hev _]. induction 1 as [r pl Hr Hpar|l pl q r Hl Hpar _ IH].
  - destruct (Hev r pl Hr) as (pl' & Hr' & Epar & _).
    apply (rooted_root _ r pl'); [done|congruence].
  - destruct (Hev l pl Hl) as (pl' & Hl' & Epar & _).
    apply (rooted_child _ l pl' q r); [done|congruence|done].
Qed.

Lemma rootedAt_superset σ l r :
  wf σ -> rootedAt (lists σ) l r ->
  forall pl a p, lists σ !! l = Some pl -> peersByHostPort pl !! a = Some p ->
    exists rl, lists σ !! r = Some rl /\ peersByHostPort rl !! a = Some p.
Proof.
  intros Hwf. induction 1 as [r pl Hr Hpar|l pl q r Hl Hpar _ IH];
    intros pl0 a p Hl0 Ha.
  - eauto.
  - assert (pl0 = pl) by congruence. subst pl0.
    destruct (parent_superset σ l pl q Hwf Hl Hpar) as (ql & Hq & Hsub).
    eapply IH; [done|]. by apply Hsub.
Qed.

(** X1: in a reachable store, two calls of Add for one address, on two
    lists that hang under the same root through their parent pointers,
    both return, and return the same peer, which is the peer that the map
    of the root holds for the address after the first call and after the
    second. *)
Lemma Add_unique_under_one_root σ l1 l2 r a :
  reachable σ ->
  rootedAt (lists σ) l1 r -> rootedAt (lists σ) l2 r ->
  exists p σ1 σ2,
    PeerList.Add l1 a σ = Some (p, σ1) /\
    PeerList.Add l2 a σ1 = Some (p, σ2) /\
    (exists rl, lists σ1 !! r = Some rl /\ parent rl = None /\
                peersByHostPort rl !! a = Some p) /\
    (exists rl, lists σ2 !! r = Some rl /\ parent rl = None /\
                peersByHostPort rl !! a = Some p).
Proof.
  intros Hreach H1 H2. pose proof (reachable_wf _ Hreach) as Hwf.
  assert (exists pl1, lists σ !! l1 = Some pl1) as (pl1 & Hl1) by (inversion H1; eauto).
  destruct (Add_spec l1 a σ pl1 Hwf Hl1)
    as (p & σ1 & E1 & Hwf1 & Hg1 & (pl1' & Hl1' & Ha1) & _).
  pose proof (grows_evolves _ _ _ Hg1) as Hev1.
  pose proof (rootedAt_evolves _ _ _ _ Hev1 H1) as H1'.
  pose proof (rootedAt_evolves _ _ _ _ Hev1 H2) as H2'.
  destruct (rootedAt_superset σ1 l1 r Hwf1 H1' pl1' a p Hl1' Ha1) as (rl1 & Hr1 & Hra1).
  assert (exists pl2, lists σ1 !! l2 = Some pl2) as (pl2 & Hl2) by (inversion H2'; eauto).
  destruct (Add_spec l2 a σ1 pl2 Hwf1 Hl2)
    as (p' & σ2 & E2 & Hwf2 & Hg2 & (pl2' & Hl2' & Ha2) & _).
  pose proof (grows_evolves _ _ _ Hg2) as Hev2.
  pose proof (rootedAt_evolves _ _ _ _ Hev2 H2') as H2''.
  destruct (rootedAt_superset σ2 l2 r Hwf2 H2'' pl2' a p' Hl2' Ha2) as (rl2 & Hr2 & Hra2).
  destruct Hev2 as [Hev2 _]. destruct (Hev2 r rl1 Hr1) as (rl2' & Hr2' & _ & Hsub).
  assert (rl2' = rl2) by congruence. subst rl2'.
  pose proof (lookup_weaken _ _ _ _ Hra1 Hsub) as Hp.
  rewrite Hp in Hra2. inversion Hra2; subst p'.
  assert (forall ls l r', rootedAt ls l r' ->
            exists rl, ls !! r' = Some rl /\ parent rl = None) as Hroot.
  { clear. intros ls l r' Hr. induction Hr; eauto. }
  destruct (Hroot _ _ _ H1') as (x1 & Hx1 & Hpar1).
  destruct (Hroot _ _ _ H2'') as (x2 & Hx2 & Hpar2).
  assert (x1 = rl1) by congruence. assert (x2 = rl2) by congruence. subst x1 x2.
  exists p, σ1, σ2. split; [done|]. split; [done|]. split.
  - exists rl1. done.
  - exists rl2. done.
Qed.

Lemma Add_root_miss l a σ pl :
  lists σ !! l = Some pl ->
  PeerList_mut pl = idle ->
  parent pl = None ->
  peersByHostPort pl !! a = None ->
  PeerList.Add l a σ =
    Some (length (peerHeap σ),
          mkWorld (<[l := indexed pl a (length (peerHeap σ))]> (lists σ))
                  (peerHeap σ ++ [mkPeer (PeerList_channel pl) a idle [] []])
                  (env σ)
                  (trace σ ++ [stamp (lists σ) (EvListAdd l a)])).
Proof.
  intros Hl Hm Hpar Ha. unfold PeerList.Add.
  pose proof (lookup_lt_Some _ _ _ Hl) as Hlt.
  destruct (length (lists σ)) as [|fuel] eqn:Hlen; [lia|].
  rewrite <- Hlen in Hlt. clear Hlen.
  destruct σ as [ls ph e tr], pl as [ch par m mp ps sel]. cbn in *. subst m par.
  munfold. heap_simpl. rewrite Ha. heap_simpl. rewrite Ha. heap_simpl.
  reflexivity.
Qed.

(** C1, on the code: a list made by newPeerList, a sibling made from it,
    and one address added through both. The sibling copies the nil parent
    of the root, so it is a root itself, and the two calls of Add return
    two different peers (the objects at positions 0 and 1 of the peer
    store), both with this address. *)
Theorem sibling_of_root_makes_second_peer (e : Env) (ch : ChanRef) (a : string) :
  exists σ,
    addThroughSibling ch a (boot e) = Some ((0, 1), σ) /\
    (hostPort <$> peerHeap σ) = [a; a] /\
    (parent <$> lists σ) = [None; None].
Proof.
  unfold addThroughSibling.
  unfold bind at 1. rewrite newPeerList_eq. cbn [boot lists peerHeap env trace length].
  unfold bind at 1. erewrite newSibling_eq by (cbn; reflexivity).
  cbn [lists peerHeap env trace length app].
  unfold bind at 1. erewrite Add_root_miss by (cbn; try reflexivity; apply lookup_empty).
  cbn [lists peerHeap env trace length app].
  unfold bind at 1. erewrite Add_root_miss by (cbn; try reflexivity; apply lookup_empty).
  cbn. eexists. split; [reflexivity|]. done.
Qed.

(** *** The list mutexes held during a call *)

Lemma locked_none (ls : list PeerList) : forall k,
  Forall (fun pl => PeerList_mut pl = idle) ls ->
  filter (fun e : nat * RWMutex => is_idle e.2 = false)
         (imap (fun i pl => (k + i, PeerList_mut pl)) ls) = [].
Proof.
  induction ls as [|x ls IH]; intros k Hall; [done|].
  inversion Hall as [|? ? Hx Hls]; subst. rewrite imap_cons.
  rewrite filter_cons_False by (cbn; by rewrite Hx).
  rewrite (imap_ext _ (fun i pl => (S k + i, PeerList_mut pl)));
    [by apply IH|].
  intros i y _. cbn. f_equal. lia.
Qed.

Lemma locked_one (ls : list PeerList) : forall k l pl m,
  Forall (fun pl => PeerList_mut pl = idle) ls ->
  ls !! l = Some pl ->
  is_idle m = false ->
  filter (fun e : nat * RWMutex => is_idle e.2 = false)
         (imap (fun i pl => (k + i, PeerList_mut pl)) (<[l := PeerList_set_mut pl m]> ls))
  = [(k + l, m)].
Proof.
  induction ls as [|x ls IH]; intros k l pl m Hall Hl Hm; [done|].
  inversion Hall as [|? ? Hx Hls]; subst. destruct l as [|l]; cbn in Hl.
  - inversion Hl; subst x.
    change (<[0:=PeerList_set_mut pl m]> (pl :: ls))
      with (PeerList_set_mut pl m :: ls).
    rewrite imap_cons.
    rewrite filter_cons_True by done.
    rewrite (imap_ext _ (fun i pl => (S k + i, PeerList_mut pl)));
      [|intros i y _; cbn; f_equal; lia].
    rewrite locked_none by done. cbn. by rewrite Nat.add_0_r.
  - change (<[S l:=PeerList_set_mut pl m]> (x :: ls))
      with (x :: <[l:=PeerList_set_mut pl m]> ls).
    rewrite imap_cons.
    rewrite filter_cons_False by (cbn; by rewrite Hx).
    rewrite (imap_ext _ (fun i pl => (S k + i, PeerList_mut pl)));
      [|intros i y _; cbn; f_equal; lia].
    rewrite (IH (S k) l pl m) by done. f_equal. f_equal. lia.
Qed.

Lemma lockedLists_one σ l pl m :
  wf σ -> lists σ !! l = Some pl -> is_idle m = false ->
  lockedLists (<[l := PeerList_set_mut pl m]> (lists σ)) = [(l, m)].
Proof.
  intros [_ [Hql _]] Hl Hm. unfold lockedLists.
  apply (locked_one (lists σ) 0 l pl m); [|done|done].
  apply Forall_lookup. intros i x Hi. by eapply Hql.
Qed.

Lemma lockedLists_none σ : wf σ -> lockedLists (lists σ) = [].
Proof.
  intros [_ [Hql _]]. unfold lockedLists. apply (locked_none (lists σ) 0).
  apply Forall_lookup. intros i x Hi. by eapply Hql.
Qed.

Lemma locked_cons (ls : list PeerList) : forall k l pl m,
  (forall i x, i <= l -> ls !! i = Some x -> PeerList_mut x = idle) ->
  ls !! l = Some pl ->
  is_idle m = false ->
  filter (fun e : nat * RWMutex => is_idle e.2 = false)
         (imap (fun i pl => (k + i, PeerList_mut pl)) (<[l := PeerList_set_mut pl m]> ls))
  = (k + l, m) ::
    filter (fun e : nat * RWMutex => is_idle e.2 = false)
           (imap (fun i pl => (k + i, PeerList_mut pl)) ls).
Proof.
  induction ls as [|x ls IH]; intros k l pl m Hall Hl Hm; [done|].
  destruct l as [|l]; cbn in Hl.
  - inversion Hl; subst x.
    change (<[0:=PeerList_set_mut pl m]> (pl :: ls))
      with (PeerList_set_mut pl m :: ls).
    rewrite !imap_cons.
    rewrite filter_cons_True by done.
    rewrite (filter_cons_False _ (k + 0, PeerList_mut pl))
      by (cbn; by rewrite (Hall 0 pl)).
    cbn. by rewrite Nat.add_0_r.
  - change (<[S l:=PeerList_set_mut pl m]> (x :: ls))
      with (x :: <[l:=PeerList_set_mut pl m]> ls).
    rewrite !imap_cons.
    rewrite !filter_cons_False by (cbn; rewrite (Hall 0 x); [done|lia|done]).
    rewrite !(imap_ext (fun i pl => (k + S i, PeerList_mut pl))
                       (fun i pl => (S k + i, PeerList_mut pl)))
      by (intros i y _; cbn; f_equal; lia).
    rewrite (IH (S k) l pl m); [| |done|done].
    + f_equal. f_equal. lia.
    + intros i y Hi Hy. apply (Hall (S i) y); [lia|done].
Qed.

Lemma lockedLists_cons (ls : list PeerList) l pl m :
  (forall i x, i <= l -> ls !! i = Some x -> PeerList_mut x = idle) ->
  ls !! l = Some pl ->
  is_idle m = false ->
  lockedLists (<[l := PeerList_set_mut pl m]> ls) = (l, m) :: lockedLists ls.
Proof. intros. unfold lockedLists. by apply (locked_cons ls 0 l pl m). Qed.

Lemma delegations_replace (ls : list PeerList) l pl pl' hp :
  ls !! l = Some pl ->
  parent pl' = parent pl ->
  peersByHostPort pl' = peersByHostPort pl ->
  forall fuel k hd,
    delegations (<[l := pl']> ls) fuel k hp hd = delegations ls fuel k hp hd.
Proof.
  intros Hl Hpar Hmap. induction fuel as [|fuel IH]; intros k hd; [done|].
  cbn [delegations]. f_equal.
  assert (l < length ls) by eauto using lookup_lt_Some.
  destruct (decide (k = l)) as [->|Hne].
  - rewrite list_lookup_insert_eq by done. rewrite Hl, Hpar, Hmap.
    destruct (peersByHostPort pl !! hp); [done|].
    destruct (parent pl); [apply IH|done].
  - rewrite list_lookup_insert_ne by done.
    destruct (ls !! k) as [x|]; [|done].
    destruct (peersByHostPort x !! hp); [done|].
    destruct (parent x); [apply IH|done].
Qed.

(** The trace of [Add], level by level. *)
Lemma AddN_trace fuel : forall l hp σ pl p σ',
  inv (lists σ) (peerHeap σ) ->
  lists σ !! l = Some pl ->
  l < fuel ->
  (forall l' pl', l' <= l -> lists σ !! l' = Some pl' -> PeerList_mut pl' = idle) ->
  PeerList.AddN fuel l hp σ = Some (p, σ') ->
  trace σ' = trace σ ++ delegations (lists σ) fuel l hp (lockedLists (lists σ)).
Proof.
  induction fuel as [|fuel IH]; intros l hp σ pl p σ' Hinv Hl Hfuel Hidle E; [lia|].
  pose proof (Hidle l pl (le_n _) Hl) as Hm.
  cbn [delegations]. rewrite Hl.
  destruct (peersByHostPort pl !! hp) as [p0|] eqn:Hhp.
  - rewrite (AddN_hit fuel l hp σ pl p0) in E; [|done|by rewrite Hm|done].
    injection E as <- <-. done.
  - destruct (parent pl) as [q|] eqn:Hpar.
    + rewrite (AddN_child_miss fuel l hp σ pl q) in E by done.
      match type of E with
      | context [PeerList.AddN fuel q hp ?s] => set (σ1 := s) in *
      end.
      destruct (PeerList.AddN fuel q hp σ1) as [[p1 σ2]|] eqn:E1; [|done].
      destruct (lists σ2 !! l) as [pl2|]; [|done].
      destruct (Unlock (PeerList_mut pl2)); [|done].
      injection E as <- <-. cbn [trace].
      destruct (Hinv l pl Hl) as (Hp & _).
      destruct (Hp q Hpar) as (Hql & ql & Hq & _).
      rewrite (IH q hp σ1 ql p1 σ2); [| | | | |exact E1].
      * subst σ1. cbn [lists trace]. rewrite <- app_assoc. cbn [app].
        unfold stamp, writeLocked.
        rewrite (delegations_replace _ l pl) by done.
        rewrite (lockedLists_cons _ l pl) by done. done.
      * subst σ1. cbn. by eapply inv_replace.
      * subst σ1. cbn. by rewrite list_lookup_insert_ne by lia.
      * lia.
      * subst σ1. cbn. intros l' pl' Hle Hl'.
        rewrite list_lookup_insert_ne in Hl' by lia.
        apply (Hidle l' pl'); [lia|done].
    + rewrite (AddN_root_miss fuel l hp σ pl) in E by done.
      injection E as <- <-. done.
Qed.

(** *** The chain of parents *)

Lemma onChain_snoc (ls : list PeerList) a b pl q :
  onChain ls a b -> ls !! b = Some pl -> parent pl = Some q -> onChain ls a q.
Proof.
  intros Hab Hb Hq. induction Hab as [b|a x c b Ha Hc _ IH].
  - eapply chain_parent; [done..|apply chain_self].
  - eapply chain_parent; [done..|by apply IH].
Qed.

Lemma onChain_le (ls : list PeerList) (ph : list Peer) a b :
  inv ls ph -> onChain ls a b -> b <= a.
Proof.
  intros Hinv Hab. induction Hab as [b|a x c b Ha Hc _ IH]; [done|].
  destruct (Hinv a x Ha) as (Hp & _). destruct (Hp c Hc) as (Hlt & _). lia.
Qed.

Lemma onChain_linear (ls : list PeerList) a b c :
  onChain ls a b -> onChain ls a c -> onChain ls b c \/ onChain ls c b.
Proof.
  intros Hab. revert c. induction Hab as [b|a x d b Ha Hd Hab IH]; intros c Hac.
  - by left.
  - inversion Hac as [|? y d' ? Ha' Hd' Hdc]; subst.
    + right. by eapply chain_parent.
    + assert (d' = d) by congruence. subst d'. by apply IH.
Qed.

(** The locks held at every call of a chain of delegations that starts at
    [l0]: the write locks of the lists from [l0] down to the caller. *)
Lemma delegations_held (ls : list PeerList) (ph : list Peer) l0 hp :
  inv ls ph ->
  forall fuel l hd,
    onChain ls l0 l ->
    (forall j m, (j, m) ∈ hd <->
       m = mkRWMutex true 0 /\ j <> l /\ onChain ls l0 j /\ onChain ls j l) ->
    forall en, en ∈ delegations ls fuel l hp hd ->
      exists k, ev en = EvListAdd k hp /\ onChain ls l0 k /\
        forall j m, (j, m) ∈ held en <->
          m = mkRWMutex true 0 /\ j <> k /\ onChain ls l0 j /\ onChain ls j k.
Proof.
  intros Hinv. induction fuel as [|fuel IH]; intros l hd Hl Hhd en Hen.
  { cbn in Hen. by apply elem_of_nil in Hen. }
  cbn [delegations] in Hen. apply elem_of_cons in Hen as [->|Hen].
  { exists l. done. }
  destruct (ls !! l) as [pl|] eqn:Hpl; [|by apply elem_of_nil in Hen].
  destruct (peersByHostPort pl !! hp); [by apply elem_of_nil in Hen|].
  destruct (parent pl) as [q|] eqn:Hq; [|by apply elem_of_nil in Hen].
  destruct (Hinv l pl Hpl) as (Hp & _). destruct (Hp q Hq) as (Hlt & _).
  assert (onChain ls l q) as Hlq.
  { eapply chain_parent; [done..|apply chain_self]. }
  apply (IH q ((l, mkRWMutex true 0) :: hd)); [by eapply onChain_snoc| |done].
  intros j m. rewrite elem_of_cons, Hhd. split.
  - intros [[= -> ->]|(-> & Hne & H0j & Hjl)].
    + split; [done|]. split; [lia|]. done.
    + split; [done|]. pose proof (onChain_le _ _ _ _ Hinv Hjl).
      split; [lia|]. split; [done|]. by eapply onChain_snoc.
  - intros (-> & Hne & H0j & Hjq).
    destruct (decide (j = l)) as [->|Hjl]; [by left|]. right.
    split; [done|]. split; [done|]. split; [done|].
    destruct (onChain_linear _ _ _ _ H0j Hl) as [Hc|Hc]; [done|].
    exfalso. inversion Hc as [|? y d ? Hy Hd Hdj]; subst; [done|].
    assert (d = q) by congruence. subst d.
    pose proof (onChain_le _ _ _ _ Hinv Hdj).
    pose proof (onChain_le _ _ _ _ Hinv Hjq). lia.
Qed.

(** C9, as the code has it: in a reachable store, Add on a list returns,
    and the calls of Add that it makes are those of [delegations]: a list
    with a parent, for an address that it does not index yet, calls Add of
    the parent while it holds its own write lock; at every call of the
    chain the locks held are exactly the write locks of the lists further
    down the chain of callers, a write lock admits neither a reader nor a
    writer, and no other list lock is held. Close on a list makes every
    call of Close on a peer, and on the connections of that peer, while
    the list holds its own read lock, which admits a further reader and no
    writer, and holds no other list lock. *)
Theorem delegation_and_close_under_own_lock l σ pl :
  reachable σ ->
  lists σ !! l = Some pl ->
  (forall a,
     exists p σ',
       PeerList.Add l a σ = Some (p, σ') /\
       newEntries σ σ' = delegations (lists σ) (length (lists σ)) l a [] /\
       (forall q, parent pl = Some q -> peersByHostPort pl !! a = None ->
          exists rest,
            newEntries σ σ' =
              mkEntry (EvListAdd l a) [] ::
              mkEntry (EvListAdd q a) [(l, mkRWMutex true 0)] :: rest) /\
       (forall en, en ∈ newEntries σ σ' ->
          exists k, ev en = EvListAdd k a /\ onChain (lists σ) l k /\
            forall j m, (j, m) ∈ held en <->
              m = mkRWMutex true 0 /\ j <> k /\
              onChain (lists σ) l j /\ onChain (lists σ) j k)) /\
  (exists σ',
     PeerList.Close l σ = Some (tt, σ') /\
     ev <$> newEntries σ σ' = flat_map (peerCloseEvents (peerHeap σ)) (peers pl) /\
     forall en, en ∈ newEntries σ σ' -> held en = [(l, mkRWMutex false 1)]) /\
  (RLock (mkRWMutex true 0) = None /\ Lock (mkRWMutex true 0) = None) /\
  (RLock (mkRWMutex false 1) = Some (mkRWMutex false 2) /\
   Lock (mkRWMutex false 1) = None).
Proof.
  intros Hreach Hl. pose proof (reachable_wf _ Hreach) as Hwf.
  pose proof Hwf as [Hinv [Hql _]]. pose proof (Hql l pl Hl) as Hm.
  split; [|split; [|done]].
  - intros a.
    destruct (Add_spec l a σ pl Hwf Hl)
      as (p & σ' & E & _ & _ & _ & (rest & Htr & Hdel) & _).
    exists p, σ'. split; [done|].
    assert (newEntries σ σ' = delegations (lists σ) (length (lists σ)) l a [])
      as Hnew.
    { unfold newEntries.
      rewrite (AddN_trace (length (lists σ)) l a σ pl p σ');
        [|done|done|eauto using lookup_lt_Some|intros; by eapply Hql|exact E].
      by rewrite drop_app_length, (lockedLists_none σ Hwf). }
    split; [done|]. split.
    + intros q Hpar Ha. destruct (Hdel Ha q Hpar) as (rest' & ->).
      exists rest'. unfold newEntries. rewrite Htr, drop_app_length.
      unfold stamp. rewrite (lockedLists_none σ Hwf).
      unfold writeLocked. by rewrite (lockedLists_one σ l pl _ Hwf Hl).
    + rewrite Hnew.
      apply (delegations_held (lists σ) (peerHeap σ) l a Hinv);
        [apply chain_self|].
      intros j m. split; [by intros ?%elem_of_nil|].
      intros (_ & Hne & H1 & H2).
      pose proof (onChain_le _ _ _ _ Hinv H1).
      pose proof (onChain_le _ _ _ _ Hinv H2). lia.
  - destruct (ListClose_spec l σ pl) as (σ' & E & El & Ep & Hev);
      [done|by rewrite Hm|by eapply indexed_peers_valid|].
    exists σ'. split; [done|]. rewrite Hev. split; [by rewrite ev_stamp|].
    intros en Hen. apply list_elem_of_fmap in Hen as (e0 & -> & _).
    unfold stamp, readLocked. cbn. rewrite Hm. cbn.
    by rewrite (lockedLists_one σ l pl _ Hwf Hl).
Qed.
End ListContract.

(** ** The contracts on the small instance *)

Section OnDemo.
Import Demo.

Lemma demo_reachable : reachable world1.
Proof. exists env0, script. (vm_compute; reflexivity). Defined.

Lemma demo_rng : forall n e, 0 < n -> (Intn n e).1 < n.
Proof. intros n e Hn. cbn. apply Nat.mod_upper_bound. lia. Defined.

Lemma GetConnection_reuses_or_connects_witness :
  (peerHeap world1 !! 0 = Some peer0 /\ Peer_mut peer0 = idle /\
   (forall n e, 0 < n -> (Intn n e).1 < n)) /\
  exists σ', Peer.GetConnection (H:=collaborators) 0 tt world1 = Some (inr 0, σ') /\
             connectCalls (newEvents world1 σ') = 0.
Proof.
  split; [split; [|split]; [(vm_compute; reflexivity)|(vm_compute; reflexivity)|exact demo_rng]|].
  destruct (GetConnection_reuses_or_connects (H:=collaborators) 0 tt world1 peer0)
    as (r & σ' & E & Hact & _); [(vm_compute; reflexivity)|(vm_compute; reflexivity)|exact demo_rng|].
  destruct Hact as (c & -> & Hc & _ & _ & Hn & _).
  { exists 0. split; [|(vm_compute; reflexivity)]. apply list_elem_of_In. vm_compute. tauto. }
  apply list_elem_of_In in Hc. vm_compute in Hc. destruct Hc as [<-|[]].
  exists σ'. split; [exact E|exact Hn].
Defined.

Lemma add_connection_checks_state_witness :
  (peerHeap world1 !! 0 = Some peer0 /\ Peer_mut peer0 = idle) /\
  (exists σ', Peer.AddInboundConnection 0 0 world1 = Some (None, σ')) /\
  (exists σ', Peer.AddOutboundConnection 0 5 world1
              = Some (Some ErrInvalidConnectionState, σ')).
Proof.
  split; [split; (vm_compute; reflexivity)|].
  destruct (add_connection_checks_state 0 0 world1 peer0)
    as ((r & σ' & E & _ & _ & Hok) & _); [(vm_compute; reflexivity)|(vm_compute; reflexivity)|].
  destruct Hok as [-> _]; [left; (vm_compute; reflexivity)|].
  destruct (add_connection_checks_state 0 5 world1 peer0)
    as (_ & (r2 & σ2 & E2 & Hbad & _)); [(vm_compute; reflexivity)|(vm_compute; reflexivity)|].
  split; [exists σ'; exact E|]. exists σ2. rewrite E2. do 2 f_equal.
  apply Hbad. intros [Hx|Hx]; vm_compute in Hx; discriminate.
Defined.

Lemma BeginCall_resolves_then_forwards_witness :
  (peerHeap world1 !! 0 = Some peer0 /\ Peer_mut peer0 = idle /\
   (forall n e, 0 < n -> (Intn n e).1 < n)) /\
  exists σ', Peer.BeginCall (H:=collaborators) 0 tt "keyvalue" "get" None world1 = Some (inr 0, σ').
Proof.
  split; [split; [|split]; [(vm_compute; reflexivity)|(vm_compute; reflexivity)|exact demo_rng]|].
  destruct (BeginCall_resolves_then_forwards (H:=collaborators) 0 tt "keyvalue" "get" None
              world1 peer0)
    as (r1 & σ1 & r & σ' & E1 & E & _ & _);
    [(vm_compute; reflexivity)|(vm_compute; reflexivity)|exact demo_rng|].
  exists σ'. rewrite E. vm_compute in E. inversion E. reflexivity.
Defined.

Lemma Get_no_peers_iff_empty_witness :
  (lists world1 !! 1 = Some child1 /\ writer (PeerList_mut child1) = false) /\
  exists σ', PeerList.Get 1 world1 = Some (inr 0, σ').
Proof.
  split; [split; (vm_compute; reflexivity)|].
  destruct (Get_no_peers_iff_empty 1 world1 child1)
    as (r & σ' & E & _ & _ & Hsome); [(vm_compute; reflexivity)|(vm_compute; reflexivity)|].
  destruct Hsome as (-> & _); [vm_compute; discriminate|]. exists σ'. exact E.
Defined.

Lemma index_matches_sequence_witness :
  (reachable world1 /\ lists world1 !! 1 = Some child1) /\
  NoDup (peers child1) /\ length (peers child1) = size (peersByHostPort child1).
Proof.
  split; [split; [exact demo_reachable|(vm_compute; reflexivity)]|].
  destruct (index_matches_sequence 1 world1 child1)
    as (_ & Hnd & _ & Hsz); [exact demo_reachable|(vm_compute; reflexivity)|].
split; [exact Hnd|exact Hsz].
Defined.

Lemma Add_idempotent_GetOrAdd_as_Add_witness :
  (reachable world1 /\ lists world1 !! 1 = Some child1) /\
  PeerList.GetOrAdd 1 "10.0.0.1:4040" world1 = Some (0, world1) /\
  PeerList.GetOrAdd 1 "10.0.0.9:4040" world1 = PeerList.Add 1 "10.0.0.9:4040" world1.
Proof.
  split; [split; [exact demo_reachable|(vm_compute; reflexivity)]|].
  destruct (Add_idempotent_GetOrAdd_as_Add 1 "10.0.0.1:4040" world1 child1)
    as (_ & _ & Hhit & _); [exact demo_reachable|(vm_compute; reflexivity)|].
  destruct (Add_idempotent_GetOrAdd_as_Add 1 "10.0.0.9:4040" world1 child1)
    as (_ & _ & _ & Hmiss); [exact demo_reachable|(vm_compute; reflexivity)|].
  split; [apply Hhit; (vm_compute; reflexivity)|apply Hmiss; (vm_compute; reflexivity)].
Defined.

Lemma child_index_within_parent_witness :
  (reachable world1 /\ PeerList.newChild 0 world1 = Some (3, world2) /\
   run later world2 = Some world3) /\
  exists cl pl,
    lists world3 !! 3 = Some cl /\ lists world3 !! 0 = Some pl /\
    parent cl = Some 0 /\
    forall a p, peersByHostPort cl !! a = Some p -> peersByHostPort pl !! a = Some p.
Proof.
  split; [split; [exact demo_reachable|split; (vm_compute; reflexivity)]|].
  destruct (child_index_within_parent 0 world1 3 world2 later world3)
    as (Hsub & _); [exact demo_reachable|(vm_compute; reflexivity)|(vm_compute; reflexivity)|]. exact Hsub.
Defined.

Lemma demo_rooted_child : rootedAt (lists world1) 1 0.
Proof.
  apply (rooted_child _ 1 child1 0 0); [vm_compute; reflexivity..|].
  apply (rooted_root _ 0 root0); vm_compute; reflexivity.
Defined.

Lemma demo_rooted_sibling : rootedAt (lists world1) 2 0.
Proof.
  apply (rooted_child _ 2 sibling2 0 0); [vm_compute; reflexivity..|].
  apply (rooted_root _ 0 root0); vm_compute; reflexivity.
Defined.

Lemma Add_unique_under_one_root_witness :
  (reachable world1 /\ rootedAt (lists world1) 1 0 /\ rootedAt (lists world1) 2 0) /\
  exists p σ1 σ2,
    PeerList.Add 1 "10.0.0.7:4040" world1 = Some (p, σ1) /\
    PeerList.Add 2 "10.0.0.7:4040" σ1 = Some (p, σ2) /\
    (exists rl, lists σ1 !! 0 = Some rl /\ parent rl = None /\
                peersByHostPort rl !! "10.0.0.7:4040" = Some p) /\
    (exists rl, lists σ2 !! 0 = Some rl /\ parent rl = None /\
                peersByHostPort rl !! "10.0.0.7:4040" = Some p).
Proof.
  split; [split; [exact demo_reachable|split];
          [exact demo_rooted_child|exact demo_rooted_sibling]|].
  exact (Add_unique_under_one_root world1 1 2 0 "10.0.0.7:4040"
           demo_reachable demo_rooted_child demo_rooted_sibling).
Defined.

(** C9, as the claim states it, fails: the script of the instance adds
    an address through the child of the root, and the trace of the store
    it reaches holds the call of Add on the root made while the mutex of
    the child is held for writing. *)
Lemma calls_outside_locks_fails :
  ~ (forall σ : World, reachable σ -> callsOutsideLocks (trace σ)).
Proof.
  intros Hc.
  assert (held (mkEntry (EvListAdd 0 "10.0.0.1:4040") [(1, mkRWMutex true 0)]) = [])
    as Hx; [|discriminate].
  apply (Hc world1 demo_reachable); [|reflexivity].
  apply list_elem_of_In. vm_compute. tauto.
Qed.
End OnDemo.

(** * Further properties of the registry *)

Section AddFrames.
Context `{Collaborators}.

Lemma onChain_replace (ls : list PeerList) l pl pl' a b :
  ls !! l = Some pl -> parent pl' = parent pl ->
  onChain (<[l := pl']> ls) a b -> onChain ls a b.
Proof.
  intros Hl Epar. induction 1 as [a|a x q b Ha Hq _ IH]; [constructor|].
  destruct (decide (a = l)) as [->|Hne].
  - rewrite list_lookup_insert_eq in Ha by eauto using lookup_lt_Some.
    inversion Ha; subst x. apply (chain_parent _ l pl q b); [done|congruence|done].
  - rewrite list_lookup_insert_ne in Ha by done.
    by apply (chain_parent _ a x q b).
Qed.

Lemma rootedAt_replace (ls : list PeerList) l pl pl' a r :
  ls !! l = Some pl -> parent pl' = parent pl ->
  rootedAt ls a r -> rootedAt (<[l := pl']> ls) a r.
Proof.
  intros Hl Epar. pose proof (lookup_lt_Some _ _ _ Hl) as Hlt.
  induction 1 as [r x Hr Hpar|a x q r Ha Hpar _ IH].
  - destruct (decide (r = l)) as [->|Hne].
    + apply (rooted_root _ l pl'); [by rewrite list_lookup_insert_eq|congruence].
    + apply (rooted_root _ r x); [by rewrite list_lookup_insert_ne|done].
  - destruct (decide (a = l)) as [->|Hne].
    + apply (rooted_child _ l pl' q r);
        [by rewrite list_lookup_insert_eq|congruence|done].
    + apply (rooted_child _ a x q r); [by rewrite list_lookup_insert_ne|done|done].
Qed.

Lemma rootedAt_index (ls : list PeerList) (ph : list Peer) l r :
  inv ls ph -> rootedAt ls l r ->
  forall pl a p, ls !! l = Some pl -> peersByHostPort pl !! a = Some p ->
    exists rl, ls !! r = Some rl /\ peersByHostPort rl !! a = Some p.
Proof.
  intros Hinv. induction 1 as [r pl Hr Hpar|l pl q r Hl Hpar _ IH];
    intros pl0 a p Hl0 Ha; [eauto|].
  assert (pl0 = pl) by congruence. subst pl0.
  destruct (Hinv l pl Hl) as (Hp & _).
  destruct (Hp q Hpar) as (_ & ql & Hq & Hsub).
  eapply IH; [done|]. by eapply lookup_weaken.
Qed.

Lemma AddN_off_chain fuel : forall l hp σ pl,
  inv (lists σ) (peerHeap σ) ->
  lists σ !! l = Some pl ->
  l < fuel ->
  (forall l' pl', l' <= l -> lists σ !! l' = Some pl' -> PeerList_mut pl' = idle) ->
  forall p σ', PeerList.AddN fuel l hp σ = Some (p, σ') ->
  forall l', ~ onChain (lists σ) l l' -> lists σ' !! l' = lists σ !! l'.
Proof.
  induction fuel as [|fuel IH]; intros l hp σ pl Hinv Hl Hfuel Hidle p σ' E l' Hoff;
    [lia|].
  pose proof (Hidle l pl (le_n _) Hl) as Hm.
  assert (l' <> l) as Hne by (intros ->; apply Hoff; constructor).
  destruct (peersByHostPort pl !! hp) as [p0|] eqn:Hhp.
  - rewrite (AddN_hit _ _ _ _ pl p0) in E by (by rewrite ?Hm). by inversion E.
  - destruct (parent pl) as [q|] eqn:Hpar.
    + rewrite (AddN_child_miss _ _ _ _ pl q) in E by done.
      destruct (PeerList.AddN fuel q hp _) as [[p1 σ2]|] eqn:E2; [|done].
      destruct (lists σ2 !! l) as [pl2|]; [|done].
      destruct (Unlock _); [|done]. inversion E; subst p σ'. cbn.
      rewrite list_lookup_insert_ne by done.
      destruct (Hinv l pl Hl) as (Hp & _).
      destruct (Hp q Hpar) as (Hql & ql & Hq & _).
      etrans; [|apply (list_lookup_insert_ne (lists σ) l l' (writeLocked pl)); done].
      refine (IH q hp _ ql _ _ _ _ p1 σ2 E2 l' _); cbn.
      * by eapply inv_replace.
      * by rewrite list_lookup_insert_ne by lia.
      * lia.
      * intros k x Hk Hx. rewrite list_lookup_insert_ne in Hx by lia.
        eapply Hidle; [|done]. lia.
      * intros Hc. apply Hoff. apply (chain_parent _ l pl q l'); [done..|].
        by eapply (onChain_replace _ l pl (writeLocked pl)).
    + rewrite (AddN_root_miss _ _ _ _ pl) in E by done. inversion E; subst. cbn.
      by rewrite list_lookup_insert_ne.
Qed.

Lemma AddN_creates fuel : forall l hp σ pl r rl,
  inv (lists σ) (peerHeap σ) ->
  lists σ !! l = Some pl ->
  l < fuel ->
  (forall l' pl', l' <= l -> lists σ !! l' = Some pl' -> PeerList_mut pl' = idle) ->
  rootedAt (lists σ) l r ->
  lists σ !! r = Some rl ->
  forall p σ', PeerList.AddN fuel l hp σ = Some (p, σ') ->
  match peersByHostPort rl !! hp with
  | Some p0 => p = p0 /\ peerHeap σ' = peerHeap σ
  | None => p = length (peerHeap σ) /\
            peerHeap σ' = peerHeap σ ++ [freshPeer (PeerList_channel rl) hp]
  end.
Proof.
  induction fuel as [|fuel IH];
    intros l hp σ pl r rl Hinv Hl Hfuel Hidle Hroot Hr p σ' E; [lia|].
  pose proof (Hidle l pl (le_n _) Hl) as Hm.
  destruct (peersByHostPort pl !! hp) as [p0|] eqn:Hhp.
  - rewrite (AddN_hit _ _ _ _ pl p0) in E by (by rewrite ?Hm).
    inversion E; subst p σ'.
    destruct (rootedAt_index _ _ l r Hinv Hroot pl hp p0 Hl Hhp) as (rl' & Hr' & Hp0).
    assert (rl' = rl) by congruence. subst rl'. by rewrite Hp0.
  - destruct (parent pl) as [q|] eqn:Hpar.
    + rewrite (AddN_child_miss _ _ _ _ pl q) in E by done.
      destruct (PeerList.AddN fuel q hp _) as [[p1 σ2]|] eqn:E2; [|done].
      destruct (lists σ2 !! l) as [pl2|]; [|done].
      destruct (Unlock _); [|done]. inversion E; subst p σ'. cbn.
      destruct (Hinv l pl Hl) as (Hp & _).
      destruct (Hp q Hpar) as (Hql & ql & Hq & _).
      assert (rootedAt (lists σ) q r /\ r <> l) as [Hrootq Hrl].
      { inversion Hroot as [? x Hx Hxpar|? x q' ? Hx Hxpar Hq']; subst.
        - congruence.
        - assert (x = pl) by congruence. subst x.
          assert (q' = q) by congruence. subst q'. split; [done|].
          intros ->. clear -Hq' Hl Hpar. 
          assert (forall a b, rootedAt (lists σ) a b ->
                    exists y, lists σ !! b = Some y /\ parent y = None) as Hend.
          { induction 1; eauto. }
          destruct (Hend _ _ Hq') as (y & Hy & Hny). congruence. }
      refine (IH q hp _ ql r rl _ _ _ _ _ _ p1 σ2 E2); cbn.
      * by eapply inv_replace.
      * by rewrite list_lookup_insert_ne by lia.
      * lia.
      * intros k x Hk Hx. rewrite list_lookup_insert_ne in Hx by lia.
        eapply Hidle; [|done]. lia.
      * by eapply rootedAt_replace.
      * by rewrite list_lookup_insert_ne.
    + rewrite (AddN_root_miss _ _ _ _ pl) in E by done. inversion E; subst. cbn.
      inversion Hroot as [? x Hx Hxpar|? x q' ? Hx Hxpar Hq']; subst; [|congruence].
      assert (rl = pl) by congruence. subst rl. by rewrite Hhp.
Qed.
End AddFrames.

Section Coverage.
Context `{Collaborators}.

(** X2: once the calls made so far have returned, no mutex of a list or of
    a peer is held: every method releases, on every path, what it
    locked. *)
Theorem no_lock_left_held σ :
  reachable σ ->
  (forall l pl, lists σ !! l = Some pl -> PeerList_mut pl = idle) /\
  (forall p pr, peerHeap σ !! p = Some pr -> Peer_mut pr = idle).
Proof. intros Hreach. by destruct (reachable_wf _ Hreach) as [_ Hq]. Qed.

(** X3: in a reachable store, Add on a list returns, and changes no list
    object outside the parent chain of that list, no peer object that
    exists already, and nothing of the environment. *)
Theorem Add_changes_only_own_chain l a σ pl :
  reachable σ ->
  lists σ !! l = Some pl ->
  exists p σ',
    PeerList.Add l a σ = Some (p, σ') /\
    (forall l', ~ onChain (lists σ) l l' -> lists σ' !! l' = lists σ !! l') /\
    (forall q pr, peerHeap σ !! q = Some pr -> peerHeap σ' !! q = Some pr) /\
    length (lists σ') = length (lists σ) /\
    env σ' = env σ.
Proof.
  intros Hreach Hl. pose proof (reachable_wf _ Hreach) as Hwf.
  destruct (Add_spec l a σ pl Hwf Hl) as (p & σ' & E & _ & Hg & _).
  exists p, σ'. split; [done|]. destruct Hwf as [Hinv [Hql _]]. split.
  - intros l' Hoff. unfold PeerList.Add in E.
    refine (AddN_off_chain _ l a σ pl Hinv Hl _ _ p σ' E l' Hoff);
      [eauto using lookup_lt_Some|intros; by eapply Hql].
  - destruct Hg as (Ee & (ext & Eph & _) & Hlen & _). split; [|done].
    intros q pr Hq. rewrite Eph. by apply lookup_app_l_Some.
Qed.

(** X4: in a reachable store, Add on a list under root r returns the peer
    that r indexes for the address and creates nothing when r indexes one;
    otherwise it creates exactly one peer, at the end of the peer store,
    with this address, the channel of r and no connection, and returns
    it. *)
Theorem Add_creates_peer_only_if_root_lacks l r a σ rl :
  reachable σ ->
  rootedAt (lists σ) l r ->
  lists σ !! r = Some rl ->
  exists p σ',
    PeerList.Add l a σ = Some (p, σ') /\
    match peersByHostPort rl !! a with
    | Some p0 => p = p0 /\ peerHeap σ' = peerHeap σ
    | None => p = length (peerHeap σ) /\
              peerHeap σ' = peerHeap σ ++ [freshPeer (PeerList_channel rl) a]
    end.
Proof.
  intros Hreach Hroot Hr. pose proof (reachable_wf _ Hreach) as Hwf.
  assert (exists pl, lists σ !! l = Some pl) as (pl & Hl) by (inversion Hroot; eauto).
  destruct (Add_spec l a σ pl Hwf Hl) as (p & σ' & E & _).
  exists p, σ'. split; [done|]. destruct Hwf as [Hinv [Hql _]].
  unfold PeerList.Add in E.
  refine (AddN_creates _ l a σ pl r rl Hinv Hl _ _ Hroot Hr p σ' E);
    [eauto using lookup_lt_Some|intros; by eapply Hql].
Qed.

(** X5: in a reachable store, Copy returns the address-to-peer map of the
    list and changes nothing; and after Add of an address returned a peer,
    Copy of the same list maps the address to that peer and still holds
    every earlier entry. *)
Theorem Copy_reads_back_Add l a σ pl :
  reachable σ ->
  lists σ !! l = Some pl ->
  PeerList.Copy l σ = Some (peersByHostPort pl, σ) /\
  exists p σ1 m,
    PeerList.Add l a σ = Some (p, σ1) /\
    PeerList.Copy l σ1 = Some (m, σ1) /\
    m !! a = Some p /\
    forall k v, peersByHostPort pl !! k = Some v -> m !! k = Some v.
Proof.
  intros Hreach Hl. pose proof (reachable_wf _ Hreach) as Hwf.
  pose proof Hwf as [_ [Hql _]]. split.
  - apply Copy_eq; [done|]. by rewrite (Hql l pl).
  - destruct (Add_spec l a σ pl Hwf Hl)
      as (p & σ1 & E & [_ [Hql1 _]] & Hg & (pl1 & Hl1 & Ha1) & _).
    exists p, σ1, (peersByHostPort pl1). split; [done|].
    split; [apply Copy_eq; [done|]; by rewrite (Hql1 l pl1)|]. split; [done|].
    destruct Hg as (_ & _ & _ & Hkeep & _).
    destruct (Hkeep l pl Hl) as (pl1' & Hl1' & (_ & _ & _ & _ & Hsub) & _).
    assert (pl1' = pl1) by congruence. subst pl1'.
    intros k v Hk. by eapply lookup_weaken.
Qed.

Lemma HostPort_eq p σ pr :
  peerHeap σ !! p = Some pr -> Peer.HostPort p σ = Some (hostPort pr, σ).
Proof. intros Hp. unfold Peer.HostPort. munfold. by rewrite Hp. Qed.

(** X6: in a reachable store, HostPort of a peer that a list indexes
    under an address returns that address; so HostPort of the peer that
    Add returns is the address given to Add. *)
Theorem HostPort_reads_back_address l a σ pl :
  reachable σ ->
  lists σ !! l = Some pl ->
  (forall k p, peersByHostPort pl !! k = Some p ->
     Peer.HostPort p σ = Some (k, σ)) /\
  exists p σ1,
    PeerList.Add l a σ = Some (p, σ1) /\
    Peer.HostPort p σ1 = Some (a, σ1).
Proof.
  intros Hreach Hl. pose proof (reachable_wf _ Hreach) as Hwf.
  pose proof Hwf as [Hinv _]. split.
  - intros k p Hk. destruct (Hinv l pl Hl) as (_ & Hval & _).
    destruct (Hval k p Hk) as (pr & Hpr & <-). by apply HostPort_eq.
  - destruct (Add_spec l a σ pl Hwf Hl)
      as (p & σ1 & E & [Hinv1 _] & _ & (pl1 & Hl1 & Ha1) & _).
    exists p, σ1. split; [done|].
    destruct (Hinv1 l pl1 Hl1) as (_ & Hval & _).
    destruct (Hval a p Ha1) as (pr & Hpr & <-). by apply HostPort_eq.
Qed.

(** X7: a list made by newChild or newSibling starts with no peer,
    whatever its maker holds: Get on it returns the no-peers error and Copy
    the empty map. The child has its maker as parent, the sibling has the
    parent of its maker (none when the maker is a root); both take the
    channel of the maker, and the lists and peers that exist are left as
    they were. *)
Theorem derived_lists_start_empty l σ pl :
  lists σ !! l = Some pl ->
  let n := length (lists σ) in
  (exists σ1 cl,
     PeerList.newChild l σ = Some (n, σ1) /\
     lists σ1 = lists σ ++ [cl] /\ peerHeap σ1 = peerHeap σ /\
     parent cl = Some l /\ PeerList_channel cl = PeerList_channel pl /\
     PeerList.Get n σ1 = Some (inl ErrNoPeers, σ1) /\
     PeerList.Copy n σ1 = Some (∅, σ1)) /\
  (exists σ1 sl,
     PeerList.newSibling l σ = Some (n, σ1) /\
     lists σ1 = lists σ ++ [sl] /\ peerHeap σ1 = peerHeap σ /\
     parent sl = parent pl /\ PeerList_channel sl = PeerList_channel pl /\
     PeerList.Get n σ1 = Some (inl ErrNoPeers, σ1) /\
     PeerList.Copy n σ1 = Some (∅, σ1)).
Proof.
  intros Hl n. split.
  - rewrite (newChild_eq _ _ pl Hl).
    set (cl := mkPeerList (PeerList_channel pl) (Some l) idle ∅ []
                          (newPeerSelector (env σ)).1).
    eexists _, cl. split; [reflexivity|]. cbn [lists peerHeap].
    split; [reflexivity|]. split; [done|]. split; [done|]. split; [done|]. split.
    + rewrite (Get_eq n _ cl); [reflexivity| |reflexivity].
      cbn. by apply list_lookup_middle.
    + rewrite (Copy_eq n _ cl); [reflexivity| |reflexivity].
      cbn. by apply list_lookup_middle.
  - rewrite (newSibling_eq _ _ pl Hl).
    set (sl := mkPeerList (PeerList_channel pl) (parent pl) idle ∅ []
                          (newPeerSelector (env σ)).1).
    eexists _, sl. split; [reflexivity|]. cbn [lists peerHeap].
    split; [reflexivity|]. split; [done|]. split; [done|]. split; [done|]. split.
    + rewrite (Get_eq n _ sl); [reflexivity| |reflexivity].
      cbn. by apply list_lookup_middle.
    + rewrite (Copy_eq n _ sl); [reflexivity| |reflexivity].
      cbn. by apply list_lookup_middle.
Qed.
End Coverage.

Section PeerCoverage.
Context `{Collaborators}.

(** X8: for a peer whose mutex is free, Connect dials the address of the
    peer through its channel with the connection options of that channel.
    An error of the channel is returned and the peer is left as it was; a
    dialled connection whose state is neither active nor start-close is
    answered with the invalid-state error, is not registered, and is not
    closed; any other dialled connection is appended to the outbound list
    and returned. No list changes and Connect closes no connection. *)
Theorem Connect_registers_or_reports p ctx σ pr :
  peerHeap σ !! p = Some pr ->
  Peer_mut pr = idle ->
  let ch := Peer_channel pr in
  let res := chan_Connect ch ctx (hostPort pr)
               (chan_ConnectionOptions ch (env σ)) (env σ) in
  exists r σ',
    Peer.Connect p ctx σ = Some (r, σ') /\
    lists σ' = lists σ /\ env σ' = res.2 /\
    newEvents σ σ' = [EvPeerConnect p; EvChannelConnect ch (hostPort pr)] /\
    match r with
    | inr c =>
        res.1 = inr c /\ registrable (readState c res.2) = true /\
        peerHeap σ' = <[p := withOutbound pr c]> (peerHeap σ)
    | inl err =>
        peerHeap σ' = peerHeap σ /\
        (res.1 = inl err \/
         exists c, res.1 = inr c /\ registrable (readState c res.2) = false /\
                   err = ErrInvalidConnectionState)
    end.
Proof.
  intros Hp Hm ch res.
  destruct (Connect_total p ctx σ pr Hp Hm) as (r & σ' & E).
  exists r, σ'. split; [done|].
  pose proof (Connect_trace _ _ _ _ _ _ Hp Hm E) as Htr.
  rewrite (Connect_eq _ _ _ _ Hp Hm) in E. cbn zeta in E. fold ch in E. fold res in E.
  rewrite (newEvents_app _ _ _ Htr).
  destruct (res.1) as [err|c] eqn:Eres; cbn in E.
  - inversion E; subst. cbn. repeat split; eauto.
  - destruct (registrable (readState c res.2)) eqn:Ereg; inversion E; subst; cbn.
    + repeat split; eauto.
    + repeat split; eauto.
Qed.

Lemma GetConnection_returns_registered p ctx σ pr c σ1 :
  peerHeap σ !! p = Some pr ->
  Peer_mut pr = idle ->
  Peer.GetConnection p ctx σ = Some (inr c, σ1) ->
  lists σ1 = lists σ /\
  exists pr1, peerHeap σ1 !! p = Some pr1 /\ Peer_mut pr1 = idle /\
    grownPeer pr pr1 /\
    c ∈ inboundConnections pr1 ++ outboundConnections pr1.
Proof.
  intros Hp Hm E.
  assert (writer (Peer_mut pr) = false) as Hw by (by rewrite Hm).
  pose proof (lookup_lt_Some _ _ _ Hp) as Hlt.
  destruct (activeConns (env σ) pr) as [|c0 act] eqn:Hact.
  - rewrite (GetConnection_dial _ _ _ pr) in E by done.
    rewrite (Connect_eq _ _ _ pr) in E by done. cbn zeta in E. cbn in E.
    destruct (chan_Connect _ _ _ _ _) as [[err|c'] e']; cbn in E; [done|].
    destruct (registrable _); inversion E; subst. cbn. split; [done|].
    exists (withOutbound pr c). rewrite list_lookup_insert_eq by done.
    split; [done|]. split; [done|]. split.
    + repeat split; cbn; try done. by apply prefix_app_r.
    + cbn. rewrite app_assoc. apply elem_of_app. right. by left.
  - revert E. unfold Peer.GetConnection.
    unfold bind at 1. unfold logEv at 1. unfold bind at 1.
    rewrite (getActive_eq p _ pr) by done. cbn [env]. rewrite Hact.
    change (0 <? length (c0 :: act)) with true. cbv iota.
    unfold Peer.randConn. munfold. cbn.
    destruct (Intn _ _) as [i e']. cbn.
    destruct ((c0 :: act) !! i) as [c'|] eqn:Hi; [|done].
    intros E; inversion E; subst. cbn. split; [done|]. exists pr.
    split; [done|]. split; [done|]. split; [by repeat split|].
    assert (c ∈ activeConns (env σ) pr) as Hin.
    { rewrite Hact. apply list_elem_of_lookup. eauto. }
    by apply activeConns_spec in Hin as [Hin _].
Qed.

(** X9: the connection that GetConnection returns is registered with the
    peer, whether it was found or dialled; and while that connection
    reports active, the next GetConnection returns an active connection
    without calling Connect and without changing a list or a peer. *)
Theorem GetConnection_again_reuses p ctx ctx' σ pr c σ1 :
  peerHeap σ !! p = Some pr ->
  Peer_mut pr = idle ->
  (forall n e, 0 < n -> (Intn n e).1 < n) ->
  Peer.GetConnection p ctx σ = Some (inr c, σ1) ->
  IsActive c (env σ1) = true ->
  (exists pr1, peerHeap σ1 !! p = Some pr1 /\
     c ∈ inboundConnections pr1 ++ outboundConnections pr1) /\
  exists c' σ2,
    Peer.GetConnection p ctx' σ1 = Some (inr c', σ2) /\
    IsActive c' (env σ1) = true /\
    connectCalls (newEvents σ1 σ2) = 0 /\
    lists σ2 = lists σ1 /\ peerHeap σ2 = peerHeap σ1.
Proof.
  intros Hp Hm Hrng E Ha.
  destruct (GetConnection_returns_registered _ _ _ _ _ _ Hp Hm E)
    as (_ & pr1 & Hp1 & Hm1 & _ & Hc).
  split; [eauto|].
  assert (c ∈ activeConns (env σ1) pr1) as Hin by (by apply activeConns_spec).
  assert (exists c', activeConns (env σ1) pr1
            !! (Intn (length (activeConns (env σ1) pr1)) (env σ1)).1 = Some c')
    as (c' & Hc').
  { apply lookup_lt_is_Some. apply Hrng.
    destruct (activeConns (env σ1) pr1); [by apply elem_of_nil in Hin|cbn; lia]. }
  rewrite (GetConnection_active _ _ _ pr1 c') by (by rewrite ?Hm1).
  eexists _, _. split; [reflexivity|]. cbn.
  assert (c' ∈ activeConns (env σ1) pr1) as Hin' by (apply list_elem_of_lookup; eauto).
  apply activeConns_spec in Hin' as [_ Ha'].
  repeat split; try done.
  by erewrite newEvents_app by (cbn; reflexivity).
Qed.
End PeerCoverage.

Section PeerFrames.
Context `{Collaborators}.

Lemma grownPeer_refl pr : grownPeer pr pr.
Proof. by repeat split. Qed.

Lemma grownPeer_trans pr1 pr2 pr3 :
  grownPeer pr1 pr2 -> grownPeer pr2 pr3 -> grownPeer pr1 pr3.
Proof.
  intros (A1 & B1 & C1 & D1) (A2 & B2 & C2 & D2).
  repeat split; try congruence; by etrans.
Qed.

Lemma registers_same p σ σ' :
  lists σ' = lists σ -> peerHeap σ' = peerHeap σ -> registers p σ σ'.
Proof. intros El Ep. split; [done|by left]. Qed.

Lemma Connect_registers p ctx σ r σ' :
  quiescent σ -> Peer.Connect p ctx σ = Some (r, σ') -> registers p σ σ'.
Proof.
  intros [_ Hq] E. destruct (peerHeap σ !! p) as [pr|] eqn:Hp.
  - rewrite (Connect_eq _ _ _ pr) in E by eauto. cbn zeta in E.
    destruct (chan_Connect _ _ _ _ _) as [[err|c] e']; cbn in E.
    + inversion E; subst. by apply registers_same.
    + destruct (registrable _); inversion E; subst.
      * split; [done|]. right. exists pr, c. split; [done|]. by right.
      * by apply registers_same.
  - revert E. unfold Peer.Connect. munfold. cbn. by rewrite Hp.
Qed.

Lemma GetConnection_registers p ctx σ r σ' :
  quiescent σ -> Peer.GetConnection p ctx σ = Some (r, σ') -> registers p σ σ'.
Proof.
  intros Hq E. pose proof Hq as [_ Hqp].
  destruct (peerHeap σ !! p) as [pr|] eqn:Hp.
  - assert (writer (Peer_mut pr) = false) as Hw by (by rewrite (Hqp p pr)).
    destruct (activeConns (env σ) pr) as [|c0 act] eqn:Hact.
    + rewrite (GetConnection_dial _ _ _ pr) in E by done.
      apply Connect_registers in E; [|done]. exact E.
    + revert E. unfold Peer.GetConnection.
      unfold bind at 1. unfold logEv at 1. unfold bind at 1.
      rewrite (getActive_eq p _ pr) by done. cbn [env]. rewrite Hact.
      change (0 <? length (c0 :: act)) with true. cbv iota.
      unfold Peer.randConn. munfold. cbn.
      destruct (Intn _ _) as [i e']. cbn.
      destruct ((c0 :: act) !! i); [|done].
      intros E; inversion E; subst. by apply registers_same.
  - revert E. unfold Peer.GetConnection, Peer.getActive. munfold. cbn.
    by rewrite Hp.
Qed.

Lemma BeginCall_registers p ctx s o opts σ r σ' :
  quiescent σ -> Peer.BeginCall p ctx s o opts σ = Some (r, σ') -> registers p σ σ'.
Proof.
  intros Hq E. revert E. unfold Peer.BeginCall. unfold bind at 1.
  destruct (Peer.GetConnection p ctx σ) as [[r1 σ1]|] eqn:E1; [|done].
  apply GetConnection_registers in E1; [|done]. destruct E1 as [El Ep].
  destruct r1 as [err|conn].
  - unfold ret. intros E; inversion E; subst. by split.
  - munfold. cbn. destruct (beginCall _ _ _ _ _ _) as [[err|call] e']; cbn;
      intros E; inversion E; subst; by split.
Qed.

Lemma peer_call_effect c p σ σ' :
  quiescent σ ->
  peerOf c = Some p ->
  exec c σ = Some σ' ->
  registers p σ σ'.
Proof.
  intros Hq Hc. pose proof Hq as [_ Hqp].
  destruct c; cbn in Hc; try discriminate; inversion Hc; subst; cbn; unfold after.
  - unfold Peer.HostPort. munfold. destruct (peerHeap σ !! p); [|done].
    intros [= <-]. by apply registers_same.
  - destruct (Peer.GetConnection p ctx σ) as [[r σ1]|] eqn:E; [|done].
    intros [= <-]. by eapply GetConnection_registers.
  - destruct (Peer.Connect p ctx σ) as [[r σ1]|] eqn:E; [|done].
    intros [= <-]. by eapply Connect_registers.
  - destruct (Peer.AddInboundConnection p c σ) as [[r σ1]|] eqn:E; [|done].
    intros [= <-]. destruct (peerHeap σ !! p) as [pr|] eqn:Hp.
    + rewrite (AddInboundConnection_eq _ _ _ pr) in E by eauto.
      destruct (registrable _); inversion E; subst; [|by apply registers_same].
      split; [done|]. right. exists pr, c. split; [done|]. by left.
    + apply AddInboundConnection_effect in E as [->|(_ & x & _ & Hx & _)]; [| |done].
      * by apply registers_same.
      * congruence.
  - destruct (Peer.AddOutboundConnection p c σ) as [[r σ1]|] eqn:E; [|done].
    intros [= <-]. destruct (peerHeap σ !! p) as [pr|] eqn:Hp.
    + rewrite (AddOutboundConnection_eq _ _ _ pr) in E by eauto.
      destruct (registrable _); inversion E; subst; [|by apply registers_same].
      split; [done|]. right. exists pr, c. split; [done|]. by right.
    + apply AddOutboundConnection_effect in E as [->|(_ & x & _ & Hx & _)]; [| |done].
      * by apply registers_same.
      * congruence.
  - destruct (Peer.BeginCall _ _ _ _ _ σ) as [[r σ1]|] eqn:E; [|done].
    intros [= <-]. by eapply BeginCall_registers.
  - destruct (peerHeap σ !! p) as [pr|] eqn:Hp.
    + rewrite (PeerClose_eq _ _ pr) by (by rewrite ?(Hqp p pr)).
      intros [= <-]. by apply registers_same.
    + unfold Peer.Close, Peer.RLock. munfold. cbn. by rewrite Hp.
Qed.

(** X10: in a reachable store, a call of a Peer method (HostPort,
    GetConnection, Connect, AddInboundConnection, AddOutboundConnection,
    BeginCall, Close) that returns has changed no list object; the peer
    store is as it was, or differs in that one connection was appended to
    the inbound or to the outbound list of the peer the call was made
    on. *)
Theorem peer_call_registers_at_most_one c p σ σ' :
  reachable σ ->
  peerOf c = Some p ->
  exec c σ = Some σ' ->
  registers p σ σ'.
Proof.
  intros Hreach. destruct (reachable_wf _ Hreach) as [_ Hq].
  by apply peer_call_effect.
Qed.

Lemma registers_grows p σ σ' q qr :
  registers p σ σ' -> peerHeap σ !! q = Some qr ->
  exists qr', peerHeap σ' !! q = Some qr' /\ grownPeer qr qr'.
Proof.
  intros [_ [Ep|(pr & c & Hp & Ep)]] Hq.
  - exists qr. rewrite Ep. split; [done|apply grownPeer_refl].
  - pose proof (lookup_lt_Some _ _ _ Hp) as Hlt.
    destruct (decide (q = p)) as [->|Hne].
    + assert (qr = pr) by congruence. subst qr.
      destruct Ep as [Ep|Ep]; rewrite Ep, list_lookup_insert_eq by done;
        eexists; (split; [done|]); repeat split; cbn; try done;
        by apply prefix_app_r.
    + exists qr. split; [|apply grownPeer_refl].
      destruct Ep as [Ep|Ep]; rewrite Ep; by rewrite list_lookup_insert_ne.
Qed.

Lemma list_call_keeps_peers c σ σ' :
  wf σ -> peerOf c = None -> exec c σ = Some σ' ->
  exists ext, peerHeap σ' = peerHeap σ ++ ext.
Proof.
  intros Hwf Hc. pose proof Hwf as [Hinv [Hql Hqp]].
  assert (forall τ, peerHeap τ = peerHeap σ -> exists ext, peerHeap τ = peerHeap σ ++ ext)
    as Hsame by (intros τ ->; exists []; by rewrite app_nil_r).
  destruct c; cbn in Hc; try discriminate; cbn; unfold after.
  - rewrite newPeerList_eq. intros [= <-]. by apply Hsame.
  - destruct (lists σ !! l) as [pl|] eqn:Hl.
    + rewrite (newSibling_eq _ _ pl) by done. intros [= <-]. by apply Hsame.
    + unfold PeerList.newSibling. munfold. by rewrite Hl.
  - destruct (lists σ !! l) as [pl|] eqn:Hl.
    + rewrite (newChild_eq _ _ pl) by done. intros [= <-]. by apply Hsame.
    + unfold PeerList.newChild. munfold. by rewrite Hl.
  - destruct (lists σ !! l) as [pl|] eqn:Hl.
    + destruct (Add_spec l hp σ pl) as (p & σ1 & E & _ & Hg & _); [done..|].
      rewrite E. intros [= <-]. destruct Hg as (_ & (ext & Eph & _) & _). eauto.
    + unfold PeerList.Add. by rewrite AddN_dangling.
  - destruct (lists σ !! l) as [pl|] eqn:Hl.
    + rewrite (Get_eq _ _ pl) by (by rewrite ?(Hql l pl)).
      destruct (_ =? 0); cbn; intros [= <-]; by apply Hsame.
    + unfold PeerList.Get. munfold. by rewrite Hl.
  - destruct (lists σ !! l) as [pl|] eqn:Hl.
    + rewrite (GetOrAdd_eq _ _ _ pl) by (by rewrite ?(Hql l pl)).
      destruct (peersByHostPort pl !! hp).
      * intros [= <-]. by apply Hsame.
      * destruct (Add_spec l hp σ pl) as (p & σ1 & E & _ & Hg & _); [done..|].
        rewrite E. intros [= <-]. destruct Hg as (_ & (ext & Eph & _) & _). eauto.
    + unfold PeerList.GetOrAdd. munfold. by rewrite Hl.
  - destruct (lists σ !! l) as [pl|] eqn:Hl.
    + rewrite (Copy_eq _ _ pl) by (by rewrite ?(Hql l pl)).
      intros [= <-]. by apply Hsame.
    + unfold PeerList.Copy. munfold. by rewrite Hl.
  - destruct (lists σ !! l) as [pl|] eqn:Hl.
    + destruct (ListClose_spec l σ pl) as (σ1 & E & El & Ep & _);
        [done|by rewrite (Hql l pl)|by eapply indexed_peers_valid|].
      rewrite E. intros [= <-]. by apply Hsame.
    + unfold PeerList.Close. munfold. by rewrite Hl.
  - unfold runEnv. intros [= <-]. by apply Hsame.
Qed.

Lemma run_grows_peers cs : forall σ σ',
  reachable σ -> run cs σ = Some σ' ->
  forall p pr, peerHeap σ !! p = Some pr ->
    exists pr', peerHeap σ' !! p = Some pr' /\ grownPeer pr pr'.
Proof.
  induction cs as [|c cs IH]; intros σ σ' Hreach; cbn.
  - intros [= <-] p pr Hp. exists pr. split; [done|apply grownPeer_refl].
  - destruct (exec c σ) as [σ1|] eqn:E; [|done]. intros Hrun p pr Hp.
    assert (reachable σ1) as Hreach1.
    { apply (reachable_run [c] σ); [done|]. cbn. by rewrite E. }
    assert (exists pr1, peerHeap σ1 !! p = Some pr1 /\ grownPeer pr pr1)
      as (pr1 & Hp1 & Hg1).
    { destruct (peerOf c) as [q|] eqn:Hc.
      - eapply registers_grows; [|done].
        apply (peer_call_effect c q); [|done|done].
        by destruct (reachable_wf _ Hreach) as [_ Hq].
      - destruct (list_call_keeps_peers c σ σ1) as (ext & Eph);
          [by apply reachable_wf|done|done|].
        exists pr. rewrite Eph. split; [by apply lookup_app_l_Some|apply grownPeer_refl]. }
    destruct (IH σ1 σ' Hreach1 Hrun p pr1 Hp1) as (pr' & Hp' & Hg').
    exists pr'. split; [done|]. by eapply grownPeer_trans.
Qed.

(** X11: no call ever removes a connection from a peer or changes its
    address or channel: along any sequence of calls from a reachable store,
    the inbound and outbound lists of every peer only grow at their
    ends. *)
Theorem connections_never_removed cs σ σ' p pr :
  reachable σ ->
  run cs σ = Some σ' ->
  peerHeap σ !! p = Some pr ->
  exists pr',
    peerHeap σ' !! p = Some pr' /\
    hostPort pr' = hostPort pr /\
    Peer_channel pr' = Peer_channel pr /\
    inboundConnections pr `prefix_of` inboundConnections pr' /\
    outboundConnections pr `prefix_of` outboundConnections pr'.
Proof.
  intros Hreach Hrun Hp.
  destruct (run_grows_peers cs σ σ' Hreach Hrun p pr Hp) as (pr' & Hp' & Hg).
  exists pr'. split; [done|exact Hg].
Qed.
End PeerFrames.

(** * Properties of the key-value client *)

Section ClientFacts.
Context `{Service}.
Import Client.

Lemma Split_cons (s : string) (sep : Ascii.ascii) :
  exists w ws, Split s sep = w :: ws.
Proof.
  induction s as [|c s IH]; cbn; [eauto|].
  destruct (Ascii.eqb c sep); [eauto|].
  destruct IH as (w & ws & ->). eauto.
Qed.

Lemma Split_head (s : string) :
  exists w ws, Split s space = w :: ws /\
               String.eqb w "" = negb (hasCommand s).
Proof.
  destruct s as [|c s]; cbn; [eauto|].
  destruct (Ascii.eqb c space); cbn; [eauto|].
  destruct (Split_cons s space) as (w & ws & ->). eauto.
Qed.

Lemma Split_word (w : string) :
  spaceless w = true -> Split w space = [w].
Proof.
  induction w as [|c w IH]; cbn; [done|].
  destruct (Ascii.eqb c space); cbn; [done|]. intros Hw. by rewrite IH.
Qed.

Lemma Split_app (w s : string) :
  spaceless w = true ->
  Split (w +:+ String space s) space = w :: Split s space.
Proof.
  induction w as [|c w IH]; intros Hw; [reflexivity|].
  cbn [spaceless] in Hw. apply andb_true_iff in Hw as [Hc Hw].
  apply negb_true_iff in Hc.
  change (String c w +:+ String space s) with (String c (w +:+ String space s)).
  cbn [Split]. rewrite Hc, (IH Hw). reflexivity.
Qed.

Lemma getClient_out ch con : out (getClient ch con).2 = out con.
Proof.
  unfold getClient, call. destruct con as [n os]. cbn.
  destruct (WithTimeout 10 n) as [ctx n1]. cbn.
  destruct (NewRootContext ctx n1) as [ctx' n2]. cbn.
  destruct (NewTChanOutbound ch ctx' "keyvalue" "KeyValue" n2) as [pr n3]. cbn.
  by destruct (NewKeyValueClientProtocol pr pr n3).
Qed.

Lemma get_out ch key con :
  exists o, out (get ch key con) = out con ++ [o] /\ isPrompt o = false.
Proof.
  unfold get. pose proof (getClient_out ch con) as Hc.
  destruct (getClient ch con) as [client con1]. cbn in Hc.
  unfold call. destruct (client_Get client key (net con1)) as [[err|val] n2];
    cbn; rewrite Hc; eauto.
Qed.

Lemma set_out ch key value con :
  exists os, out (set ch key value con) = out con ++ os /\ prompts os = 0.
Proof.
  unfold set. pose proof (getClient_out ch con) as Hc.
  destruct (getClient ch con) as [client con1]. cbn in Hc.
  unfold call. destruct (client_Set client key value (net con1)) as [[err|] n2];
    cbn; rewrite Hc.
  - rewrite <- app_assoc. eexists. split; [reflexivity|done].
  - eexists. split; [reflexivity|done].
Qed.

(** The effect of one line, by cases on its words. *)
Lemma handleLine_cases ch text con :
  exists cmd rest con',
    Split text space = cmd :: rest /\
    String.eqb cmd "" = negb (hasCommand text) /\
    handleLine ch text con = Some con' /\
    (hasCommand text = false -> con' = con) /\
    (hasCommand text = true ->
       exists os, out con' = out con ++ os ++ [Print "> "] /\ prompts os = 0) /\
    (net con' = net con \/
     (cmd = "get" /\ 1 <= length rest) \/
     (cmd = "set" /\ 2 <= length rest)).
Proof.
  destruct (Split_head text) as (cmd & rest & Hs & Hcmd).
  exists cmd, rest. unfold handleLine. rewrite Hs. cbn [lookup list_lookup].
  rewrite Hcmd. destruct (hasCommand text); cbn [negb].
  2:{ eexists. repeat split; try done. by left. }
  destruct (String.eqb cmd "help") eqn:Ehelp.
  { eexists. repeat split; try done; [|by left].
    intros _. exists [Printf usage]. cbn. by rewrite <- app_assoc. }
  destruct (String.eqb cmd "get") eqn:Eget.
  { apply String.eqb_eq in Eget. destruct rest as [|key rest]; cbn.
    - eexists. repeat split; try done; [|by left].
      intros _. exists [Printf usage]. cbn. by rewrite <- app_assoc.
    - eexists. repeat split; try done; [|right; left; split; [done|lia]].
      intros _. destruct (get_out ch key con) as (o & Ho & Hp). cbn. rewrite Ho.
      exists [o]. rewrite <- app_assoc. split; [done|].
      unfold prompts. cbn. by rewrite Hp. }
  destruct (String.eqb cmd "set") eqn:Eset.
  { apply String.eqb_eq in Eset. destruct rest as [|key [|value rest]]; cbn.
    - eexists. repeat split; try done; [|by left].
      intros _. exists [Printf usage]. cbn. by rewrite <- app_assoc.
    - eexists. repeat split; try done; [|by left].
      intros _. exists [Printf usage]. cbn. by rewrite <- app_assoc.
    - eexists. repeat split; try done; [|right; right; split; [done|lia]].
      intros _. destruct (set_out ch key value con) as (os & Ho & Hp). cbn.
      rewrite Ho. exists os. by rewrite <- app_assoc. }
  eexists. repeat split; try done; [|by left].
  intros _. eexists [_]. cbn. rewrite <- app_assoc. split; [reflexivity|done].
Qed.
End ClientFacts.

Section ClientContract.
Context `{Service}.
Import Client.

Lemma prompts_app (a b : list Out) : prompts (a ++ b) = prompts a + prompts b.
Proof. unfold prompts. by rewrite List.filter_app, length_app. Qed.

(** *** The scanner *)

Lemma cutLine_length (data : string) :
  String.length data =
    String.length (bufio.cutLine data).1 +
    match (bufio.cutLine data).2 with
    | Some rest => S (String.length rest)
    | None => 0
    end.
Proof.
  induction data as [|c data IH]; [done|]. cbn [bufio.cutLine].
  destruct (Ascii.eqb c newline); [cbn; lia|].
  destruct (bufio.cutLine data) as [line rest]. cbn in *. lia.
Qed.

Lemma Scan_true (s s' : bufio.Scanner) :
  bufio.Scan s = (true, s') ->
  String.length (bufio.reader s') < String.length (bufio.reader s) /\
  bufio.maxTokenSize s' = bufio.maxTokenSize s.
Proof.
  unfold bufio.Scan. pose proof (cutLine_length (bufio.reader s)) as Hlen.
  destruct (bufio.cutLine (bufio.reader s)) as [line rest]. cbn [fst snd] in Hlen.
  destruct (bufio.maxTokenSize s <=? String.length line); [discriminate|].
  destruct rest as [rest|].
  - intros [= <-]. cbn. lia.
  - destruct line as [|c line]; [discriminate|].
    cbn [String.eqb]. intros [= <-]. cbn in *. lia.
Qed.

Lemma Scan_ext (s1 s2 : bufio.Scanner) :
  bufio.reader s1 = bufio.reader s2 ->
  bufio.maxTokenSize s1 = bufio.maxTokenSize s2 ->
  bufio.Scan s1 = bufio.Scan s2.
Proof. destruct s1, s2. cbn. by intros -> ->. Qed.

Lemma scanned_fuel : forall f1 f2 s1 s2,
  bufio.reader s1 = bufio.reader s2 ->
  bufio.maxTokenSize s1 = bufio.maxTokenSize s2 ->
  String.length (bufio.reader s1) < f1 ->
  String.length (bufio.reader s1) < f2 ->
  scanned f1 s1 = scanned f2 s2.
Proof.
  induction f1 as [|f1 IH]; intros f2 s1 s2 Hr Hm H1 H2; [lia|].
  destruct f2 as [|f2]; [lia|]. cbn [scanned].
  rewrite <- (Scan_ext s1 s2 Hr Hm).
  destruct (bufio.Scan s1) as [[|] s'] eqn:E; [|done].
  apply Scan_true in E as [Hlt _]. f_equal. apply IH; [done|done|lia|lia].
Qed.

Lemma cutLine_newline (line rest : string) :
  newlineless line = true ->
  bufio.cutLine (line +:+ String newline rest) = (line, Some rest).
Proof.
  induction line as [|c line IH]; intros Hl; [done|].
  cbn [newlineless] in Hl. apply andb_prop in Hl as [Hc Hl]. apply negb_true_iff in Hc.
  change (String c line +:+ String newline rest)
    with (String c (line +:+ String newline rest)).
  cbn [bufio.cutLine]. rewrite Hc. by rewrite (IH Hl).
Qed.

Lemma cutLine_last (line : string) :
  newlineless line = true -> bufio.cutLine line = (line, None).
Proof.
  induction line as [|c line IH]; intros Hl; [done|].
  cbn [newlineless] in Hl. apply andb_prop in Hl as [Hc Hl]. apply negb_true_iff in Hc.
  cbn [bufio.cutLine]. rewrite Hc. by rewrite (IH Hl).
Qed.

Lemma cutLine_long (line rest : string) :
  newlineless line = true ->
  String.length line <= String.length (bufio.cutLine (line +:+ rest)).1.
Proof.
  induction line as [|c line IH]; intros Hl; [cbn; lia|].
  cbn [newlineless] in Hl. apply andb_prop in Hl as [Hc Hl]. apply negb_true_iff in Hc.
  change (String c line +:+ rest) with (String c (line +:+ rest)).
  cbn [bufio.cutLine]. rewrite Hc. specialize (IH Hl).
  destruct (bufio.cutLine (line +:+ rest)). cbn in *. lia.
Qed.

Lemma dropCR_CR (s : string) :
  bufio.dropCR (s +:+ String carriageReturn EmptyString) = s.
Proof.
  induction s as [|c s IH]; [done|].
  change (String c s +:+ String carriageReturn EmptyString)
    with (String c (s +:+ String carriageReturn EmptyString)).
  cbn [bufio.dropCR]. rewrite IH. by destruct s.
Qed.

Lemma dropCR_other (s : string) (c : Ascii.ascii) :
  c <> carriageReturn ->
  bufio.dropCR (s +:+ String c EmptyString) = s +:+ String c EmptyString.
Proof.
  intros Hc. induction s as [|d s IH].
  - apply Ascii.eqb_neq in Hc.
    change (bufio.dropCR (EmptyString +:+ String c EmptyString))
      with (if Ascii.eqb c carriageReturn then EmptyString else String c EmptyString).
    by rewrite Hc.
  - change (String d s +:+ String c EmptyString)
      with (String d (s +:+ String c EmptyString)).
    cbn [bufio.dropCR]. rewrite IH. by destruct s.
Qed.

Lemma delivered_too_long (line rest : string) :
  newlineless line = true ->
  bufio.MaxScanTokenSize <= String.length line ->
  delivered (line +:+ rest) = [].
Proof.
  intros Hl Hlong. unfold delivered, bufio.NewScanner. cbn [scanned].
  unfold bufio.Scan. cbn [bufio.reader bufio.maxTokenSize].
  pose proof (cutLine_long line rest Hl) as Hc.
  destruct (bufio.cutLine (line +:+ rest)) as [line' rest']. cbn [fst] in Hc.
  destruct (Nat.leb_spec bufio.MaxScanTokenSize (String.length line')); [done|lia].
Qed.

Lemma delivered_line (line rest : string) :
  newlineless line = true ->
  String.length line < bufio.MaxScanTokenSize ->
  delivered (line +:+ String newline rest) = bufio.dropCR line :: delivered rest.
Proof.
  intros Hl Hshort. unfold delivered at 1. unfold bufio.NewScanner. cbn [scanned].
  unfold bufio.Scan. cbn [bufio.reader bufio.maxTokenSize].
  rewrite (cutLine_newline line rest Hl).
  destruct (Nat.leb_spec bufio.MaxScanTokenSize (String.length line)); [lia|].
  unfold bufio.Text. cbn [bufio.token]. f_equal.
  pose proof (cutLine_length (line +:+ String newline rest)) as Hlen.
  rewrite (cutLine_newline line rest Hl) in Hlen. cbn [fst snd] in Hlen.
  apply scanned_fuel; cbn [bufio.reader bufio.maxTokenSize]; [done|done|lia|lia].
Qed.

Lemma delivered_last (line : string) :
  newlineless line = true ->
  String.length line < bufio.MaxScanTokenSize ->
  line <> EmptyString ->
  delivered line = [bufio.dropCR line].
Proof.
  intros Hl Hshort Hne. unfold delivered, bufio.NewScanner.
  destruct line as [|c line]; [done|]. cbn [scanned].
  unfold bufio.Scan. cbn [bufio.reader bufio.maxTokenSize].
  rewrite (cutLine_last _ Hl).
  destruct (Nat.leb_spec bufio.MaxScanTokenSize (String.length (String c line))); [lia|].
  cbn [String.eqb]. unfold bufio.Text. cbn [bufio.token]. f_equal.
Qed.

Lemma delivered_nothing : delivered EmptyString = [].
Proof.
  unfold delivered, bufio.NewScanner. cbn [String.length scanned].
  unfold bufio.Scan. cbn [bufio.reader bufio.maxTokenSize bufio.cutLine].
  destruct (bufio.MaxScanTokenSize <=? String.length EmptyString); done.
Qed.

Lemma scan_prompts ch : forall fuel scanner con,
  String.length (bufio.reader scanner) < fuel ->
  exists con',
    scan fuel ch scanner con = Some con' /\
    prompts (out con') =
      prompts (out con) + length (List.filter hasCommand (scanned fuel scanner)) /\
    exists os, out con' = out con ++ os.
Proof.
  induction fuel as [|fuel IH]; intros scanner con Hfuel; [lia|].
  cbn [scan scanned].
  destruct (bufio.Scan scanner) as [[|] scanner'] eqn:Es.
  - apply Scan_true in Es as [Hlt _].
    destruct (handleLine_cases ch (bufio.Text scanner') con)
      as (cmd & rest & con1 & _ & _ & E & Hskip & Hrun & _).
    rewrite E. destruct (IH scanner' con1) as (con' & E' & Hp & os' & Ho'); [lia|].
    exists con'. split; [done|]. cbn [List.filter].
    destruct (hasCommand (bufio.Text scanner')) eqn:Hc.
    + destruct (Hrun eq_refl) as (os & Ho & Hn). split.
      * rewrite Hp, Ho, !prompts_app, Hn. cbn. lia.
      * exists (os ++ [Print "> "] ++ os'). rewrite Ho', Ho.
        by rewrite <- !app_assoc.
    + rewrite (Hskip eq_refl) in *. split; [lia|eauto].
  - exists con. split; [done|]. cbn. split; [lia|]. exists []. by rewrite app_nil_r.
Qed.

(** X12: when the call fails, get logs the error and nothing else, but
    set logs the error and then logs that the set succeeded all the same;
    when the call succeeds, set logs the success only. *)
Theorem set_logs_success_after_failure ch key value con client con1 :
  getClient ch con = (client, con1) ->
  (forall f n2, client_Set client key value (net con1) = (Some f, n2) ->
     set ch key value con =
       mkConsole n2
         (out con ++
          [LogPrintf "Set %v:%v got err: %v" [ArgStr key; ArgStr value; ArgErr f];
           LogPrintf "Set %v:%v succeeded" [ArgStr key; ArgStr value]])) /\
  (forall n2, client_Set client key value (net con1) = (None, n2) ->
     set ch key value con =
       mkConsole n2
         (out con ++ [LogPrintf "Set %v:%v succeeded" [ArgStr key; ArgStr value]])) /\
  (forall f n2, client_Get client key (net con1) = (inl f, n2) ->
     get ch key con =
       mkConsole n2
         (out con ++ [LogPrintf "Get %v got err: %v" [ArgStr key; ArgErr f]])) /\
  (forall val n2, client_Get client key (net con1) = (inr val, n2) ->
     get ch key con =
       mkConsole n2
         (out con ++ [LogPrintf "Get %v: %v" [ArgStr key; ArgStr val]])).
Proof.
  intros Hc. pose proof (getClient_out ch con) as Ho. rewrite Hc in Ho. cbn in Ho.
  unfold set, get, call, emit. rewrite Hc.
  split; [|split; [|split]].
  - intros f n2 E. rewrite E. cbn. by rewrite Ho, <- app_assoc.
  - intros n2 E. rewrite E. cbn. by rewrite Ho.
  - intros f n2 E. rewrite E. cbn. by rewrite Ho.
  - intros val n2 E. rewrite E. cbn. by rewrite Ho.
Qed.

(** X13: the loop body never fails, and it goes by the first word of the
    line. A line that is empty or starts with a space is skipped: nothing
    is written, not even the prompt, and nothing is called. Any other line
    writes something without a prompt in it and then one prompt. The
    client is called only by "get" followed by at least one more word or
    by "set" followed by at least two. *)
Theorem handleLine_skips_or_prompts ch text con :
  exists cmd rest con',
    Split text space = cmd :: rest /\
    handleLine ch text con = Some con' /\
    (hasCommand text = false -> con' = con) /\
    (hasCommand text = true ->
       exists os, out con' = out con ++ os ++ [Print "> "] /\ prompts os = 0) /\
    (net con' = net con \/
     (cmd = "get" /\ 1 <= length rest) \/
     (cmd = "set" /\ 2 <= length rest)).
Proof.
  destruct (handleLine_cases ch text con)
    as (cmd & rest & con' & Hs & _ & E & Hskip & Hrun & Hnet).
  exists cmd, rest, con'. done.
Qed.

(** X14: the words after the arguments of a command are ignored: "get"
    uses the second word of the line as key, "set" the second and third as
    key and value, whatever follows them. *)
Theorem words_beyond_arguments_ignored ch key value tail con :
  spaceless key = true ->
  spaceless value = true ->
  handleLine ch ("get " +:+ key +:+ String space tail) con
    = Some (emit (Print "> ") (get ch key con)) /\
  handleLine ch ("get " +:+ key) con
    = Some (emit (Print "> ") (get ch key con)) /\
  handleLine ch ("set " +:+ key +:+ String space (value +:+ String space tail)) con
    = Some (emit (Print "> ") (set ch key value con)) /\
  handleLine ch ("set " +:+ key +:+ String space value) con
    = Some (emit (Print "> ") (set ch key value con)).
Proof.
  intros Hk Hv.
  assert (forall s, Split ("get " +:+ s) space = "get" :: Split s space) as Hget.
  { intros s. by apply (Split_app "get" s). }
  assert (forall s, Split ("set " +:+ s) space = "set" :: Split s space) as Hset.
  { intros s. by apply (Split_app "set" s). }
  unfold handleLine. split; [|split; [|split]].
  - by rewrite Hget, (Split_app key tail Hk).
  - by rewrite Hget, (Split_word key Hk).
  - by rewrite Hset, (Split_app key _ Hk), (Split_app value tail Hv).
  - by rewrite Hset, (Split_app key _ Hk), (Split_word value Hv).
Qed.

(** X15: main stops with a fatal log line, before the usage text and
    before anything is read, when the channel cannot be made or when no
    node address follows the program name. Otherwise it returns, after it
    has handled every line that the scanner delivers: it has written the
    usage text and a prompt first, and in all one prompt more than there
    are delivered lines that are neither empty nor start with a space. The
    scanner delivers the lines of standard input in order, each without
    its newline and without one trailing carriage return, the last one
    also when no newline ends it; at the first line of 64 KiB or more it
    stops, and what follows is not read. *)
Theorem main_prompts_once_per_command prog nodes stdin n :
  (forall err n1, NewChannel "keyvalue-client" n = (inl err, n1) ->
     main (prog :: nodes) stdin n =
       Some (Exited,
             mkConsole n1 [LogFatalf "Failed to create tchannel: %v" [ArgErr err]])) /\
  (forall ch n1, NewChannel "keyvalue-client" n = (inr ch, n1) ->
     (nodes = [] ->
      main (prog :: nodes) stdin n =
        Some (Exited,
              mkConsole n1 [LogFatalf "No Autobahn nodes to connect to given" []])) /\
     (nodes <> [] ->
      exists con os,
        main (prog :: nodes) stdin n = Some (Returned, con) /\
        out con = Printf usage :: Printf "> " :: os /\
        prompts (out con) = 1 + length (List.filter hasCommand (delivered stdin)))) /\
  (delivered EmptyString = [] /\
   forall line, newlineless line = true ->
     (bufio.MaxScanTokenSize <= String.length line ->
      forall rest, delivered (line +:+ rest) = []) /\
     (String.length line < bufio.MaxScanTokenSize ->
      (forall rest,
         delivered (line +:+ String newline rest)
         = bufio.dropCR line :: delivered rest) /\
      (line <> EmptyString -> delivered line = [bufio.dropCR line]))) /\
  (bufio.dropCR EmptyString = EmptyString /\
   (forall s, bufio.dropCR (s +:+ String carriageReturn EmptyString) = s) /\
   (forall s c, c <> carriageReturn ->
      bufio.dropCR (s +:+ String c EmptyString) = s +:+ String c EmptyString)).
Proof.
  split; [|split; [|split]].
  - intros err n1 E. unfold main, call. cbn. by rewrite E.
  - intros ch n1 E. split.
    + intros ->. unfold main, call. cbn. by rewrite E.
    + intros Hn. unfold main, call. cbn [net out]. rewrite E.
      destruct nodes as [|node nodes]; [done|]. cbn [length Nat.eqb].
      cbv zeta.
      match goal with
      | |- context [scan _ ch _ ?c] => set (con0 := c)
      end.
      destruct (scan_prompts ch (S (String.length stdin)) (bufio.NewScanner stdin) con0)
        as (con & Es & Hp & os & Ho); [cbn; lia|].
      rewrite Es. exists con, os. split; [done|]. split; [by rewrite Ho|].
      rewrite Hp. done.
  - split; [exact delivered_nothing|]. intros line Hl. split.
    + intros Hlong rest. by apply delivered_too_long.
    + intros Hshort. split.
      * intros rest. by apply delivered_line.
      * by apply delivered_last.
  - split; [done|]. split; [exact dropCR_CR|exact dropCR_other].
Qed.
End ClientContract.

(** ** The further properties on the small instances *)

Section OnDemoMore.
Import DemoMore.
#[local] Existing Instance Demo.collaborators.

Lemma no_lock_left_held_witness :
  reachable Demo.world1 /\ PeerList_mut Demo.child1 = idle /\ Peer_mut Demo.peer0 = idle.
Proof.
  split; [exact demo_reachable|].
  destruct (no_lock_left_held Demo.world1 demo_reachable) as [Hl Hp].
  split; [apply (Hl 1)|apply (Hp 0)]; vm_compute; reflexivity.
Defined.

Lemma Close_closes_all_and_keeps_index_witness :
  (reachable Demo.world1 /\ lists Demo.world1 !! 1 = Some Demo.child1) /\
  IsActive 0 (env Demo.world1) = true /\
  exists σ', PeerList.Close 1 Demo.world1 = Some (tt, σ') /\
             lists σ' = lists Demo.world1 /\ peerHeap σ' = peerHeap Demo.world1 /\
             Demo.connections (env σ') = [connectionClosed] /\
             IsActive 0 (env σ') = false /\
             newEvents Demo.world1 σ' = [EvPeerClose 0; EvConnClose 0; EvPeerClose 1].
Proof.
  split; [split; [exact demo_reachable|(vm_compute; reflexivity)]|].
  split; [vm_compute; reflexivity|].
  destruct (Close_closes_all_and_keeps_index 1 Demo.world1 Demo.child1)
    as ((σ' & E & El & Ep & Ee & Hev & _) & _);
    [exact demo_reachable|(vm_compute; reflexivity)|].
  exists σ'. split; [exact E|]. split; [exact El|]. split; [exact Ep|].
  rewrite Ee, Hev. split; [vm_compute; reflexivity|].
  split; vm_compute; reflexivity.
Defined.

Lemma demo_deeper_reachable : reachable world6.
Proof.
  apply (reachable_run deeper Demo.world1); [exact demo_reachable|].
  vm_compute; reflexivity.
Defined.

Lemma delegation_and_close_under_own_lock_witness :
  (reachable world6 /\ lists world6 !! 3 = Some grandchild3) /\
  (exists p σ',
     PeerList.Add 3 "10.0.0.9:4040" world6 = Some (p, σ') /\
     newEntries world6 σ' =
       [ mkEntry (EvListAdd 3 "10.0.0.9:4040") [];
         mkEntry (EvListAdd 1 "10.0.0.9:4040") [(3, mkRWMutex true 0)];
         mkEntry (EvListAdd 0 "10.0.0.9:4040")
                 [(1, mkRWMutex true 0); (3, mkRWMutex true 0)] ]) /\
  (exists σ',
     PeerList.Close 3 world6 = Some (tt, σ') /\
     forall en, en ∈ newEntries world6 σ' -> held en = [(3, mkRWMutex false 1)]).
Proof.
  split; [split; [exact demo_deeper_reachable|(vm_compute; reflexivity)]|].
  destruct (delegation_and_close_under_own_lock 3 world6 grandchild3)
    as (Hadd & Hclose & _);
    [exact demo_deeper_reachable|(vm_compute; reflexivity)|].
  split.
  - destruct (Hadd "10.0.0.9:4040") as (p & σ' & E & Hnew & _).
    exists p, σ'. split; [exact E|]. rewrite Hnew. vm_compute. reflexivity.
  - destruct Hclose as (σ' & E & _ & Hheld). exists σ'. split; [exact E|exact Hheld].
Defined.

Lemma demo_off_chain : ~ onChain (lists Demo.world1) 2 1.
Proof.
  intros Hc. inversion Hc as [|a pl q b Hl Hp Hq]; subst.
  vm_compute in Hl. inversion Hl; subst pl. vm_compute in Hp.
  inversion Hp; subst q. clear -Hq.
  inversion Hq as [|a pl q b Hl Hp _]; subst.
  vm_compute in Hl. inversion Hl; subst pl. vm_compute in Hp. discriminate.
Defined.

Lemma Add_changes_only_own_chain_witness :
  (reachable Demo.world1 /\ lists Demo.world1 !! 2 = Some Demo.sibling2) /\
  exists p σ',
    PeerList.Add 2 "10.0.0.5:4040" Demo.world1 = Some (p, σ') /\
    lists σ' !! 1 = lists Demo.world1 !! 1.
Proof.
  split; [split; [exact demo_reachable|vm_compute; reflexivity]|].
  destruct (Add_changes_only_own_chain 2 "10.0.0.5:4040" Demo.world1 Demo.sibling2)
    as (p & σ' & E & Hoff & _); [exact demo_reachable|vm_compute; reflexivity|].
  exists p, σ'. split; [exact E|]. exact (Hoff 1 demo_off_chain).
Defined.

Lemma Add_creates_peer_only_if_root_lacks_witness :
  (reachable Demo.world1 /\ rootedAt (lists Demo.world1) 1 0 /\ lists Demo.world1 !! 0 = Some Demo.root0) /\
  (exists σ', PeerList.Add 1 "10.0.0.1:4040" Demo.world1 = Some (0, σ') /\
              peerHeap σ' = peerHeap Demo.world1) /\
  (exists σ', PeerList.Add 1 "10.0.0.6:4040" Demo.world1 = Some (2, σ') /\
              peerHeap σ' = peerHeap Demo.world1 ++ [freshPeer 7 "10.0.0.6:4040"]).
Proof.
  split; [split; [exact demo_reachable|split];
          [exact demo_rooted_child|vm_compute; reflexivity]|].
  assert (peersByHostPort Demo.root0 !! "10.0.0.1:4040" = Some 0) as Hhit
    by (vm_compute; reflexivity).
  assert (peersByHostPort Demo.root0 !! "10.0.0.6:4040" = None) as Hmiss
    by (vm_compute; reflexivity).
  split.
  - destruct (Add_creates_peer_only_if_root_lacks 1 0 "10.0.0.1:4040" Demo.world1 Demo.root0)
      as (p & σ' & E & Hm);
      [exact demo_reachable|exact demo_rooted_child|vm_compute; reflexivity|].
    rewrite Hhit in Hm. destruct Hm as [-> Hph]. exists σ'. split; [exact E|exact Hph].
  - destruct (Add_creates_peer_only_if_root_lacks 1 0 "10.0.0.6:4040" Demo.world1 Demo.root0)
      as (p & σ' & E & Hm);
      [exact demo_reachable|exact demo_rooted_child|vm_compute; reflexivity|].
    rewrite Hmiss in Hm. destruct Hm as [-> Hph]. exists σ'.
    split; [exact E|exact Hph].
Defined.

Lemma Copy_reads_back_Add_witness :
  (reachable Demo.world1 /\ lists Demo.world1 !! 1 = Some Demo.child1) /\
  PeerList.Copy 1 Demo.world1 = Some (peersByHostPort Demo.child1, Demo.world1).
Proof.
  split; [split; [exact demo_reachable|vm_compute; reflexivity]|].
  destruct (Copy_reads_back_Add 1 "10.0.0.8:4040" Demo.world1 Demo.child1)
    as (Hcopy & _); [exact demo_reachable|vm_compute; reflexivity|]. exact Hcopy.
Defined.

Lemma HostPort_reads_back_address_witness :
  (reachable Demo.world1 /\ lists Demo.world1 !! 1 = Some Demo.child1) /\
  Peer.HostPort 1 Demo.world1 = Some ("10.0.0.2:4040", Demo.world1).
Proof.
  split; [split; [exact demo_reachable|vm_compute; reflexivity]|].
  destruct (HostPort_reads_back_address 1 "10.0.0.8:4040" Demo.world1 Demo.child1)
    as (Hhp & _); [exact demo_reachable|vm_compute; reflexivity|].
  apply Hhp. vm_compute. reflexivity.
Defined.

Lemma derived_lists_start_empty_witness :
  lists Demo.world1 !! 0 = Some Demo.root0 /\
  exists σ1 cl,
    PeerList.newChild 0 Demo.world1 = Some (length (lists Demo.world1), σ1) /\
    lists σ1 = lists Demo.world1 ++ [cl] /\
    PeerList.Get (length (lists Demo.world1)) σ1 = Some (inl ErrNoPeers, σ1).
Proof.
  split; [vm_compute; reflexivity|].
  destruct (derived_lists_start_empty 0 Demo.world1 Demo.root0)
    as ((σ1 & cl & E & El & _ & _ & _ & Hget & _) & _); [vm_compute; reflexivity|].
  exists σ1, cl. split; [exact E|]. split; [exact El|exact Hget].
Defined.

Lemma Connect_registers_or_reports_witness :
  (peerHeap Demo.world1 !! 1 = Some peer1 /\ Peer_mut peer1 = idle) /\
  exists σ', Peer.Connect (H:=Demo.collaborators) 1 tt Demo.world1 = Some (inr 1, σ') /\
             peerHeap σ' = <[1 := withOutbound peer1 1]> (peerHeap Demo.world1).
Proof.
  split; [split; vm_compute; reflexivity|].
  destruct (Connect_registers_or_reports (H:=Demo.collaborators) 1 tt Demo.world1 peer1)
    as (r & σ' & E & _ & _ & _ & Hr); [vm_compute; reflexivity..|].
  assert (r = inr 1) as ->.
  { vm_compute in E. inversion E. reflexivity. }
  destruct Hr as (_ & _ & Hph). exists σ'. split; [exact E|exact Hph].
Defined.

Lemma GetConnection_again_reuses_witness :
  (peerHeap Demo.world1 !! 1 = Some peer1 /\ Peer_mut peer1 = idle /\
   (forall n e, 0 < n -> (Intn n e).1 < n) /\
   Peer.GetConnection (H:=Demo.collaborators) 1 tt Demo.world1 = Some (inr 1, world4) /\
   IsActive 1 (env world4) = true) /\
  exists c' σ2,
    Peer.GetConnection (H:=Demo.collaborators) 1 tt world4 = Some (inr c', σ2) /\
    connectCalls (newEvents world4 σ2) = 0.
Proof.
  split; [split; [|split; [|split; [|split]]];
          [vm_compute; reflexivity|vm_compute; reflexivity|exact demo_rng
          |vm_compute; reflexivity|vm_compute; reflexivity]|].
  destruct (GetConnection_again_reuses (H:=Demo.collaborators) 1 tt tt Demo.world1 peer1 1 world4)
    as (_ & c' & σ2 & E & _ & Hn & _);
    [vm_compute; reflexivity|vm_compute; reflexivity|exact demo_rng
    |vm_compute; reflexivity|vm_compute; reflexivity|].
  exists c', σ2. split; [exact E|exact Hn].
Defined.

Lemma peer_call_registers_at_most_one_witness :
  (reachable Demo.world1 /\ peerOf (CallGetConnection 1 tt) = Some 1 /\
   exec (CallGetConnection 1 tt) Demo.world1 = Some world4) /\
  registers 1 Demo.world1 world4.
Proof.
  split; [split; [exact demo_reachable|split; vm_compute; reflexivity]|].
  apply (peer_call_registers_at_most_one
           (CallGetConnection (H:=Demo.collaborators) 1 tt) 1 Demo.world1 world4);
    [exact demo_reachable|reflexivity|vm_compute; reflexivity].
Defined.

Lemma connections_never_removed_witness :
  (reachable Demo.world1 /\ run more Demo.world1 = Some world5 /\
   peerHeap Demo.world1 !! 0 = Some Demo.peer0) /\
  exists pr',
    peerHeap world5 !! 0 = Some pr' /\
    outboundConnections Demo.peer0 `prefix_of` outboundConnections pr'.
Proof.
  split; [split; [exact demo_reachable|split; vm_compute; reflexivity]|].
  destruct (connections_never_removed more Demo.world1 world5 0 Demo.peer0)
    as (pr' & Hp & _ & _ & _ & Hout);
    [exact demo_reachable|vm_compute; reflexivity|vm_compute; reflexivity|].
  exists pr'. split; [exact Hp|exact Hout].
Defined.
End OnDemoMore.

Section OnDemoService.
Import Client DemoService.

Lemma set_logs_success_after_failure_witness :
  (getClient 1 console0 = (10, console0) /\
   client_Set 10 "" "v" (net console0) = (Some "empty key", 0)) /\
  set 1 "" "v" console0 =
    mkConsole 0
      [LogPrintf "Set %v:%v got err: %v" [ArgStr ""; ArgStr "v"; ArgErr "empty key"];
       LogPrintf "Set %v:%v succeeded" [ArgStr ""; ArgStr "v"]].
Proof.
  split; [split; reflexivity|].
  destruct (set_logs_success_after_failure 1 "" "v" console0 10 console0)
    as (Hfail & _); [reflexivity|].
  exact (Hfail "empty key" 0 eq_refl).
Defined.

Lemma words_beyond_arguments_ignored_witness :
  (spaceless "key" = true /\ spaceless "value" = true) /\
  handleLine 1 "get key and more" console0 = handleLine 1 "get key" console0 /\
  handleLine 1 "set key value and more" console0
    = handleLine 1 "set key value" console0.
Proof.
  split; [split; reflexivity|].
  destruct (words_beyond_arguments_ignored 1 "key" "value" "and more" console0)
    as (G1 & G2 & S1 & S2); [reflexivity..|].
  split.
  - exact (eq_trans G1 (eq_sym G2)).
  - exact (eq_trans S1 (eq_sym S2)).
Defined.
End OnDemoService.

Section OnDemoMain.
Import Client DemoService.

Lemma main_prompts_once_per_command_witness :
  NewChannel (Service:=service) "keyvalue-client" 0 = (inr 1, 0) /\
  delivered stdin0 = ["help"; ""; "get a"; " set"; "set k v"; "help"] /\
  exists con os,
    main ["keyvalue-client"; "127.0.0.1:21300"] stdin0 0 = Some (Returned, con) /\
    out con = Printf usage :: Printf "> " :: os /\
    prompts (out con) = 5.
Proof.
  split; [reflexivity|]. split; [vm_compute; reflexivity|].
  destruct (main_prompts_once_per_command (H:=service) "keyvalue-client" ["127.0.0.1:21300"]
              stdin0 0) as (_ & Hok & _).
  destruct (Hok 1 0 eq_refl) as [_ Hrun].
  destruct Hrun as (con & os & E & Ho & Hp); [discriminate|].
  exists con, os. split; [exact E|]. split; [exact Ho|].
  rewrite Hp. vm_compute. reflexivity.
Defined.
End OnDemoMain.
